(** * dxfStretcher: zone-based stretching of DXF drawings and reference matching

    A shallow embedding of [src/core/dxf_processor.py] (class [DxfProcessor])
    and [src/core/base_analyzer.py] (class [BaseAnalyzer]), followed by the
    properties of the stretching pipeline and of the reference matcher.

    Numbers.  Python's [float] arithmetic is read over the exact rationals
    [Q]: [+ - * /] are the field operations, comparisons are the order of
    [Q], and the literals [1e-6], [1e-9], [0.1] and [math.pi] are the
    rationals they denote.  Equality of computed values is therefore [==]
    ([Qeq]); Leibniz equality [=] is used where the code copies a value
    without computing on it.

    ezdxf.  The DXF library is outside the repository.  Entities are modelled
    by the attributes the code reads and writes; a missing attribute is
    [None] and reading it raises.  [bbox.extents] is the hull of the defining
    points for straight entities and centre +/- radius for circles; for
    curved entities it is the parameter [curve_extents] of the sections
    below.  [entity.transform(Matrix44.translate(..))] moves the defining
    points. *)

From Stdlib Require Import QArith Qabs Lqa Lia ZArith Bool List String Ascii
  Permutation.
Import ListNotations.
Local Open Scope Q_scope.

(** ** Python numerics *)

Definition Qltb (x y : Q) : bool := negb (Qle_bool y x).

(** [max(a, b)] and [min(a, b)] return the first argument unless the second
    is strictly larger (smaller). *)
Definition pymax (a b : Q) : Q := if Qltb a b then b else a.
Definition pymin (a b : Q) : Q := if Qltb b a then b else a.

Definition eps6 : Q := 1 # 1000000.      (* 1e-6 *)
Definition eps9 : Q := 1 # 1000000000.   (* 1e-9 *)

(** ** Exceptions *)

Inductive Error : Type :=
| NotLoaded          (* RuntimeError: DXF not loaded *)
| GeometryLoadError  (* RuntimeError: no extents *)
| DegenerateAxis     (* ValueError: current length is 0 *)
| NoElasticRegion    (* RuntimeError: no stretch zone to absorb the delta *)
| AttributeError     (* a missing attribute was read *)
| ValueError         (* a point did not unpack into three coordinates *)
| IndexError         (* mapping[-1] or mapping[0] on an empty mapping *)
| NotImplemented.    (* the entity does not support transform() *)

Inductive result (A : Type) : Type :=
| OK (a : A)
| Err (e : Error).
Arguments OK {A} a.
Arguments Err {A} e.

Definition bind {A B : Type} (m : result A) (k : A -> result B) : result B :=
  match m with
  | OK a => k a
  | Err e => Err e
  end.

Notation "x <- m ;; k" := (bind m (fun x => k))
  (at level 61, m at next level, right associativity).

Definition attr {A : Type} (o : option A) : result A :=
  match o with
  | Some a => OK a
  | None => Err AttributeError
  end.

(** ** Drawing entities *)

Inductive Axis : Type := X | Y.

Record Vec3 : Type := mkVec3 { vx : Q; vy : Q; vz : Q }.

(** The [dxf] namespace of a polyline vertex. *)
Record Vertex : Type := mkVertex {
  vertex_x : option Q;
  vertex_y : option Q;
  bulge : option Q
}.

Inductive Entity : Type :=
| LINE (start end_ : option Vec3)
| LWPOLYLINE (vertices : list Vertex)
| POLYLINE (vertices : list Vertex)
| SPLINE (control_points : option (list (list Q)))
         (fit_points : option (list (list Q)))
         (knot_values : list Q)
| CIRCLE (center : option Vec3) (radius : Q)
| ARC (center : option Vec3) (radius start_angle end_angle : Q)
| POINT (location : option Vec3)
| ELLIPSE (center major_axis : Vec3) (ratio : Q)
| OTHER (dxftype_name : string) (insert : Vec3) (transformable : bool).

Definition dxftype (e : Entity) : string :=
  match e with
  | LINE _ _ => "LINE"
  | LWPOLYLINE _ => "LWPOLYLINE"
  | POLYLINE _ => "POLYLINE"
  | SPLINE _ _ _ => "SPLINE"
  | CIRCLE _ _ => "CIRCLE"
  | ARC _ _ _ _ => "ARC"
  | POINT _ => "POINT"
  | ELLIPSE _ _ _ => "ELLIPSE"
  | OTHER n _ _ => n
  end.

Definition coord (axis : Axis) (v : Vec3) : Q :=
  match axis with X => vx v | Y => vy v end.

Definition set_coord (axis : Axis) (v : Vec3) (c : Q) : Vec3 :=
  match axis with
  | X => mkVec3 c (vy v) (vz v)
  | Y => mkVec3 (vx v) c (vz v)
  end.

(** ** Bounding boxes ([ezdxf.bbox]) *)

Record Extents : Type := mkExtents {
  extmin_x : Q; extmax_x : Q; extmin_y : Q; extmax_y : Q
}.

Definition size_x (b : Extents) : Q := extmax_x b - extmin_x b.
Definition size_y (b : Extents) : Q := extmax_y b - extmin_y b.

Definition point_extents (x y : Q) : Extents := mkExtents x x y y.

Definition union_extents (a b : Extents) : Extents :=
  mkExtents (pymin (extmin_x a) (extmin_x b)) (pymax (extmax_x a) (extmax_x b))
            (pymin (extmin_y a) (extmin_y b)) (pymax (extmax_y a) (extmax_y b)).

Definition union_opt (a : option Extents) (b : option Extents) : option Extents :=
  match a, b with
  | Some a, Some b => Some (union_extents a b)
  | Some a, None => Some a
  | None, b => b
  end.

Definition vertex_point (v : Vertex) : option Extents :=
  match vertex_x v, vertex_y v with
  | Some x, Some y => Some (point_extents x y)
  | _, _ => None
  end.

Definition is_curved (v : Vertex) : bool :=
  match bulge v with
  | Some b => Qltb eps6 (Qabs b)
  | None => false
  end.

Definition mem (s : string) (l : list string) : bool := existsb (String.eqb s) l.

(** ** Zones and mapping segments *)

(** [zone_type]: the strings ['stretch'] and ['fixed']. *)
Inductive ZoneType : Type := Stretch | Fixed.

Definition is_stretch (t : ZoneType) : bool :=
  match t with Stretch => true | Fixed => false end.

Record Zone : Type := mkZone {
  start_old : Q;
  end_old : Q;
  zone_type : ZoneType
}.

(** [Zone.length] *)
Definition Zone_length (z : Zone) : Q := pymax 0 (end_old z - start_old z).

Record MappingSegment : Type := mkSegment {
  seg_zone :> Zone;
  start_new : Q;
  end_new : Q
}.

(** [MappingSegment.length_new] *)
Definition length_new (s : MappingSegment) : Q := pymax 0 (end_new s - start_new s).

(** ** The processor object *)

Record ZoneCache : Type := mkCache {
  cache_X : option (list Zone);
  cache_Y : option (list Zone)
}.

Definition cache_get (c : ZoneCache) (axis : Axis) : option (list Zone) :=
  match axis with X => cache_X c | Y => cache_Y c end.

Definition cache_set (c : ZoneCache) (axis : Axis) (zones : list Zone) : ZoneCache :=
  match axis with
  | X => mkCache (Some zones) (cache_Y c)
  | Y => mkCache (cache_X c) (Some zones)
  end.

Definition cache_clear : ZoneCache := mkCache None None.

Record DxfProcessor : Type := mkProcessor {
  last_doc : option (list Entity);
  extents : option Extents;
  zone_cache : ZoneCache
}.

(** [DxfProcessor.__init__] *)
Definition init : DxfProcessor := mkProcessor None None cache_clear.

Record DxfInfo : Type := mkInfo {
  length_x : Q; width_y : Q; entity_count : nat;
  min_x : Q; max_x : Q; min_y : Q; max_y : Q
}.

(** Methods run in a state-and-exception monad over the processor: a raised
    exception keeps the mutations made before it. *)
Definition M (A : Type) : Type := DxfProcessor -> result A * DxfProcessor.

Definition ret {A : Type} (a : A) : M A := fun self => (OK a, self).
Definition raise {A : Type} (e : Error) : M A := fun self => (Err e, self).
Definition bindM {A B : Type} (m : M A) (k : A -> M B) : M B :=
  fun self =>
    match m self with
    | (OK a, self') => k a self'
    | (Err e, self') => (Err e, self')
    end.
Definition get_self : M DxfProcessor := fun self => (OK self, self).
Definition put_self (s : DxfProcessor) : M unit := fun _ => (OK tt, s).
Definition lift {A : Type} (r : result A) : M A := fun self => (r, self).

Notation "x <~ m ;; k" := (bindM m (fun x => k))
  (at level 61, m at next level, right associativity).

(** ** Zone Segmenter *)

(** [_is_fixed_entity]: the generator inside [any] stops at the first curved
    vertex; a vertex without [bulge] raises [AttributeError], which the
    method swallows. *)
Fixpoint any_bulge (vs : list Vertex) : result bool :=
  match vs with
  | [] => OK false
  | vertex :: rest =>
      b <- attr (bulge vertex) ;;
      if Qltb eps6 (Qabs b) then OK true else any_bulge rest
  end.

Definition entity_vertices (e : Entity) : result (list Vertex) :=
  match e with
  | LWPOLYLINE vs | POLYLINE vs => OK vs
  | _ => Err AttributeError
  end.

Definition _is_fixed_entity (entity : Entity) : bool :=
  let dxftype := dxftype entity in
  if mem dxftype ["CIRCLE"; "ARC"; "ELLIPSE"; "SPLINE"]%string then true
  else if mem dxftype ["LWPOLYLINE"; "POLYLINE"]%string then
    match (vs <- entity_vertices entity ;; any_bulge vs) with
    | OK true => true
    | _ => false
    end
  else false.

Definition axis_interval (axis : Axis) (ext : Extents) : Q * Q :=
  match axis with
  | X => (extmin_x ext, extmax_x ext)
  | Y => (extmin_y ext, extmax_y ext)
  end.

(** Clipping of one fixed interval to the axis range; empty intervals are
    dropped. *)
Definition clip_interval (axis_min axis_max : Q) (interval : Q * Q) : list (Q * Q) :=
  let start := pymax axis_min (fst interval) in
  let end_ := pymin axis_max (snd interval) in
  if Qltb start end_ then [(start, end_)] else [].

(** [intervals.sort(key=lambda x: x[0])]: a stable sort on the start. *)
Fixpoint insert_by_start (iv : Q * Q) (l : list (Q * Q)) : list (Q * Q) :=
  match l with
  | [] => [iv]
  | iv' :: l' =>
      if Qle_bool (fst iv) (fst iv') then iv :: iv' :: l'
      else iv' :: insert_by_start iv l'
  end.

Definition sort_by_start (l : list (Q * Q)) : list (Q * Q) :=
  fold_right insert_by_start [] l.

(** The merge loop; [cur] is [merged[-1]], the intervals already returned
    are the part of [merged] before it. *)
Fixpoint merge_from (cur : Q * Q) (intervals : list (Q * Q)) : list (Q * Q) :=
  match intervals with
  | [] => [cur]
  | (start, end_) :: rest =>
      if Qltb (snd cur) start then cur :: merge_from (start, end_) rest
      else merge_from (fst cur, pymax (snd cur) end_) rest
  end.

Definition merge_intervals (intervals : list (Q * Q)) : list (Q * Q) :=
  match intervals with
  | [] => []
  | first :: rest => merge_from first rest
  end.

(** The walk over the merged intervals; returns the zones and the final
    cursor. *)
Fixpoint walk_zones (cursor : Q) (merged : list (Q * Q)) : list Zone * Q :=
  match merged with
  | [] => ([], cursor)
  | (start, end_) :: rest =>
      let gap := if Qltb cursor start then [mkZone cursor start Stretch] else [] in
      let (zones, final) := walk_zones (pymax cursor end_) rest in
      (gap ++ mkZone start end_ Fixed :: zones, final)
  end.

Definition zones_of_intervals (axis_min axis_max : Q) (intervals : list (Q * Q))
  : list Zone :=
  let merged := merge_intervals (sort_by_start intervals) in
  let (zones, cursor) := walk_zones axis_min merged in
  let zones :=
    if Qltb cursor axis_max then zones ++ [mkZone cursor axis_max Stretch]
    else zones in
  match zones with
  | [] => [mkZone axis_min axis_max Stretch]
  | _ => zones
  end.

(** ** Mapping Builder *)

(** [sum(zone.length for zone in zones if zone.zone_type == "stretch")] *)
Definition stretch_total (zones : list Zone) : Q :=
  fold_left (fun acc zone => acc + Zone_length zone)
            (filter (fun zone => is_stretch (zone_type zone)) zones) 0.

(** The body of the [if]/[else] of the loop of [_build_mapping]. *)
Definition new_length (stretch_total delta : Q) (zone : Zone) : Q :=
  let zone_length := Zone_length zone in
  if is_stretch (zone_type zone) && Qltb 0 stretch_total then
    let extra := delta * (zone_length / stretch_total) in
    zone_length + extra
  else zone_length.

Fixpoint build_segments (stretch_total delta current_new : Q) (zones : list Zone)
  : list MappingSegment :=
  match zones with
  | [] => []
  | zone :: rest =>
      let new_length := new_length stretch_total delta zone in
      mkSegment zone current_new (current_new + new_length)
        :: build_segments stretch_total delta (current_new + new_length) rest
  end.

Definition build_mapping_on (bounds : Q * Q) (zones : list Zone) (target_length : Q)
  : result (list MappingSegment) :=
  let (axis_min, axis_max) := bounds in
  let current_length := axis_max - axis_min in
  let delta := target_length - current_length in
  let stretch_total := stretch_total zones in
  if Qltb eps9 (Qabs delta) && Qle_bool stretch_total 0 then Err NoElasticRegion
  else OK (build_segments stretch_total delta axis_min zones).

(** ** Coordinate Mapper *)

Fixpoint find_segment (value : Q) (mapping : list MappingSegment) : option Q :=
  match mapping with
  | [] => None
  | segment :: rest =>
      if Qltb value (start_old segment - eps9) then find_segment value rest
      else if Qle_bool value (end_old segment + eps9) then
        let old_len := Zone_length segment in
        if Qltb old_len eps9 then
          let offset := start_new segment - start_old segment in
          Some (value + offset)
        else
          let ratio := (value - start_old segment) / old_len in
          Some (start_new segment + ratio * length_new segment)
      else find_segment value rest
  end.

Definition _map_value (value : Q) (mapping : list MappingSegment) : result Q :=
  match find_segment value mapping with
  | Some v => OK v
  | None =>
      match rev mapping with
      | last :: _ => OK (value + (end_new last - end_old last))
      | [] => Err IndexError
      end
  end.

(** ** Geometry Transformer *)

(** Each [_map_*] method mutates one entity in place and may raise; it
    returns the outcome together with the state the entity is left in. *)
Definition Mutation : Type := (result unit * Entity)%type.

Definition map_vec (v : Vec3) (mapping : list MappingSegment) (axis : Axis)
  : result Vec3 :=
  c <- _map_value (coord axis v) mapping ;; OK (set_coord axis v c).

Definition _map_line (entity : Entity) (mapping : list MappingSegment) (axis : Axis)
  : Mutation :=
  match entity with
  | LINE s e =>
      match (start <- attr s ;;
             end_ <- attr e ;;
             new_start <- map_vec start mapping axis ;;
             new_end <- map_vec end_ mapping axis ;;
             OK (new_start, new_end)) with
      | OK (new_start, new_end) => (OK tt, LINE (Some new_start) (Some new_end))
      | Err err => (Err err, entity)
      end
  | _ => (Err AttributeError, entity)
  end.

Definition vertex_coord (axis : Axis) (v : Vertex) : option Q :=
  match axis with X => vertex_x v | Y => vertex_y v end.

Definition set_vertex_coord (axis : Axis) (v : Vertex) (c : Q) : Vertex :=
  match axis with
  | X => mkVertex (Some c) (vertex_y v) (bulge v)
  | Y => mkVertex (vertex_x v) (Some c) (bulge v)
  end.

(** The loop of [_map_polyline]: every vertex is overwritten as soon as its
    new coordinate is known. *)
Fixpoint map_vertices (vs : list Vertex) (mapping : list MappingSegment) (axis : Axis)
  : result unit * list Vertex :=
  match vs with
  | [] => (OK tt, [])
  | vertex :: rest =>
      match (c <- attr (vertex_coord axis vertex) ;; _map_value c mapping) with
      | OK c' =>
          let (r, rest') := map_vertices rest mapping axis in
          (r, set_vertex_coord axis vertex c' :: rest')
      | Err err => (Err err, vertex :: rest)
      end
  end.

Definition _map_polyline (entity : Entity) (mapping : list MappingSegment) (axis : Axis)
  : Mutation :=
  match entity with
  | LWPOLYLINE vs =>
      let (r, vs') := map_vertices vs mapping axis in (r, LWPOLYLINE vs')
  | POLYLINE vs =>
      let (r, vs') := map_vertices vs mapping axis in (r, POLYLINE vs')
  | _ => (Err AttributeError, entity)
  end.

(** [x, y, z = point] followed by the remapped tuple. *)
Definition map_point3 (point : list Q) (mapping : list MappingSegment) (axis : Axis)
  : result (list Q) :=
  match point with
  | [x; y; z] =>
      match axis with
      | X => x' <- _map_value x mapping ;; OK [x'; y; z]
      | Y => y' <- _map_value y mapping ;; OK [x; y'; z]
      end
  | _ => Err ValueError
  end.

Fixpoint map_points (points : list (list Q)) (mapping : list MappingSegment)
  (axis : Axis) : result (list (list Q)) :=
  match points with
  | [] => OK []
  | point :: rest =>
      p <- map_point3 point mapping axis ;;
      ps <- map_points rest mapping axis ;;
      OK (p :: ps)
  end.

Definition _map_spline (entity : Entity) (mapping : list MappingSegment) (axis : Axis)
  : Mutation :=
  match entity with
  | SPLINE ctrl fit knots =>
      match (match ctrl with
             | Some points => new_ctrl <- map_points points mapping axis ;; OK (Some new_ctrl)
             | None => OK None
             end) with
      | Err err => (Err err, entity)
      | OK ctrl' =>
          match fit with
          | Some (p :: ps) =>
              match map_points (p :: ps) mapping axis with
              | OK new_fit => (OK tt, SPLINE ctrl' (Some new_fit) knots)
              | Err err => (Err err, SPLINE ctrl' fit knots)
              end
          | _ => (OK tt, SPLINE ctrl' fit knots)
          end
      end
  | _ => (OK tt, entity)
  end.

Definition _map_circle_arc (entity : Entity) (mapping : list MappingSegment) (axis : Axis)
  : Mutation :=
  match entity with
  | CIRCLE c r =>
      match (center <- attr c ;; map_vec center mapping axis) with
      | OK new_center => (OK tt, CIRCLE (Some new_center) r)
      | Err err => (Err err, entity)
      end
  | ARC c r a b =>
      match (center <- attr c ;; map_vec center mapping axis) with
      | OK new_center => (OK tt, ARC (Some new_center) r a b)
      | Err err => (Err err, entity)
      end
  | _ => (Err AttributeError, entity)
  end.

Definition _map_point (entity : Entity) (mapping : list MappingSegment) (axis : Axis)
  : Mutation :=
  match entity with
  | POINT l =>
      match (location <- attr l ;; map_vec location mapping axis) with
      | OK new_location => (OK tt, POINT (Some new_location))
      | Err err => (Err err, entity)
      end
  | _ => (Err AttributeError, entity)
  end.

(** [entity.transform(Matrix44.translate(..))] along one axis: all defining
    points move by [d], or the call raises and nothing moves. *)
Definition translate_vec (axis : Axis) (d : Q) (v : Vec3) : Vec3 :=
  set_coord axis v (coord axis v + d).

Definition translate_vertex (axis : Axis) (d : Q) (v : Vertex) : result Vertex :=
  c <- attr (vertex_coord axis v) ;; OK (set_vertex_coord axis v (c + d)).

Definition translate_point3 (axis : Axis) (d : Q) (point : list Q) : result (list Q) :=
  match point with
  | [x; y; z] => match axis with X => OK [x + d; y; z] | Y => OK [x; y + d; z] end
  | _ => Err ValueError
  end.

Fixpoint traverse {A B : Type} (f : A -> result B) (l : list A) : result (list B) :=
  match l with
  | [] => OK []
  | a :: rest => b <- f a ;; bs <- traverse f rest ;; OK (b :: bs)
  end.

Definition traverse_opt {A B : Type} (f : A -> result B) (o : option (list A))
  : result (option (list B)) :=
  match o with
  | Some l => l' <- traverse f l ;; OK (Some l')
  | None => OK None
  end.

Definition transform_translate (axis : Axis) (d : Q) (entity : Entity) : result Entity :=
  match entity with
  | LINE s e =>
      start <- attr s ;; end_ <- attr e ;;
      OK (LINE (Some (translate_vec axis d start)) (Some (translate_vec axis d end_)))
  | LWPOLYLINE vs => vs' <- traverse (translate_vertex axis d) vs ;; OK (LWPOLYLINE vs')
  | POLYLINE vs => vs' <- traverse (translate_vertex axis d) vs ;; OK (POLYLINE vs')
  | SPLINE ctrl fit knots =>
      ctrl' <- traverse_opt (translate_point3 axis d) ctrl ;;
      fit' <- traverse_opt (translate_point3 axis d) fit ;;
      OK (SPLINE ctrl' fit' knots)
  | CIRCLE c r => center <- attr c ;; OK (CIRCLE (Some (translate_vec axis d center)) r)
  | ARC c r a b => center <- attr c ;; OK (ARC (Some (translate_vec axis d center)) r a b)
  | POINT l => location <- attr l ;; OK (POINT (Some (translate_vec axis d location)))
  | ELLIPSE c m r => OK (ELLIPSE (translate_vec axis d c) m r)
  | OTHER n p true => OK (OTHER n (translate_vec axis d p) true)
  | OTHER _ _ false => Err NotImplemented
  end.

(** [try: entity.transform(transform) except Exception: ...] *)
Definition try_transform (axis : Axis) (d : Q) (entity : Entity) : Entity :=
  match transform_translate axis d entity with
  | OK entity' => entity'
  | Err _ => entity
  end.

Definition _map_generic (entity : Entity) (mapping : list MappingSegment) (axis : Axis)
  : Mutation :=
  match mapping with
  | [] => (Err IndexError, entity)
  | first :: _ =>
      let offset := start_new first - start_old first in
      (OK tt, try_transform axis offset entity)
  end.

(** The dispatch on [entity.dxftype()] inside the [try] of [_apply_mapping]. *)
Definition map_entity (entity : Entity) (mapping : list MappingSegment) (axis : Axis)
  : Mutation :=
  let dxftype := dxftype entity in
  if String.eqb dxftype "LINE" then _map_line entity mapping axis
  else if mem dxftype ["LWPOLYLINE"; "POLYLINE"]%string then _map_polyline entity mapping axis
  else if String.eqb dxftype "SPLINE" then _map_spline entity mapping axis
  else if mem dxftype ["CIRCLE"; "ARC"]%string then _map_circle_arc entity mapping axis
  else if String.eqb dxftype "POINT" then _map_point entity mapping axis
  else _map_generic entity mapping axis.

(** The loop of [_apply_mapping]: [except Exception: continue] drops the
    outcome and keeps the entity as the method left it. *)
Definition apply_mapping_doc (mapping : list MappingSegment) (axis : Axis)
  (msp : list Entity) : list Entity :=
  map (fun entity => snd (map_entity entity mapping axis)) msp.

Definition modelspace : M (list Entity) :=
  self <~ get_self ;; lift (attr (last_doc self)).

Definition set_modelspace (msp : list Entity) : M unit :=
  self <~ get_self ;; put_self (mkProcessor (Some msp) (extents self) (zone_cache self)).

Definition _apply_mapping (mapping : list MappingSegment) (axis : Axis) : M unit :=
  msp <~ modelspace ;;
  set_modelspace (apply_mapping_doc mapping axis msp).

(** ** Anchor Re-positioner *)

Definition _get_axis_bounds (axis : Axis) : M (Q * Q) :=
  self <~ get_self ;;
  ext <~ lift (attr (extents self)) ;;
  ret (axis_interval axis ext).

Definition anchor_value_of (bounds : Q * Q) (anchor : string) : Q :=
  let (axis_min, axis_max) := bounds in
  if String.eqb anchor "center" then (axis_min + axis_max) / 2
  else if mem anchor ["end"; "top"; "right"]%string then axis_max
  else axis_min.

(** The translation that [_apply_anchor_shift] applies: [None] when the
    method returns early. *)
Definition anchor_shift (bounds : Q * Q) (mapping : list MappingSegment)
  (anchor : string) : result (option Q) :=
  let anchor_value := anchor_value_of bounds anchor in
  new_anchor <- _map_value anchor_value mapping ;;
  let shift := anchor_value - new_anchor in
  if Qltb (Qabs shift) eps6 then OK None else OK (Some shift).

Definition _apply_anchor_shift (mapping : list MappingSegment) (axis : Axis)
  (anchor : string) : M unit :=
  bounds <~ _get_axis_bounds axis ;;
  shift <~ lift (anchor_shift bounds mapping anchor) ;;
  match shift with
  | None => ret tt
  | Some shift =>
      msp <~ modelspace ;;
      set_modelspace (map (try_transform axis shift) msp)
  end.

Definition _build_mapping (zones : list Zone) (axis : Axis) (target_length : Q)
  : M (list MappingSegment) :=
  bounds <~ _get_axis_bounds axis ;;
  lift (build_mapping_on bounds zones target_length).

(** ** Geometry Loader, Segmenter and the stretch pipeline *)

Section Pipeline.

(** [bbox.extents] of a curved entity (arc, ellipse, spline, polyline with a
    bulge, unknown kind): computed by ezdxf from the flattened curve. *)
Variable curve_extents : Entity -> option Extents.

Definition vec_extents (v : Vec3) : Extents := point_extents (vx v) (vy v).

Fixpoint vertices_extents (vs : list Vertex) : option Extents :=
  match vs with
  | [] => None
  | v :: rest => union_opt (vertex_point v) (vertices_extents rest)
  end.

Definition entity_extents (entity : Entity) : option Extents :=
  match entity with
  | LINE (Some s) (Some e) => Some (union_extents (vec_extents s) (vec_extents e))
  | LINE _ _ => None
  | POINT (Some l) => Some (vec_extents l)
  | POINT None => None
  | CIRCLE (Some c) r =>
      Some (mkExtents (vx c - r) (vx c + r) (vy c - r) (vy c + r))
  | CIRCLE None _ => None
  | LWPOLYLINE vs | POLYLINE vs =>
      if existsb is_curved vs then curve_extents entity else vertices_extents vs
  | _ => curve_extents entity
  end.

(** [bbox.extents(msp)] *)
Definition extents_of (msp : list Entity) : option Extents :=
  fold_right (fun entity acc => union_opt (entity_extents entity) acc) None msp.

(** [load]: the parsed modelspace stands for the file. *)
Definition load (msp : list Entity) : M DxfInfo :=
  self <~ get_self ;;
  _ <~ put_self (mkProcessor (Some msp) (extents self) (zone_cache self)) ;;
  match extents_of msp with
  | None => raise GeometryLoadError
  | Some ext =>
      _ <~ put_self (mkProcessor (Some msp) (Some ext) cache_clear) ;;
      ret (mkInfo (size_x ext) (size_y ext) (List.length msp)
                  (extmin_x ext) (extmax_x ext) (extmin_y ext) (extmax_y ext))
  end.

Definition _entity_interval (entity : Entity) (axis : Axis) : option (Q * Q) :=
  match entity_extents entity with
  | None => None
  | Some ext => Some (axis_interval axis ext)
  end.

(** The first loop of [_get_zones]. *)
Definition fixed_intervals (msp : list Entity) (axis : Axis) (axis_min axis_max : Q)
  : list (Q * Q) :=
  flat_map (fun entity =>
              if _is_fixed_entity entity then
                match _entity_interval entity axis with
                | Some interval => clip_interval axis_min axis_max interval
                | None => []
                end
              else []) msp.

Definition compute_zones (msp : list Entity) (axis : Axis) (bounds : Q * Q)
  : list Zone :=
  let (axis_min, axis_max) := bounds in
  let axis_max := if Qltb axis_max axis_min then axis_min else axis_max in
  zones_of_intervals axis_min axis_max (fixed_intervals msp axis axis_min axis_max).

Definition _get_zones (axis : Axis) : M (list Zone) :=
  self <~ get_self ;;
  match cache_get (zone_cache self) axis with
  | Some (z :: zs) => ret (z :: zs)
  | _ =>
      bounds <~ _get_axis_bounds axis ;;
      msp <~ modelspace ;;
      let zones := compute_zones msp axis bounds in
      _ <~ put_self (mkProcessor (last_doc self) (extents self)
                            (cache_set (zone_cache self) axis zones)) ;;
      ret zones
  end.

Definition axis_size (axis : Axis) (ext : Extents) : Q :=
  match axis with X => size_x ext | Y => size_y ext end.

(** [stretch]: returns the saved modelspace, or [None] when the drawing
    already has the target length and nothing is saved. *)
Definition stretch (target_length : Q) (axis : Axis) (anchor : string)
  : M (option (list Entity)) :=
  self <~ get_self ;;
  match last_doc self, extents self with
  | Some _, Some ext =>
      let size := axis_size axis ext in
      if Qeq_bool size 0 then raise DegenerateAxis
      else if Qeq_bool size target_length then ret None
      else
        zones <~ _get_zones axis ;;
        mapping <~ _build_mapping zones axis target_length ;;
        _ <~ _apply_mapping mapping axis ;;
        _ <~ _apply_anchor_shift mapping axis anchor ;;
        msp <~ modelspace ;;
        ret (Some msp)
  | _, _ => raise NotLoaded
  end.

Definition stretch_axis (target : Q) (axis : Axis) (anchor : string) : M unit :=
  zones <~ _get_zones axis ;;
  mapping <~ _build_mapping zones axis target ;;
  _ <~ _apply_mapping mapping axis ;;
  _apply_anchor_shift mapping axis anchor.

Definition stretch_both_axes (target_length_x target_width_y : Q)
  (anchor_x anchor_y : string) : M (option (list Entity)) :=
  self <~ get_self ;;
  match last_doc self, extents self with
  | Some _, Some ext =>
      let needs_x_stretch := Qltb eps6 (Qabs (size_x ext - target_length_x)) in
      let needs_y_stretch := Qltb eps6 (Qabs (size_y ext - target_width_y)) in
      if negb needs_x_stretch && negb needs_y_stretch then ret None
      else
        _ <~ (if needs_x_stretch then
                _ <~ stretch_axis target_length_x X anchor_x ;;
                self' <~ get_self ;;
                msp <~ modelspace ;;
                put_self (mkProcessor (last_doc self') (extents_of msp) (zone_cache self'))
              else ret tt) ;;
        _ <~ (if needs_y_stretch then stretch_axis target_width_y Y anchor_y
              else ret tt) ;;
        msp <~ modelspace ;;
        ret (Some msp)
  | _, _ => raise NotLoaded
  end.

End Pipeline.

(** * [base_analyzer.py] *)

(** ** Records *)

Module ArcInfo.
Record t : Type := mk {
  radius : Q;
  arc_length : Q;
  center : Q * Q;
  start_angle : Q;
  end_angle : Q
}.
End ArcInfo.

Module BaseInfo.
Record t : Type := mk {
  file_path : string;
  korpus_number : string;
  arc1 : ArcInfo.t;     (* outer arc, larger radius *)
  arc2 : ArcInfo.t      (* inner arc, smaller radius *)
}.
Definition outer_radius_length (b : t) : Q := ArcInfo.arc_length (arc1 b).
Definition inner_radius_length (b : t) : Q := ArcInfo.arc_length (arc2 b).
End BaseInfo.

Module RadiusFileInfo.
Record t : Type := mk {
  file_path : string;
  korpus_number : string;
  is_outer : bool;
  current_length : Q;
  target_length : Q;
  base_info : BaseInfo.t;
  current_width : Q
}.
End RadiusFileInfo.

Module WidthCheckResult.
Record t : Type := mk {
  korpus_number : string;
  outer_file : option string;
  inner_file : option string;
  outer_width : option Q;
  inner_width : option Q;
  width_difference : Q;
  needs_adjustment : bool
}.
Definition has_both_files (r : t) : bool :=
  match outer_file r, inner_file r with
  | Some _, Some _ => true
  | _, _ => false
  end.
End WidthCheckResult.

Inductive AnalyzerError : Type :=
| NoBaseFiles                                             (* FileNotFoundError *)
| NoReferencesFound                                       (* RuntimeError *)
| InsufficientArcs (filename : string)                    (* ValueError *)
| UnparsableFilename (filename : string)                  (* ValueError *)
| UnknownAssembly (korpus_number available : string)      (* KeyError *)
| ReadError (filename : string).                          (* ezdxf.readfile raised *)

Inductive analysis (A : Type) : Type :=
| Found (a : A)
| Failed (e : AnalyzerError).
Arguments Found {A} a.
Arguments Failed {A} e.

Definition and_then {A B : Type} (m : analysis A) (k : A -> analysis B) : analysis B :=
  match m with
  | Found a => k a
  | Failed e => Failed e
  end.

Notation "x <-- m ;; k" := (and_then m (fun x => k))
  (at level 61, m at next level, right associativity).

(** ** Strings: [in], [str.endswith] and the two regular expressions *)

Fixpoint strip_prefix (p s : string) : option string :=
  match p, s with
  | EmptyString, _ => Some s
  | String a p', String b s' => if Ascii.eqb a b then strip_prefix p' s' else None
  | String _ _, EmptyString => None
  end.

Definition starts_with (p s : string) : bool :=
  match strip_prefix p s with Some _ => true | None => false end.

(** [needle in hay] *)
Fixpoint contains (needle hay : string) : bool :=
  starts_with needle hay ||
  match hay with
  | EmptyString => false
  | String _ hay' => contains needle hay'
  end.

Fixpoint string_rev_onto (acc s : string) : string :=
  match s with
  | EmptyString => acc
  | String c s' => string_rev_onto (String c acc) s'
  end.

Definition string_rev (s : string) : string := string_rev_onto EmptyString s.

Definition ends_with (suffix s : string) : bool :=
  starts_with (string_rev suffix) (string_rev s).

Definition is_digit (c : ascii) : bool :=
  let n := nat_of_ascii c in Nat.leb 48 n && Nat.leb n 57.

(** [(\d+)] read greedily: the digits and what follows them. *)
Fixpoint take_digits (s : string) : string * string :=
  match s with
  | String c s' =>
      if is_digit c then let (d, r) := take_digits s' in (String c d, r)
      else (EmptyString, s)
  | EmptyString => (EmptyString, EmptyString)
  end.

(** A literal matched under [re.IGNORECASE]: every letter is given in its
    small and capital form. *)
Fixpoint match_letters (letters : list (string * string)) (s : string) : option string :=
  match letters with
  | [] => Some s
  | (small, capital) :: more =>
      match strip_prefix small s with
      | Some r => match_letters more r
      | None =>
          match strip_prefix capital s with
          | Some r => match_letters more r
          | None => None
          end
      end
  end.

(** [re.search]: the leftmost position where the pattern matches. *)
Fixpoint re_search (match_here : string -> option string) (s : string) : option string :=
  match match_here s with
  | Some group => Some group
  | None =>
      match s with
      | EmptyString => None
      | String _ s' => re_search match_here s'
      end
  end.

Definition nonempty (s : string) : option string :=
  match s with EmptyString => None | _ => Some s end.

(** [корп(\d+)] *)
Definition korp_here (s : string) : option string :=
  match match_letters [("к", "К"); ("о", "О"); ("р", "Р"); ("п", "П")]%string s with
  | Some r => nonempty (fst (take_digits r))
  | None => None
  end.

Fixpoint last_char (s : string) : option string :=
  match s with
  | EmptyString => None
  | String c EmptyString => Some (String c EmptyString)
  | String _ s' => last_char s'
  end.

(** [Г\d*\.?(\d+)]: when no digit follows the optional dot, [\d*] gives its
    last digit back to the group. *)
Definition g_here (s : string) : option string :=
  match match_letters [("г", "Г")]%string s with
  | Some r =>
      let (d, r1) := take_digits r in
      match r1 with
      | String "."%char r2 =>
          match nonempty (fst (take_digits r2)) with
          | Some group => Some group
          | None => last_char d
          end
      | _ => last_char d
      end
  | None => None
  end.

Definition _extract_korpus_number (filename : string) : analysis string :=
  match re_search korp_here filename with
  | Some group => Found ("корп" ++ group)%string
  | None =>
      match re_search g_here filename with
      | Some group => Found ("корп" ++ group)%string
      | None => Failed (UnparsableFilename filename)
      end
  end.

(** ** Reference Matcher *)

Definition math_pi : Q := 884279719003555 # 281474976710656.

(** [math.radians] *)
Definition radians (x : Q) : Q := x * (math_pi / 180).

Definition _extract_arc_info (entity : Entity) : option ArcInfo.t :=
  match entity with
  | ARC (Some c) radius start_angle end_angle =>
      let center := (vx c, vy c) in
      let start_rad := radians start_angle in
      let end_rad := radians end_angle in
      let end_rad := if Qltb end_rad start_rad then end_rad + 2 * math_pi else end_rad in
      let angle_diff := end_rad - start_rad in
      let arc_length := radius * angle_diff in
      Some (ArcInfo.mk radius arc_length center start_angle end_angle)
  | _ => None
  end.

(** [arcs.sort(key=lambda a: a.radius, reverse=True)]: stable, descending. *)
Fixpoint insert_by_radius (a : ArcInfo.t) (l : list ArcInfo.t) : list ArcInfo.t :=
  match l with
  | [] => [a]
  | b :: l' =>
      if Qle_bool (ArcInfo.radius b) (ArcInfo.radius a) then a :: b :: l'
      else b :: insert_by_radius a l'
  end.

Definition sort_by_radius (l : list ArcInfo.t) : list ArcInfo.t :=
  fold_right insert_by_radius [] l.

Definition collect_arcs (msp : list Entity) : list ArcInfo.t :=
  flat_map (fun entity =>
              if String.eqb (dxftype entity) "ARC" then
                match _extract_arc_info entity with
                | Some arc_info => [arc_info]
                | None => []
                end
              else []) msp.

(** The registry [self.bases]: a dict in insertion order. *)
Definition Bases : Type := list (string * BaseInfo.t).

Fixpoint dict_get {V : Type} (k : string) (d : list (string * V)) : option V :=
  match d with
  | [] => None
  | (k', v) :: d' => if String.eqb k k' then Some v else dict_get k d'
  end.

Fixpoint dict_set {V : Type} (k : string) (v : V) (d : list (string * V))
  : list (string * V) :=
  match d with
  | [] => [(k, v)]
  | (k', v') :: d' =>
      if String.eqb k k' then (k, v) :: d' else (k', v') :: dict_set k v d'
  end.

Definition dict_keys {V : Type} (d : list (string * V)) : list string := map fst d.

Section Analyzer.

(** [ezdxf.readfile] on the files of the folder; [None] when it raises. *)
Variable readfile : string -> option (list Entity).
Variable curve_extents : Entity -> option Extents.

Definition _analyze_base_file (file_name : string) : analysis BaseInfo.t :=
  korpus_number <-- _extract_korpus_number file_name ;;
  match readfile file_name with
  | None => Failed (ReadError file_name)
  | Some msp =>
      match sort_by_radius (collect_arcs msp) with
      | arc1 :: arc2 :: _ => Found (BaseInfo.mk file_name korpus_number arc1 arc2)
      | _ => Failed (InsufficientArcs file_name)
      end
  end.

(** [analyze_folder]; [base_files] is the result of the two [glob] calls. *)
Definition analyze_folder (base_files : list string) : analysis Bases :=
  match base_files with
  | [] => Failed NoBaseFiles
  | _ =>
      let bases :=
        fold_left (fun bases base_file =>
                     match _analyze_base_file base_file with
                     | Found base_info =>
                         dict_set (BaseInfo.korpus_number base_info) base_info bases
                     | Failed _ => bases
                     end) base_files [] in
      match bases with
      | [] => Failed NoReferencesFound
      | _ => Found bases
      end
  end.

Definition match_radius_to_base (bases : Bases) (radius_file : string)
  (current_length : Q) : analysis RadiusFileInfo.t :=
  let filename := radius_file in
  let is_outer := contains "Внешний" filename || contains "внешний" filename in
  korpus_number <-- _extract_korpus_number filename ;;
  match dict_get korpus_number bases with
  | None =>
      let available := String.concat ", " (dict_keys bases) in
      Failed (UnknownAssembly korpus_number available)
  | Some base_info =>
      let target_length :=
        if is_outer then BaseInfo.outer_radius_length base_info
        else BaseInfo.inner_radius_length base_info in
      Found (RadiusFileInfo.mk radius_file korpus_number is_outer current_length
                               target_length base_info 0)
  end.

(** ** Width Checker *)

Fixpoint insert_by_name (s : string) (l : list string) : list string :=
  match l with
  | [] => [s]
  | t :: l' => if String.leb s t then s :: t :: l' else t :: insert_by_name s l'
  end.

Definition sorted_names (l : list string) : list string := fold_right insert_by_name [] l.

(** [Path.stem]: the name without its last suffix. *)
Fixpoint drop_suffix_rev (r : string) : string :=
  match r with
  | EmptyString => EmptyString
  | String "."%char rest => rest
  | String _ rest => drop_suffix_rev rest
  end.

Definition stem (name : string) : string :=
  if contains "." name then string_rev (drop_suffix_rev (string_rev name)) else name.

(** [find_radius_files]; [listing] is the content of the folder. *)
Definition find_radius_files (listing : list string) : list string :=
  let glob p := filter (fun f => starts_with p f && ends_with ".dxf" f) listing in
  let keep f := negb (ends_with "_stretch" (stem f)) && negb (ends_with "_shrink" (stem f)) in
  sorted_names (filter keep (glob "Внешний радиус"%string)
                ++ filter keep (glob "Внутренний радиус"%string)).

(** The inner dict of [korpus_files]: the paths under the keys ["outer"] and
    ["inner"]. *)
Record Sides : Type := mkSides { outer : option string; inner : option string }.

Definition group_by_korpus (radius_files : list string) : list (string * Sides) :=
  fold_left (fun korpus_files file_path =>
               match _extract_korpus_number file_path with
               | Found korpus_num =>
                   let is_outer :=
                     contains "Внешний" file_path || contains "внешний" file_path in
                   let files :=
                     match dict_get korpus_num korpus_files with
                     | Some files => files
                     | None => mkSides None None
                     end in
                   dict_set korpus_num
                            (if is_outer then mkSides (Some file_path) (inner files)
                             else mkSides (outer files) (Some file_path))
                            korpus_files
               | Failed _ => korpus_files
               end) radius_files [].

(** [dxf_proc.load(str(path)).width_y] *)
Definition measure_width (path : string) : option Q :=
  match readfile path with
  | None => None
  | Some msp =>
      match fst (load curve_extents msp init) with
      | OK info => Some (width_y info)
      | Err _ => None
      end
  end.

(** The body of the second loop of [check_widths]; [None] when the [try]
    block raised and the korpus is skipped. *)
Definition check_korpus (tolerance : Q) (korpus_num : string) (files : Sides)
  : option WidthCheckResult.t :=
  let outer_file := outer files in
  let inner_file := inner files in
  let measure file :=
    match file with
    | Some path =>
        match measure_width path with
        | Some w => Some (Some w)
        | None => None
        end
    | None => Some None
    end in
  match measure outer_file with
  | None => None
  | Some outer_width =>
      match measure inner_file with
      | None => None
      | Some inner_width =>
          let (width_diff, needs_adjustment) :=
            match outer_width, inner_width with
            | Some ow, Some iw =>
                let width_diff := ow - iw in
                (width_diff, Qltb tolerance (Qabs width_diff))
            | _, _ => (0, false)
            end in
          Some (WidthCheckResult.mk korpus_num outer_file inner_file
                                    outer_width inner_width width_diff needs_adjustment)
      end
  end.

Definition check_widths (listing : list string) (tolerance : Q)
  : list WidthCheckResult.t :=
  let radius_files := find_radius_files listing in
  let korpus_files := group_by_korpus radius_files in
  flat_map (fun korpus_num =>
              match dict_get korpus_num korpus_files with
              | Some files =>
                  match check_korpus tolerance korpus_num files with
                  | Some result => [result]
                  | None => []
                  end
              | None => []
              end) (sorted_names (dict_keys korpus_files)).

Definition default_tolerance : Q := 1 # 10.

End Analyzer.

(** ** Output of a stretch *)

(** The path [stretch] saves to when no [save_path] is given:
    [self.last_path.with_name(f"{self.last_path.stem}_stretch.dxf")]. *)
Definition stretch_output (last_path : string) : string :=
  (stem last_path ++ "_stretch.dxf")%string.

(** * Vocabulary of the properties *)

(** Sums over a zone sequence. *)
Fixpoint total (f : Zone -> Q) (zones : list Zone) : Q :=
  match zones with
  | [] => 0
  | z :: rest => f z + total f rest
  end.

Definition stretch_part (z : Zone) : Q :=
  if is_stretch (zone_type z) then Zone_length z else 0.

Definition fixed_part (z : Zone) : Q :=
  if is_stretch (zone_type z) then 0 else Zone_length z.

(** [chained a zones b]: the zones tile [a, b] from left to right, each
    starting where the previous one ends. *)
Fixpoint chained (a : Q) (zones : list Zone) (b : Q) : Prop :=
  match zones with
  | [] => a == b
  | z :: rest => start_old z == a /\ start_old z <= end_old z /\ chained (end_old z) rest b
  end.

(** No two adjacent zones carry the same tag. *)
Fixpoint alternating (zones : list Zone) : Prop :=
  match zones with
  | z :: rest =>
      match rest with
      | z' :: _ => zone_type z <> zone_type z'
      | [] => True
      end /\ alternating rest
  | [] => True
  end.

(** The invariant of an ordered zone sequence over [axis_min, axis_max]. *)
Definition zone_sequence (axis_min axis_max : Q) (zones : list Zone) : Prop :=
  zones <> [] /\ chained axis_min zones axis_max /\ alternating zones.

(** Intervals inside [lo, hi], each non-empty. *)
Definition within (lo hi : Q) (iv : Q * Q) : Prop :=
  lo <= fst iv /\ fst iv < snd iv /\ snd iv <= hi.

(** Starts in non-decreasing order, none below [lo]. *)
Fixpoint sorted_from (lo : Q) (l : list (Q * Q)) : Prop :=
  match l with
  | [] => True
  | iv :: rest => lo <= fst iv /\ sorted_from (fst iv) rest
  end.

(** Intervals separated by proper gaps, the first one strictly after
    [prev_end]. *)
Fixpoint gaps (prev_end : Q) (l : list (Q * Q)) (hi : Q) : Prop :=
  match l with
  | [] => True
  | iv :: rest =>
      prev_end < fst iv /\ fst iv < snd iv /\ snd iv <= hi /\ gaps (snd iv) rest hi
  end.

Definition first_type (zones : list Zone) : option ZoneType :=
  match zones with
  | z :: _ => Some (zone_type z)
  | [] => None
  end.

Fixpoint last_type (zones : list Zone) : option ZoneType :=
  match zones with
  | [] => None
  | [z] => Some (zone_type z)
  | _ :: rest => last_type rest
  end.

(** The new-domain intervals start at [a] and each one starts where the
    previous one ends. *)
Fixpoint contiguous_new (a : Q) (mapping : list MappingSegment) : Prop :=
  match mapping with
  | [] => True
  | seg :: rest => start_new seg = a /\ contiguous_new (end_new seg) rest
  end.

Fixpoint sum_new_lengths (mapping : list MappingSegment) : Q :=
  match mapping with
  | [] => 0
  | seg :: rest => (end_new seg - start_new seg) + sum_new_lengths rest
  end.

(** The new length the Mapping Builder is specified to give a zone. *)
Definition specified_length (stretch_total delta : Q) (zone : Zone) : Q :=
  match zone_type zone with
  | Fixed => Zone_length zone
  | Stretch => Zone_length zone + delta * (Zone_length zone / stretch_total)
  end.

(** The drawing after [_apply_anchor_shift], given the translation it
    computed ([None]: the method returned early). *)
Definition shifted (axis : Axis) (shift : option Q) (msp : list Entity) : list Entity :=
  match shift with
  | Some d => map (try_transform axis d) msp
  | None => msp
  end.

(** Entity kinds that [_apply_mapping] sends to [_map_generic]. *)
Definition is_generic (entity : Entity) : bool :=
  negb (mem (dxftype entity)
            ["LINE"; "LWPOLYLINE"; "POLYLINE"; "SPLINE"; "CIRCLE"; "ARC"; "POINT"]%string).

Definition vec_equiv (a b : Vec3) : Prop :=
  vx a == vx b /\ vy a == vy b /\ vz a == vz b.

(** Same entity up to the value of the coordinates of an opaque kind. *)
Definition same_entity (e e' : Entity) : Prop :=
  match e, e' with
  | ELLIPSE c m r, ELLIPSE c' m' r' => vec_equiv c c' /\ m = m' /\ r = r'
  | OTHER n p t, OTHER n' p' t' => n = n' /\ vec_equiv p p' /\ t = t'
  | _, _ => e = e'
  end.

(** [c'] is [c] up to the coordinate on [axis]. *)
Definition moved_along (axis : Axis) (c c' : option Vec3) : Prop :=
  match c, c' with
  | Some v, Some v' => set_coord axis v' (coord axis v) = v
  | None, None => True
  | _, _ => False
  end.

(** A circle or an arc keeps its radius and angles; its centre moves along
    [axis] only. *)
Definition rigid_preserved (axis : Axis) (e e' : Entity) : Prop :=
  match e with
  | CIRCLE c r => exists c', e' = CIRCLE c' r /\ moved_along axis c c'
  | ARC c r a b => exists c', e' = ARC c' r a b /\ moved_along axis c c'
  | _ => True
  end.

(** The translation that the Anchor Re-positioner ends up applying. *)
Definition applied_shift (shift : option Q) : Q :=
  match shift with Some d => d | None => 0 end.

(** A vertex whose coordinate on [axis] was remapped to [c']. *)
Definition remapped (mapping : list MappingSegment) (axis : Axis) (v v' : Vertex) : Prop :=
  exists c c', vertex_coord axis v = Some c /\ _map_value c mapping = OK c' /\
               v' = set_vertex_coord axis v c'.

(** A vertex on which [_map_polyline] raises. *)
Definition raises_on (mapping : list MappingSegment) (axis : Axis) (v : Vertex) : Prop :=
  match vertex_coord axis v with
  | None => True
  | Some c => exists err, _map_value c mapping = Err err
  end.

(** ** Example drawings *)

(** No curved entity has a box: used where a drawing has none. *)
Definition no_curves : Entity -> option Extents := fun _ => None.

Definition at_ (x y : Q) : option Vec3 := Some (mkVec3 x y 0).

(** A straight edge from 0 to 1 followed by a hole of radius 1 centred
    at 2: a stretch zone [0, 1] and a fixed zone [1, 3]. *)
Definition plate : list Entity := [LINE (at_ 0 0) (at_ 1 0); CIRCLE (at_ 2 0) 1].

(** A polyline whose second vertex has lost its [x]. *)
Definition broken_polyline : Entity :=
  LWPOLYLINE [mkVertex (Some 1) (Some 0) (Some 0); mkVertex None (Some 0) (Some 0)].

(** The angular span of an arc in radians: the end angle gains a full turn
    when it lies before the start angle. *)
Definition angular_span (start_angle end_angle : Q) : Q :=
  if Qltb (radians end_angle) (radians start_angle)
  then radians end_angle + 2 * math_pi - radians start_angle
  else radians end_angle - radians start_angle.

(** Every arc of the record carries radius * span as its length. *)
Definition arc_measured (a : ArcInfo.t) : Prop :=
  ArcInfo.arc_length a
  == ArcInfo.radius a * angular_span (ArcInfo.start_angle a) (ArcInfo.end_angle a).

Definition base_measured (b : BaseInfo.t) : Prop :=
  arc_measured (BaseInfo.arc1 b) /\ arc_measured (BaseInfo.arc2 b).

(** The side token of a work-drawing name. *)
Definition outer_side (filename : string) : bool :=
  contains "Внешний" filename || contains "внешний" filename.

(** A reference drawing with an arc of radius 50 over 0..180 degrees and one
    of radius 30 over 0..170 degrees. *)
Definition reference_name : string := "Основание Г1.корп1 - 1шт.dxf".

Definition reference_folder (name : string) : option (list Entity) :=
  if String.eqb name reference_name
  then Some [ARC (at_ 0 0) 30 0 170; ARC (at_ 0 0) 50 0 180]
  else None.

(** The two arcs kept by the analysis are measured arcs, the outer one not
    smaller than the inner one. *)
Definition reference_record (b : BaseInfo.t) : Prop :=
  base_measured b /\
  ArcInfo.radius (BaseInfo.arc2 b) <= ArcInfo.radius (BaseInfo.arc1 b).

Fixpoint descending (l : list ArcInfo.t) : Prop :=
  match l with
  | a :: rest =>
      match rest with
      | b :: _ => ArcInfo.radius b <= ArcInfo.radius a
      | [] => True
      end /\ descending rest
  | [] => True
  end.

(** The zone sequence and the processor state of the plate. *)
Definition plate_zones : list Zone := [mkZone 0 1 Stretch; mkZone 1 3 Fixed].

Definition plate_loaded : DxfProcessor := snd (load no_curves plate init).

Definition plate_mapping : list MappingSegment :=
  build_segments (stretch_total plate_zones) (4 - (3 - 0)) 0 plate_zones.

(** Work drawings of one assembly, 120.1 and 120 wide. *)
Definition outer_name : string := "Внешний радиус Г1.корп1.dxf".
Definition inner_name : string := "Внутренний радиус Г1.корп1.dxf".

Definition work_folder (name : string) : option (list Entity) :=
  if String.eqb name outer_name then Some [LINE (at_ 0 0) (at_ 300 (1201 # 10))]
  else if String.eqb name inner_name then Some [LINE (at_ 0 0) (at_ 200 120)]
  else None.

(** The registry and the record of the reference folder. *)
Definition reference_bases : Bases :=
  match analyze_folder reference_folder [reference_name] with
  | Found bases => bases
  | Failed _ => []
  end.

Definition reference_base : BaseInfo.t :=
  BaseInfo.mk reference_name "корп1"
    (ArcInfo.mk 50 (50 * (radians 180 - radians 0)) (0, 0) 0 180)
    (ArcInfo.mk 30 (30 * (radians 170 - radians 0)) (0, 0) 0 170).

(** ** The mapping as a monotone piecewise-linear function *)

(** The factor by which a segment scales old lengths. *)
Definition slope (k : Q) (seg : MappingSegment) : Q :=
  if is_stretch (zone_type seg) then k else 1.

(** [laid_out k a a' segs]: the segments follow each other from [a] in the
    old domain and from [a'] in the new one; each is longer than the
    tolerance of the Coordinate Mapper and scales by its slope. *)
Fixpoint laid_out (k a a' : Q) (segs : list MappingSegment) : Prop :=
  match segs with
  | [] => True
  | seg :: rest =>
      start_old seg == a /\ start_new seg == a' /\
      eps9 < end_old seg - start_old seg /\
      end_new seg - start_new seg == slope k seg * (end_old seg - start_old seg) /\
      laid_out k (end_old seg) (end_new seg) rest
  end.

Fixpoint old_end (a : Q) (segs : list MappingSegment) : Q :=
  match segs with
  | [] => a
  | seg :: rest => old_end (end_old seg) rest
  end.

Fixpoint new_end (a' : Q) (segs : list MappingSegment) : Q :=
  match segs with
  | [] => a'
  | seg :: rest => new_end (end_new seg) rest
  end.

(** [value] lies just after the start of the zone, within the tolerance of
    the Coordinate Mapper, where the previous segment is still the one
    found. *)
Definition near_start (z : Zone) (value : Q) : Prop :=
  start_old z < value /\ value <= start_old z + eps9.

(** [value] is not within the tolerance after any interior zone boundary. *)
Definition clear_of (zones : list Zone) (value : Q) : Prop :=
  Forall (fun z => ~ near_start z value) (tl zones).

(** What the pipeline needs of a mapping of [a, b] onto [a', b']: clear
    values are mapped monotonically into [a', b'], the ends onto the ends,
    and every fixed zone is translated as a block. *)
Definition maps_onto (mapping : list MappingSegment) (zones : list Zone)
  (a b a' b' : Q) : Prop :=
  forall v,
    a <= v -> v <= b -> clear_of zones v ->
    exists r,
      _map_value v mapping = OK r /\
      a' <= r /\ r <= b' /\
      (v == a -> r == a') /\
      (v == b -> r == b') /\
      forall z,
        In z zones -> zone_type z = Fixed ->
        start_old z <= v -> v <= end_old z ->
        exists s',
          r == s' + (v - start_old z) /\
          a' <= s' /\ s' + (end_old z - start_old z) <= b' /\
          (start_old z == a -> s' == a') /\
          (end_old z == b -> s' + (end_old z - start_old z) == b').

(** ** Drawings of straight entities and circles *)

(** A polyline vertex with both coordinates and no curvature. *)
Definition straight_vertex (v : Vertex) : bool :=
  match vertex_x v, vertex_y v with
  | Some _, Some _ => negb (is_curved v)
  | _, _ => false
  end.

(** Lines and points with their coordinates, polylines of straight
    vertices, circles with a centre and a positive radius: the entities
    whose box is elementary. *)
Definition simple_entity (entity : Entity) : Prop :=
  match entity with
  | LINE (Some _) (Some _) => True
  | POINT (Some _) => True
  | CIRCLE (Some _) r => 0 < r
  | LWPOLYLINE vs | POLYLINE vs => vs <> [] /\ forallb straight_vertex vs = true
  | _ => False
  end.

Definition vertex_coordinates (axis : Axis) (vs : list Vertex) : list Q :=
  flat_map (fun v => match vertex_coord axis v with
                     | Some c => [c]
                     | None => []
                     end) vs.

(** The coordinates that the Geometry Transformer remaps. *)
Definition mapped_coordinates (axis : Axis) (entity : Entity) : list Q :=
  match entity with
  | LINE (Some s) (Some e) => [coord axis s; coord axis e]
  | POINT (Some l) => [coord axis l]
  | CIRCLE (Some c) _ => [coord axis c]
  | LWPOLYLINE vs | POLYLINE vs => vertex_coordinates axis vs
  | _ => []
  end.

(** One interval lies inside the other. *)
Definition inside (iv outer : Q * Q) : Prop :=
  fst outer <= fst iv /\ snd iv <= snd outer.

(** How the box [iv'] of a transformed entity relates to its box [iv]
    before: it lies in [a', b'] and touches an end of [a', b'] when [iv]
    touched that end of [a, b]. *)
Definition carried (a b a' b' : Q) (iv iv' : Q * Q) : Prop :=
  a' <= fst iv' /\ snd iv' <= b' /\
  (fst iv == a -> fst iv' == a') /\
  (snd iv == b -> snd iv' == b').

(** The entity after the mapping and the anchor shift. *)
Definition final_entity (mapping : list MappingSegment) (axis : Axis)
  (shift : option Q) (entity : Entity) : Entity :=
  let mapped := snd (map_entity entity mapping axis) in
  match shift with
  | Some d => try_transform axis d mapped
  | None => mapped
  end.

(** The hull of two intervals, as [union_extents] computes it on one axis. *)
Definition hull (iv1 iv2 : Q * Q) : Q * Q :=
  (pymin (fst iv1) (fst iv2), pymax (snd iv1) (snd iv2)).

(** The union of the boxes of a list, as [bbox.extents] forms it. *)
Definition hull_of {A : Type} (box : A -> option Extents) (l : list A) : option Extents :=
  fold_right (fun x acc => union_opt (box x) acc) None l.

(** A vertex after the mapping and the anchor shift. *)
Definition mapped_vertex (mapping : list MappingSegment) (axis : Axis) (v : Vertex)
  : Vertex :=
  match vertex_coord axis v with
  | Some c =>
      match _map_value c mapping with
      | OK r => set_vertex_coord axis v r
      | Err _ => v
      end
  | None => v
  end.

Definition shifted_vertex (axis : Axis) (shift : option Q) (v : Vertex) : Vertex :=
  match shift, vertex_coord axis v with
  | Some d, Some c => set_vertex_coord axis v (c + d)
  | _, _ => v
  end.

(** The box of an ellipse whose major axis lies along X. *)
Definition ellipse_extents (entity : Entity) : option Extents :=
  match entity with
  | ELLIPSE c m r =>
      Some (mkExtents (vx c - vx m) (vx c + vx m) (vy c - r * vx m) (vy c + r * vx m))
  | _ => None
  end.

(** The plate with an ellipse in place of the hole. *)
Definition plate_with_ellipse : list Entity :=
  [LINE (at_ 0 0) (at_ 1 0); ELLIPSE (mkVec3 2 0 0) (mkVec3 1 0 0) (1 # 2)].

(** A hole over [0, 3] and a point 1e-10 to its right: the stretch zone is
    shorter than the tolerance of the Coordinate Mapper. *)
Definition hole_and_point : list Entity :=
  [CIRCLE (at_ (3 # 2) 0) (3 # 2); POINT (at_ (3 + (1 # 10000000000)) 0)].

(** ** What a stretch along one axis cannot touch *)

(** An entity with its coordinates on [axis] blanked out: what is left is
    everything a stretch along [axis] has no business changing. *)
Definition erase_vec (axis : Axis) (v : Vec3) : Vec3 := set_coord axis v 0.

Definition erase_vertex (axis : Axis) (v : Vertex) : Vertex :=
  match axis with
  | X => mkVertex None (vertex_y v) (bulge v)
  | Y => mkVertex (vertex_x v) None (bulge v)
  end.

Definition erase_point3 (axis : Axis) (point : list Q) : list Q :=
  match point with
  | [x; y; z] => match axis with X => [0; y; z] | Y => [x; 0; z] end
  | _ => point
  end.

Definition erase (axis : Axis) (entity : Entity) : Entity :=
  match entity with
  | LINE s e => LINE (option_map (erase_vec axis) s) (option_map (erase_vec axis) e)
  | LWPOLYLINE vs => LWPOLYLINE (map (erase_vertex axis) vs)
  | POLYLINE vs => POLYLINE (map (erase_vertex axis) vs)
  | SPLINE ctrl fit knots =>
      SPLINE (option_map (map (erase_point3 axis)) ctrl)
             (option_map (map (erase_point3 axis)) fit) knots
  | CIRCLE c r => CIRCLE (option_map (erase_vec axis) c) r
  | ARC c r a b => ARC (option_map (erase_vec axis) c) r a b
  | POINT l => POINT (option_map (erase_vec axis) l)
  | ELLIPSE c m r => ELLIPSE (erase_vec axis c) m r
  | OTHER n p t => OTHER n (erase_vec axis p) t
  end.

(** ** Polylines the Segmenter treats as rigid *)

(** A vertex that carries a bulge not larger than 1e-6 in size. *)
Definition flat_vertex (v : Vertex) : Prop :=
  exists b, bulge v = Some b /\ Qabs b <= eps6.

(** The vertex list reaches a vertex with a bulge larger than 1e-6 through
    flat vertices only: no vertex before it lacks the attribute. *)
Definition curved_before_stop (vs : list Vertex) : Prop :=
  exists pre v post b,
    vs = pre ++ v :: post /\ Forall flat_vertex pre /\
    bulge v = Some b /\ eps6 < Qabs b.

(** ** Assembly identifiers *)


(** ** The registry of reference records *)

(** The record a folder analysis should hold for the assembly [k]: that of
    the last base file whose analysis succeeded with that identifier. *)
Definition latest_record (analyze : string -> analysis BaseInfo.t) (k : string)
  (base_files : list string) : option BaseInfo.t :=
  fold_left (fun found base_file =>
               match analyze base_file with
               | Found base_info =>
                   if String.eqb k (BaseInfo.korpus_number base_info)
                   then Some base_info else found
               | Failed _ => found
               end) base_files None.

(** The body of the loop of [analyze_folder]. *)
Definition register (readfile : string -> option (list Entity)) (bases : Bases)
  (base_file : string) : Bases :=
  match _analyze_base_file readfile base_file with
  | Found base_info => dict_set (BaseInfo.korpus_number base_info) base_info bases
  | Failed _ => bases
  end.

(** ** Work drawings *)


(** A work drawing of either side that is not the output of an earlier
    run. *)
Definition radius_file (f : string) : Prop :=
  (starts_with "Внешний радиус" f = true \/ starts_with "Внутренний радиус" f = true) /\
  ends_with ".dxf" f = true /\
  ends_with "_stretch" (stem f) = false /\
  ends_with "_shrink" (stem f) = false.

(** The files of one assembly as [check_widths] groups them: each side
    holds a work drawing of the folder listing whose name carries the
    identifier [k] and the token of that side. *)
Definition grouped (radius_files : list string) (k : string) (files : Sides) : Prop :=
  (forall f, outer files = Some f ->
             In f radius_files /\ _extract_korpus_number f = Found k /\
             outer_side f = true) /\
  (forall f, inner files = Some f ->
             In f radius_files /\ _extract_korpus_number f = Found k /\
             outer_side f = false) /\
  (outer files <> None \/ inner files <> None).

(** * Properties *)

(** ** Comparisons, [max], [min] *)

Lemma Qltb_lt (x y : Q) : Qltb x y = true <-> x < y.
Proof.
  unfold Qltb. rewrite negb_true_iff. split; intro H.
  - apply Qnot_le_lt. intro L. apply Qle_bool_iff in L. congruence.
  - destruct (Qle_bool y x) eqn:E; [|reflexivity].
    apply Qle_bool_iff in E. lra.
Qed.

Lemma Qltb_ge (x y : Q) : Qltb x y = false <-> y <= x.
Proof.
  unfold Qltb. rewrite negb_false_iff. apply Qle_bool_iff.
Qed.

Lemma Qle_bool_gt (x y : Q) : Qle_bool x y = false <-> y < x.
Proof.
  rewrite <- Qltb_lt. unfold Qltb. now rewrite negb_true_iff.
Qed.

Lemma Qeq_bool_false (x y : Q) : Qeq_bool x y = false <-> ~ x == y.
Proof.
  split; intro H.
  - now apply Qeq_bool_neq.
  - destruct (Qeq_bool x y) eqn:E; [|reflexivity].
    apply Qeq_bool_iff in E. contradiction.
Qed.

(** Turns every boolean comparison of the context into its proposition. *)
Ltac qprop :=
  repeat match goal with
  | H : Qltb _ _ = true |- _ => apply Qltb_lt in H
  | H : Qltb _ _ = false |- _ => apply Qltb_ge in H
  | H : Qle_bool _ _ = true |- _ => apply Qle_bool_iff in H
  | H : Qle_bool _ _ = false |- _ => apply Qle_bool_gt in H
  | H : Qeq_bool _ _ = true |- _ => apply Qeq_bool_iff in H
  | H : Qeq_bool _ _ = false |- _ => apply Qeq_bool_false in H
  end.

(** Case analysis on the first comparison left in the goal. *)
Ltac qcase :=
  match goal with
  | |- context [Qltb ?a ?b] => destruct (Qltb a b) eqn:?
  | |- context [Qle_bool ?a ?b] => destruct (Qle_bool a b) eqn:?
  | |- context [Qeq_bool ?a ?b] => destruct (Qeq_bool a b) eqn:?
  end; qprop.

(** Linear arithmetic knowing the two tolerances. *)
Ltac qlra := unfold eps9, eps6 in *; lra.

Lemma pymax_spec (a b : Q) : (a < b /\ pymax a b = b) \/ (b <= a /\ pymax a b = a).
Proof. unfold pymax. qcase; auto. Qed.

Lemma pymin_spec (a b : Q) : (b < a /\ pymin a b = b) \/ (a <= b /\ pymin a b = a).
Proof. unfold pymin. qcase; auto. Qed.

Lemma pymax_l (a b : Q) : a <= pymax a b.
Proof. destruct (pymax_spec a b) as [[? ->]|[? ->]]; lra. Qed.

Lemma pymax_r (a b : Q) : b <= pymax a b.
Proof. destruct (pymax_spec a b) as [[? ->]|[? ->]]; lra. Qed.

Lemma pymin_l (a b : Q) : pymin a b <= a.
Proof. destruct (pymin_spec a b) as [[? ->]|[? ->]]; lra. Qed.

Lemma pymin_r (a b : Q) : pymin a b <= b.
Proof. destruct (pymin_spec a b) as [[? ->]|[? ->]]; lra. Qed.

Lemma Zone_length_nonneg (z : Zone) : 0 <= Zone_length z.
Proof. apply pymax_l. Qed.

Lemma Zone_length_eq (z : Zone) :
  start_old z <= end_old z -> Zone_length z == end_old z - start_old z.
Proof.
  intro H. unfold Zone_length.
  destruct (pymax_spec 0 (end_old z - start_old z)) as [[? ->]|[? ->]]; lra.
Qed.

Lemma Qabs_lt_iff (x e : Q) : Qabs x < e <-> - e < x /\ x < e.
Proof. apply Qabs_Qlt_condition. Qed.

Lemma Qabs_gt_iff (x e : Q) : e < Qabs x <-> x < - e \/ e < x.
Proof.
  split.
  - intro H. destruct (Qlt_le_dec x (- e)) as [L|L]; [now left|].
    destruct (Qlt_le_dec e x) as [G|G]; [now right|].
    assert (Qabs x <= e) by (apply Qabs_Qle_condition; split; lra). lra.
  - intro H. apply Qnot_le_lt. intro L.
    apply Qabs_Qle_condition in L. lra.
Qed.

(** ** Sums of zone lengths *)

Lemma fold_left_sum (f : Zone -> Q) (l : list Zone) (a : Q) :
  fold_left (fun acc z => acc + f z) l a == a + total f l.
Proof.
  revert a. induction l as [|z l IH]; intro a; simpl.
  - lra.
  - rewrite IH. lra.
Qed.

Lemma total_filter_stretch (zones : list Zone) :
  total Zone_length (filter (fun z => is_stretch (zone_type z)) zones)
  == total stretch_part zones.
Proof.
  induction zones as [|z zones IH]; simpl; [reflexivity|].
  unfold stretch_part at 1. destruct (is_stretch (zone_type z)); simpl; rewrite IH; lra.
Qed.

Lemma stretch_total_sum (zones : list Zone) :
  stretch_total zones == total stretch_part zones.
Proof.
  unfold stretch_total. rewrite fold_left_sum, total_filter_stretch. lra.
Qed.

Lemma total_stretch_part_nonneg (zones : list Zone) : 0 <= total stretch_part zones.
Proof.
  induction zones as [|z zones IH]; simpl; [lra|].
  assert (0 <= stretch_part z).
  { unfold stretch_part. destruct (is_stretch _); [apply Zone_length_nonneg|lra]. }
  lra.
Qed.

Lemma stretch_total_nonneg (zones : list Zone) : 0 <= stretch_total zones.
Proof. rewrite stretch_total_sum. apply total_stretch_part_nonneg. Qed.

(** ** Zone Segmenter *)

Lemma within_clip (lo hi : Q) (iv : Q * Q) :
  Forall (within lo hi) (clip_interval lo hi iv).
Proof.
  unfold clip_interval. qcase; constructor; [|constructor].
  unfold within; simpl. split; [apply pymax_l|]. split; [assumption|apply pymin_l].
Qed.

Lemma Forall_insert_by_start (P : Q * Q -> Prop) (iv : Q * Q) (l : list (Q * Q)) :
  P iv -> Forall P l -> Forall P (insert_by_start iv l).
Proof.
  intros Hiv Hl. induction Hl as [|x l Hx Hl IH]; simpl.
  - constructor; auto.
  - destruct (Qle_bool (fst iv) (fst x)); repeat constructor; auto.
Qed.

Lemma Forall_sort_by_start (P : Q * Q -> Prop) (l : list (Q * Q)) :
  Forall P l -> Forall P (sort_by_start l).
Proof.
  induction 1 as [|x l Hx Hl IH]; simpl; [constructor|].
  now apply Forall_insert_by_start.
Qed.

Lemma sorted_from_weaken (lo lo' : Q) (l : list (Q * Q)) :
  lo' <= lo -> sorted_from lo l -> sorted_from lo' l.
Proof.
  destruct l as [|iv l]; simpl; [auto|]. intros H [H1 H2]. split; [lra|assumption].
Qed.

Lemma sorted_insert_by_start (lo : Q) (iv : Q * Q) (l : list (Q * Q)) :
  lo <= fst iv -> sorted_from lo l -> sorted_from lo (insert_by_start iv l).
Proof.
  revert lo. induction l as [|x l IH]; intros lo Hiv Hl; simpl in *.
  - auto.
  - destruct Hl as [Hx Hl]. qcase; simpl.
    + repeat split; auto.
    + split; [assumption|]. apply IH; [lra|assumption].
Qed.

Lemma sorted_sort_by_start (lo : Q) (l : list (Q * Q)) :
  Forall (fun iv => lo <= fst iv) l -> sorted_from lo (sort_by_start l).
Proof.
  induction 1 as [|x l Hx Hl IH]; simpl; [exact I|].
  now apply sorted_insert_by_start.
Qed.

Lemma merge_from_gaps (hi : Q) (rest : list (Q * Q)) :
  forall s e : Q,
    s < e -> e <= hi ->
    sorted_from s rest -> Forall (fun iv => fst iv < snd iv /\ snd iv <= hi) rest ->
    exists e' more,
      merge_from (s, e) rest = (s, e') :: more /\ e <= e' /\ e' <= hi /\ gaps e' more hi.
Proof.
  induction rest as [|[s1 e1] rest IH]; intros s e Hse Hhi Hsorted Hall; simpl.
  - exists e, []. repeat split; auto; lra.
  - simpl in Hsorted. destruct Hsorted as [Hs1 Hsorted].
    inversion Hall as [|? ? [H1 H1'] Hall']; subst. simpl in H1, H1'.
    qcase.
    + destruct (IH s1 e1 H1 H1' Hsorted Hall') as (e' & more & -> & He & Hhi' & Hg).
      exists e, ((s1, e') :: more). simpl. repeat split; auto; lra.
    + assert (Hm : e <= pymax e e1 /\ pymax e e1 <= hi).
      { destruct (pymax_spec e e1) as [[? ->]|[? ->]]; lra. }
      destruct (IH s (pymax e e1)) as (e' & more & -> & He & Hhi' & Hg);
        try lra; auto.
      * apply sorted_from_weaken with s1; assumption.
      * exists e', more. repeat split; auto; lra.
Qed.

Lemma gaps_proper (c c' hi : Q) (l : list (Q * Q)) :
  c == c' -> gaps c l hi -> gaps c' l hi.
Proof.
  destruct l as [|iv l]; simpl; [auto|]. intros E (H1 & H2). split; [lra|assumption].
Qed.

Lemma chained_proper (a a' b : Q) (zones : list Zone) :
  a == a' -> chained a zones b -> chained a' zones b.
Proof.
  destruct zones as [|z zones]; simpl; intros E H.
  - lra.
  - destruct H as (H1 & H2). split; [lra|assumption].
Qed.

Lemma chained_le (a b : Q) (zones : list Zone) : chained a zones b -> a <= b.
Proof.
  revert a. induction zones as [|z zones IH]; simpl; intros a H.
  - lra.
  - destruct H as (H1 & H2 & H3). apply IH in H3. lra.
Qed.

Lemma chained_app (a b c : Q) (l1 l2 : list Zone) :
  chained a l1 b -> chained b l2 c -> chained a (l1 ++ l2) c.
Proof.
  revert a. induction l1 as [|z l1 IH]; simpl; intros a H1 H2.
  - apply chained_proper with b; [lra|assumption].
  - destruct H1 as (? & ? & ?). repeat split; auto.
Qed.

Lemma alternating_app (l1 l2 : list Zone) :
  alternating l1 -> alternating l2 ->
  (forall t1 t2, last_type l1 = Some t1 -> first_type l2 = Some t2 -> t1 <> t2) ->
  alternating (l1 ++ l2).
Proof.
  induction l1 as [|z l1 IH]; intros H1 H2 H; [assumption|].
  destruct l1 as [|z' l1].
  - simpl. split; [|assumption].
    destruct l2 as [|y l2]; [exact I|]. apply H; reflexivity.
  - destruct H1 as [Hz H1]. split; [exact Hz|].
    apply IH; auto.
Qed.

Lemma last_type_app (l : list Zone) (z : Zone) :
  last_type (l ++ [z]) = Some (zone_type z).
Proof.
  induction l as [|y l IH]; [reflexivity|].
  simpl. destruct (l ++ [z]) eqn:E; [destruct l; discriminate|]. exact IH.
Qed.

Lemma walk_zones_gaps (hi : Q) (merged : list (Q * Q)) :
  forall cursor : Q,
    gaps cursor merged hi -> cursor <= hi ->
    let (zones, final) := walk_zones cursor merged in
    chained cursor zones final /\ alternating zones /\ final <= hi /\
    first_type zones <> Some Fixed /\ last_type zones <> Some Stretch.
Proof.
  induction merged as [|[s e] rest IH]; intros cursor Hg Hc; simpl.
  - split; [lra|]. split; [exact I|]. split; [lra|]. split; discriminate.
  - simpl in Hg. destruct Hg as (Hcs & Hse & Hhi & Hg).
    assert (Hmax : pymax cursor e == e).
    { destruct (pymax_spec cursor e) as [[? ->]|[? ->]]; lra. }
    assert (Hc' : pymax cursor e <= hi) by lra.
    specialize (IH (pymax cursor e) (gaps_proper _ _ _ _ (Qeq_sym _ _ Hmax) Hg) Hc').
    destruct (walk_zones (pymax cursor e) rest) as [zones final].
    destruct IH as (Hch & Halt & Hle & Hfirst & Hlast).
    destruct (Qltb cursor s) eqn:E; qprop; [|lra]. simpl.
    split; [|split; [|split; [|split]]].
    + split; [lra|]. split; [lra|]. split; [lra|]. split; [lra|].
      apply chained_proper with (pymax cursor e); assumption.
    + split; [discriminate|]. split; [|assumption].
      destruct zones as [|z zones]; [exact I|].
      simpl in Hfirst. destruct (zone_type z); [discriminate|congruence].
    + assumption.
    + discriminate.
    + destruct zones as [|z zones]; [discriminate|exact Hlast].
Qed.

Lemma walk_zones_first (hi : Q) (s e cursor : Q) (rest : list (Q * Q)) :
  cursor <= s -> s < e -> e <= hi -> gaps e rest hi ->
  let (zones, final) := walk_zones cursor ((s, e) :: rest) in
  chained cursor zones final /\ alternating zones /\ final <= hi /\
  zones <> [] /\ last_type zones <> Some Stretch.
Proof.
  intros Hcs Hse Hhi Hg. simpl.
  assert (Hmax : pymax cursor e == e).
  { destruct (pymax_spec cursor e) as [[? ->]|[? ->]]; lra. }
  assert (Hc' : pymax cursor e <= hi) by lra.
  pose proof (walk_zones_gaps hi rest (pymax cursor e)
                (gaps_proper _ _ _ _ (Qeq_sym _ _ Hmax) Hg) Hc') as IH.
  destruct (walk_zones (pymax cursor e) rest) as [zones final].
  destruct IH as (Hch & Halt & Hle & Hfirst & Hlast).
  assert (Hfix : chained s (mkZone s e Fixed :: zones) final /\
                 alternating (mkZone s e Fixed :: zones) /\
                 last_type (mkZone s e Fixed :: zones) <> Some Stretch).
  { split; [|split].
    - split; [simpl; lra|]. split; [simpl; lra|].
      apply chained_proper with (pymax cursor e); assumption.
    - split; [|assumption].
      destruct zones as [|z zones]; [exact I|].
      simpl in Hfirst. simpl. destruct (zone_type z); [discriminate|congruence].
    - destruct zones as [|z zones]; [discriminate|exact Hlast]. }
  destruct Hfix as (Hf1 & Hf2 & Hf3).
  destruct (Qltb cursor s) eqn:E; qprop; simpl app.
  - split; [|split; [|split; [|split]]]; try assumption; try discriminate.
    + split; [simpl; lra|]. split; [simpl; lra|]. exact Hf1.
    + split; [discriminate|exact Hf2].
  - split; [|split; [|split; [|split]]]; try assumption; try discriminate.
    apply chained_proper with s; [lra|exact Hf1].
Qed.

Lemma chained_proper_r (a b b' : Q) (zones : list Zone) :
  b == b' -> chained a zones b -> chained a zones b'.
Proof.
  revert a. induction zones as [|z zones IH]; simpl; intros a E H.
  - lra.
  - destruct H as (H1 & H2 & H3). split; [assumption|]. split; [assumption|].
    now apply IH.
Qed.

Lemma zones_of_no_intervals (axis_min axis_max : Q) :
  zones_of_intervals axis_min axis_max [] = [mkZone axis_min axis_max Stretch].
Proof.
  unfold zones_of_intervals. simpl. destruct (Qltb axis_min axis_max); reflexivity.
Qed.

Lemma zones_of_intervals_sequence (axis_min axis_max : Q) (intervals : list (Q * Q)) :
  axis_min <= axis_max ->
  Forall (within axis_min axis_max) intervals ->
  zone_sequence axis_min axis_max (zones_of_intervals axis_min axis_max intervals).
Proof.
  intros Hle Hall. unfold zones_of_intervals.
  assert (Hs1 : Forall (within axis_min axis_max) (sort_by_start intervals))
    by now apply Forall_sort_by_start.
  assert (Hs2 : sorted_from axis_min (sort_by_start intervals)).
  { apply sorted_sort_by_start. eapply Forall_impl; [|exact Hall].
    intros iv H. apply H. }
  destruct (sort_by_start intervals) as [|[s e] rest].
  - simpl. assert (E : zone_sequence axis_min axis_max [mkZone axis_min axis_max Stretch]).
    { split; [discriminate|]. split; [|split; exact I]. simpl.
      split; [lra|]. split; [lra|]. lra. }
    destruct (Qltb axis_min axis_max); exact E.
  - inversion Hs1 as [|? ? (Hw1 & Hw2 & Hw3) Hrest]; subst. simpl in Hw1, Hw2, Hw3.
    destruct Hs2 as [_ Hs2]. simpl in Hs2.
    destruct (merge_from_gaps axis_max rest s e Hw2 Hw3 Hs2) as (e' & more & Hm & He & Hhi & Hg).
    { eapply Forall_impl; [|exact Hrest]. intros iv H. split; apply H. }
    unfold merge_intervals. rewrite Hm.
    assert (Hse' : s < e') by lra.
    pose proof (walk_zones_first axis_max s e' axis_min more Hw1 Hse' Hhi Hg) as W.
    destruct (walk_zones axis_min ((s, e') :: more)) as [zones final].
    destruct W as (Hch & Halt & Hfin & Hne & Hlast).
    destruct (Qltb final axis_max) eqn:E; qprop.
    + assert (Z : zone_sequence axis_min axis_max (zones ++ [mkZone final axis_max Stretch])).
      { split; [destruct zones; discriminate|]. split.
        - apply chained_app with final; [assumption|].
          simpl. split; [lra|]. split; [lra|]. lra.
        - apply alternating_app; [assumption|split; exact I|].
          intros t1 t2 H1 H2. simpl in H2. injection H2 as <-. congruence. }
      destruct (zones ++ [mkZone final axis_max Stretch]) eqn:Ez; [|exact Z].
      destruct zones; discriminate.
    + destruct zones as [|z zones]; [congruence|].
      split; [discriminate|]. split; [|assumption].
      apply chained_proper_r with final; [lra|assumption].
Qed.

Section SegmenterProperties.

Variable curve_extents : Entity -> option Extents.

Lemma fixed_intervals_within (msp : list Entity) (axis : Axis) (lo hi : Q) :
  Forall (within lo hi) (fixed_intervals curve_extents msp axis lo hi).
Proof.
  unfold fixed_intervals. induction msp as [|e msp IH]; simpl; [constructor|].
  apply Forall_app. split; [|exact IH].
  destruct (_is_fixed_entity e); [|constructor].
  destruct (_entity_interval curve_extents e axis); [apply within_clip|constructor].
Qed.

Lemma fixed_intervals_none (msp : list Entity) (axis : Axis) (lo hi : Q) :
  (forall e, In e msp -> _is_fixed_entity e = false) ->
  fixed_intervals curve_extents msp axis lo hi = [].
Proof.
  unfold fixed_intervals. induction msp as [|e msp IH]; intro H; simpl; [reflexivity|].
  rewrite (H e (or_introl eq_refl)). simpl. apply IH.
  intros e' He'. apply H. now right.
Qed.

Lemma load_ok (msp : list Entity) (p0 p : DxfProcessor) (info : DxfInfo) :
  load curve_extents msp p0 = (OK info, p) ->
  exists ext,
    extents_of curve_extents msp = Some ext /\
    p = mkProcessor (Some msp) (Some ext) cache_clear /\
    width_y info = size_y ext /\ length_x info = size_x ext.
Proof.
  unfold load, bindM, get_self, put_self, raise, ret. simpl.
  destruct (extents_of curve_extents msp) as [ext|]; [|discriminate].
  intro H. injection H as <- <-. exists ext. repeat split.
Qed.

(** C4.  On a freshly loaded drawing the Zone Segmenter returns a zone
    sequence that tiles exactly [axis_min, axis_max] without gaps, in which
    no two adjacent zones carry the same tag; without any fixed entity it
    is the single stretch zone over the whole range. *)
Theorem get_zones_sequence (msp : list Entity) (p0 p : DxfProcessor) (info : DxfInfo)
  (axis : Axis) (ext : Extents) (axis_min axis_max : Q) :
  load curve_extents msp p0 = (OK info, p) ->
  extents p = Some ext ->
  axis_interval axis ext = (axis_min, axis_max) ->
  axis_min <= axis_max ->
  exists zones p',
    _get_zones curve_extents axis p = (OK zones, p') /\
    zone_sequence axis_min axis_max zones /\
    ((forall e, In e msp -> _is_fixed_entity e = false) ->
     zones = [mkZone axis_min axis_max Stretch]).
Proof.
  intros Hload Hext Hint Hle.
  destruct (load_ok _ _ _ _ Hload) as (ext' & _ & -> & _).
  simpl in Hext. injection Hext as ->.
  unfold _get_zones, _get_axis_bounds, modelspace, bindM, get_self, put_self, lift, ret.
  cbn -[axis_interval compute_zones cache_get cache_set].
  assert (cache_get cache_clear axis = None) as -> by (destruct axis; reflexivity).
  cbn -[axis_interval compute_zones cache_set]. rewrite Hint.
  eexists. eexists. split; [reflexivity|].
  unfold compute_zones.
  assert ((if Qltb axis_max axis_min then axis_min else axis_max) = axis_max) as ->.
  { destruct (Qltb axis_max axis_min) eqn:E; qprop; [lra|reflexivity]. }
  split.
  - apply zones_of_intervals_sequence; [assumption|apply fixed_intervals_within].
  - intro Hnone. rewrite fixed_intervals_none by assumption.
    apply zones_of_no_intervals.
Qed.

End SegmenterProperties.

(** ** Mapping Builder *)

Lemma build_segments_zones (st delta : Q) (zones : list Zone) :
  forall current_new, map seg_zone (build_segments st delta current_new zones) = zones.
Proof.
  induction zones as [|z zones IH]; intro cn; simpl; [reflexivity|].
  now rewrite IH.
Qed.

Lemma build_segments_contiguous (st delta : Q) (zones : list Zone) :
  forall current_new, contiguous_new current_new (build_segments st delta current_new zones).
Proof.
  induction zones as [|z zones IH]; intro cn; simpl; [exact I|].
  split; [reflexivity|apply IH].
Qed.

Lemma build_segments_lengths (st delta : Q) (zones : list Zone) :
  forall current_new,
    Forall (fun seg => end_new seg - start_new seg == new_length st delta seg)
           (build_segments st delta current_new zones).
Proof.
  induction zones as [|z zones IH]; intro cn; simpl; constructor.
  - simpl. lra.
  - apply IH.
Qed.

Lemma build_segments_sum (st delta : Q) (zones : list Zone) :
  forall current_new,
    sum_new_lengths (build_segments st delta current_new zones)
    == total (new_length st delta) zones.
Proof.
  induction zones as [|z zones IH]; intro cn; simpl; [reflexivity|].
  rewrite IH. lra.
Qed.

Lemma new_length_specified (st delta : Q) (zone : Zone) :
  0 < st -> new_length st delta zone = specified_length st delta zone.
Proof.
  intro H. unfold new_length, specified_length.
  apply Qltb_lt in H. rewrite H. destruct (zone_type zone); reflexivity.
Qed.

Lemma new_length_fixed (st delta : Q) (zone : Zone) :
  zone_type zone = Fixed -> new_length st delta zone = Zone_length zone.
Proof.
  intro H. unfold new_length. now rewrite H.
Qed.

Lemma total_new_length (st delta : Q) (zones : list Zone) :
  0 < st ->
  total (new_length st delta) zones
  == total Zone_length zones + delta * (total stretch_part zones / st).
Proof.
  intro H. induction zones as [|z zones IH]; simpl.
  - field. lra.
  - rewrite IH. rewrite (new_length_specified _ _ _ H).
    unfold specified_length, stretch_part.
    destruct (zone_type z); simpl; field; lra.
Qed.

Lemma total_length_chained (a b : Q) (zones : list Zone) :
  chained a zones b -> total Zone_length zones == b - a.
Proof.
  revert a. induction zones as [|z zones IH]; simpl; intros a H.
  - lra.
  - destruct H as (H1 & H2 & H3). rewrite (IH _ H3), (Zone_length_eq _ H2). lra.
Qed.

Lemma build_segments_total (axis_min axis_max target : Q) (zones : list Zone) :
  chained axis_min zones axis_max -> 0 < stretch_total zones ->
  sum_new_lengths
    (build_segments (stretch_total zones) (target - (axis_max - axis_min)) axis_min zones)
  == target.
Proof.
  intros Hch Hst.
  rewrite build_segments_sum, (total_new_length _ _ _ Hst).
  rewrite (total_length_chained _ _ _ Hch), <- stretch_total_sum.
  field. lra.
Qed.

Lemma build_mapping_on_ok (bounds : Q * Q) (zones : list Zone) (target : Q) :
  ~ (stretch_total zones <= 0 /\ eps9 < Qabs (target - (snd bounds - fst bounds))) ->
  build_mapping_on bounds zones target
  = OK (build_segments (stretch_total zones) (target - (snd bounds - fst bounds))
                       (fst bounds) zones).
Proof.
  intro H. unfold build_mapping_on. destruct bounds as [axis_min axis_max]. simpl in *.
  destruct (Qltb eps9 _) eqn:E1; [|reflexivity].
  destruct (Qle_bool _ 0) eqn:E2; [|reflexivity].
  qprop. exfalso. apply H. split; assumption.
Qed.

Lemma build_mapping_on_fails (bounds : Q * Q) (zones : list Zone) (target : Q) :
  stretch_total zones <= 0 -> eps9 < Qabs (target - (snd bounds - fst bounds)) ->
  build_mapping_on bounds zones target = Err NoElasticRegion.
Proof.
  intros H1 H2. unfold build_mapping_on. destruct bounds as [axis_min axis_max]. simpl in *.
  apply Qltb_lt in H2. apply Qle_bool_iff in H1. now rewrite H1, H2.
Qed.

(** C3.  For a zone sequence over [axis_min, axis_max] with a positive
    stretch total, the Mapping Builder succeeds; every fixed zone keeps its
    length and every stretch zone gets its length plus its share
    delta * (length / stretch_total); the new intervals are accumulated from
    [axis_min] without gaps; the new lengths add up to the target length
    (hence within 1e-6 of it). *)
Theorem build_mapping_segments (axis_min axis_max target_length : Q) (zones : list Zone) :
  zone_sequence axis_min axis_max zones ->
  0 < stretch_total zones ->
  exists mapping,
    build_mapping_on (axis_min, axis_max) zones target_length = OK mapping /\
    map seg_zone mapping = zones /\
    Forall (fun seg =>
              end_new seg - start_new seg
              == specified_length (stretch_total zones)
                                  (target_length - (axis_max - axis_min)) seg) mapping /\
    contiguous_new axis_min mapping /\
    sum_new_lengths mapping == target_length /\
    Qabs (sum_new_lengths mapping - target_length) < eps6.
Proof.
  intros (Hne & Hch & Halt) Hst.
  rewrite build_mapping_on_ok by (cbn [fst snd]; intros [H _]; lra). cbn [fst snd].
  eexists. split; [reflexivity|].
  split; [apply build_segments_zones|].
  split.
  { eapply Forall_impl; [|apply build_segments_lengths].
    intros seg H. simpl in H. rewrite H.
    now rewrite (new_length_specified _ _ _ Hst). }
  split; [apply build_segments_contiguous|].
  pose proof (build_segments_total axis_min axis_max target_length zones Hch Hst) as S.
  split; [exact S|].
  apply Qabs_lt_iff. unfold eps6. split; lra.
Qed.

Lemma Qltb_irrefl (a : Q) : Qltb a a = false.
Proof. apply Qltb_ge. lra. Qed.

Lemma single_fixed_zone (a b : Q) :
  a < b -> zones_of_intervals a b (clip_interval a b (a, b)) = [mkZone a b Fixed].
Proof.
  intro H. apply Qltb_lt in H.
  unfold clip_interval, pymax, pymin. cbn [fst snd].
  rewrite !Qltb_irrefl, H.
  unfold zones_of_intervals. cbn -[Qltb pymax].
  rewrite !Qltb_irrefl. unfold pymax. rewrite H, Qltb_irrefl. reflexivity.
Qed.

Lemma stretch_total_single_fixed (a b : Q) : stretch_total [mkZone a b Fixed] = 0.
Proof. reflexivity. Qed.

(** ** Running the methods on an explicit processor state *)

Section Runs.

Variable curve_extents : Entity -> option Extents.

Lemma get_zones_fresh (msp : list Entity) (ext : Extents) (cache : ZoneCache)
  (axis : Axis) :
  cache_get cache axis = None ->
  _get_zones curve_extents axis (mkProcessor (Some msp) (Some ext) cache)
  = (OK (compute_zones curve_extents msp axis (axis_interval axis ext)),
     mkProcessor (Some msp) (Some ext)
       (cache_set cache axis
          (compute_zones curve_extents msp axis (axis_interval axis ext)))).
Proof.
  intro H. unfold _get_zones, bindM, get_self. cbn [zone_cache]. rewrite H. reflexivity.
Qed.

Lemma get_zones_cached (p : DxfProcessor) (axis : Axis) (z : Zone) (zs : list Zone) :
  cache_get (zone_cache p) axis = Some (z :: zs) ->
  _get_zones curve_extents axis p = (OK (z :: zs), p).
Proof.
  intro H. unfold _get_zones, bindM, get_self. rewrite H. reflexivity.
Qed.

Lemma build_mapping_run (doc : option (list Entity)) (ext : Extents) (cache : ZoneCache)
  (zones : list Zone) (axis : Axis) (target : Q) :
  _build_mapping zones axis target (mkProcessor doc (Some ext) cache)
  = (build_mapping_on (axis_interval axis ext) zones target,
     mkProcessor doc (Some ext) cache).
Proof. reflexivity. Qed.

Lemma apply_mapping_run (msp : list Entity) (ext : option Extents) (cache : ZoneCache)
  (mapping : list MappingSegment) (axis : Axis) :
  _apply_mapping mapping axis (mkProcessor (Some msp) ext cache)
  = (OK tt, mkProcessor (Some (apply_mapping_doc mapping axis msp)) ext cache).
Proof. reflexivity. Qed.

Lemma apply_anchor_shift_run (msp : list Entity) (ext : Extents) (cache : ZoneCache)
  (mapping : list MappingSegment) (axis : Axis) (anchor : string) :
  _apply_anchor_shift mapping axis anchor (mkProcessor (Some msp) (Some ext) cache)
  = match anchor_shift (axis_interval axis ext) mapping anchor with
    | Err e => (Err e, mkProcessor (Some msp) (Some ext) cache)
    | OK None => (OK tt, mkProcessor (Some msp) (Some ext) cache)
    | OK (Some shift) =>
        (OK tt, mkProcessor (Some (map (try_transform axis shift) msp)) (Some ext) cache)
    end.
Proof.
  unfold _apply_anchor_shift. unfold bindM at 1.
  change (_get_axis_bounds axis (mkProcessor (Some msp) (Some ext) cache))
    with (OK (axis_interval axis ext), mkProcessor (Some msp) (Some ext) cache).
  cbv beta iota. unfold bindM at 1, lift.
  destruct (anchor_shift (axis_interval axis ext) mapping anchor) as [[shift|]|e];
    reflexivity.
Qed.

Lemma stretch_run (msp : list Entity) (ext : Extents) (cache : ZoneCache)
  (target : Q) (axis : Axis) (anchor : string) :
  cache_get cache axis = None ->
  let p := mkProcessor (Some msp) (Some ext) cache in
  let bounds := axis_interval axis ext in
  let zones := compute_zones curve_extents msp axis bounds in
  let cache' := cache_set cache axis zones in
  stretch curve_extents target axis anchor p
  = if Qeq_bool (axis_size axis ext) 0 then (Err DegenerateAxis, p)
    else if Qeq_bool (axis_size axis ext) target then (OK None, p)
    else
      match build_mapping_on bounds zones target with
      | Err e => (Err e, mkProcessor (Some msp) (Some ext) cache')
      | OK mapping =>
          let msp1 := apply_mapping_doc mapping axis msp in
          match anchor_shift bounds mapping anchor with
          | Err e => (Err e, mkProcessor (Some msp1) (Some ext) cache')
          | OK shift =>
              (OK (Some (shifted axis shift msp1)),
               mkProcessor (Some (shifted axis shift msp1)) (Some ext) cache')
          end
      end.
Proof.
  intros H p bounds zones cache'. unfold stretch.
  unfold bindM at 1. unfold get_self at 1. subst p. cbn [last_doc extents].
  destruct (Qeq_bool (axis_size axis ext) 0); [reflexivity|].
  destruct (Qeq_bool (axis_size axis ext) target); [reflexivity|].
  unfold bindM at 1. rewrite (get_zones_fresh _ _ _ _ H).
  unfold bindM at 1. rewrite build_mapping_run. fold bounds zones cache'.
  destruct (build_mapping_on bounds zones target) as [mapping|e]; [|reflexivity].
  unfold bindM at 1. rewrite apply_mapping_run.
  unfold bindM at 1. rewrite apply_anchor_shift_run. fold bounds.
  destruct (anchor_shift bounds mapping anchor) as [[shift|]|e]; reflexivity.
Qed.

Lemma load_run (msp : list Entity) (p0 : DxfProcessor) :
  load curve_extents msp p0
  = match extents_of curve_extents msp with
    | Some ext =>
        (OK (mkInfo (size_x ext) (size_y ext) (List.length msp)
                    (extmin_x ext) (extmax_x ext) (extmin_y ext) (extmax_y ext)),
         mkProcessor (Some msp) (Some ext) cache_clear)
    | None => (Err GeometryLoadError, mkProcessor (Some msp) (extents p0) (zone_cache p0))
    end.
Proof.
  unfold load, bindM, get_self, put_self, raise, ret.
  destruct (extents_of curve_extents msp); reflexivity.
Qed.

Lemma cache_clear_get (axis : Axis) : cache_get cache_clear axis = None.
Proof. destruct axis; reflexivity. Qed.

End Runs.

Section MappingProperties.

Variable curve_extents : Entity -> option Extents.

Lemma circle_interval (c : Vec3) (r : Q) (axis : Axis) :
  axis_interval axis (mkExtents (vx c - r) (vx c + r) (vy c - r) (vy c + r))
  = (coord axis c - r, coord axis c + r).
Proof. destruct axis; reflexivity. Qed.

(** C2.  The Mapping Builder raises NoElasticRegion exactly when the stretch
    total is not positive and the required change exceeds 1e-9, and returns
    a mapping otherwise; in particular a drawing that is one circle, asked
    for a length that differs from its diameter by more than 1e-9, makes
    [stretch] fail with NoElasticRegion and leaves the circle as it was. *)
Theorem no_elastic_region :
  (forall (bounds : Q * Q) (zones : list Zone) (target_length : Q),
      build_mapping_on bounds zones target_length = Err NoElasticRegion <->
      stretch_total zones <= 0 /\
      eps9 < Qabs (target_length - (snd bounds - fst bounds))) /\
  (forall (bounds : Q * Q) (zones : list Zone) (target_length : Q),
      (exists mapping, build_mapping_on bounds zones target_length = OK mapping) <->
      ~ (stretch_total zones <= 0 /\
         eps9 < Qabs (target_length - (snd bounds - fst bounds)))) /\
  (forall (c : Vec3) (r target_length : Q) (axis : Axis) (anchor : string)
          (p0 : DxfProcessor),
      0 < r ->
      eps9 < Qabs (target_length - 2 * r) ->
      let run := bindM (load curve_extents [CIRCLE (Some c) r])
                       (fun _ => stretch curve_extents target_length axis anchor) p0 in
      fst run = Err NoElasticRegion /\
      last_doc (snd run) = Some [CIRCLE (Some c) r]).
Proof.
  split; [|split].
  - intros bounds zones target. split.
    + intro H.
      destruct (Qlt_le_dec 0 (stretch_total zones)) as [L|L].
      * rewrite build_mapping_on_ok in H by (intros [? _]; lra). discriminate.
      * destruct (Qlt_le_dec eps9 (Qabs (target - (snd bounds - fst bounds)))) as [G|G].
        -- split; assumption.
        -- rewrite build_mapping_on_ok in H by (intros [_ ?]; lra). discriminate.
    + intros [H1 H2]. now apply build_mapping_on_fails.
  - intros bounds zones target. split.
    + intros [mapping H] [H1 H2].
      rewrite (build_mapping_on_fails _ _ _ H1 H2) in H. discriminate.
    + intro H. eexists. now apply build_mapping_on_ok.
  - intros c r target axis anchor p0 Hr Htarget run.
    set (a := coord axis c - r). set (b := coord axis c + r).
    assert (Hab : a < b) by (unfold a, b; lra).
    assert (Hsize : axis_size axis (mkExtents (vx c - r) (vx c + r) (vy c - r) (vy c + r))
                    == 2 * r).
    { destruct axis; unfold axis_size, size_x, size_y; cbn; lra. }
    assert (Hdelta : eps9 < Qabs (target - (b - a))).
    { apply Qabs_gt_iff. apply Qabs_gt_iff in Htarget. unfold a, b. lra. }
    assert (Hnz : Qeq_bool (axis_size axis
                (mkExtents (vx c - r) (vx c + r) (vy c - r) (vy c + r))) 0 = false).
    { apply Qeq_bool_false. rewrite Hsize. lra. }
    assert (Hnt : Qeq_bool (axis_size axis
                (mkExtents (vx c - r) (vx c + r) (vy c - r) (vy c + r))) target = false).
    { apply Qeq_bool_false. rewrite Hsize. intro E.
      apply Qabs_gt_iff in Htarget. unfold eps9 in Htarget. lra. }
    assert (Hzones : compute_zones curve_extents [CIRCLE (Some c) r] axis (a, b)
                     = [mkZone a b Fixed]).
    { unfold compute_zones.
      assert ((if Qltb b a then a else b) = b) as ->.
      { destruct (Qltb b a) eqn:E; qprop; [lra|reflexivity]. }
      unfold fixed_intervals, _entity_interval. cbn [flat_map entity_extents].
      assert (_is_fixed_entity (CIRCLE (Some c) r) = true) as -> by reflexivity.
      rewrite circle_interval, app_nil_r. now apply single_fixed_zone. }
    assert (E : exists p, run = (Err NoElasticRegion, p) /\
                          last_doc p = Some [CIRCLE (Some c) r]).
    { subst run. unfold bindM at 1. rewrite load_run.
      cbn [extents_of fold_right entity_extents union_opt].
      rewrite stretch_run by apply cache_clear_get.
      rewrite Hnz, Hnt, circle_interval. fold a b. rewrite Hzones.
      rewrite build_mapping_on_fails; [| |exact Hdelta].
      - eexists. split; reflexivity.
      - rewrite stretch_total_single_fixed. lra. }
    destruct E as (p & -> & E). split; [reflexivity|exact E].
Qed.

End MappingProperties.

(** ** Coordinate Mapper: totality *)

Lemma map_value_total (value : Q) (mapping : list MappingSegment) :
  mapping <> [] -> exists v, _map_value value mapping = OK v.
Proof.
  intro H. unfold _map_value.
  destruct (find_segment value mapping) as [v|]; [now exists v|].
  destruct (rev mapping) as [|last l] eqn:E.
  - apply (f_equal (@rev _)) in E. rewrite rev_involutive in E. now contradiction H.
  - eexists. reflexivity.
Qed.

(** ** Generic fallback *)

Lemma translate_vec_zero (axis : Axis) (d : Q) (v : Vec3) :
  d == 0 -> vec_equiv (translate_vec axis d v) v.
Proof.
  intro H. destruct v as [x y z]. destruct axis; unfold vec_equiv; cbn; repeat split; lra.
Qed.

Lemma vec_equiv_refl (v : Vec3) : vec_equiv v v.
Proof. unfold vec_equiv. repeat split; reflexivity. Qed.

Lemma same_entity_refl (e : Entity) : same_entity e e.
Proof.
  destruct e; cbn; try reflexivity; (split; [|split]); try reflexivity;
    apply vec_equiv_refl.
Qed.

Lemma translate_vec_equiv (axis : Axis) (d : Q) (v v' : Vec3) :
  vec_equiv v v' -> vec_equiv (translate_vec axis d v) (translate_vec axis d v').
Proof.
  intros (H1 & H2 & H3). destruct v, v'. cbn in *.
  destruct axis; unfold vec_equiv; cbn; repeat split; lra.
Qed.

Lemma is_generic_cases (e : Entity) :
  is_generic e = true ->
  (exists c m r, e = ELLIPSE c m r) \/
  (exists n p t, e = OTHER n p t /\ is_generic (OTHER n p t) = true).
Proof.
  destruct e; intro H; try (vm_compute in H; discriminate).
  - left. do 3 eexists. reflexivity.
  - right. do 3 eexists. split; [reflexivity|exact H].
Qed.

Lemma map_entity_generic (e : Entity) (mapping : list MappingSegment) (axis : Axis) :
  is_generic e = true -> map_entity e mapping axis = _map_generic e mapping axis.
Proof.
  intro H. destruct (is_generic_cases e H) as [(c & m & r & ->)|(n & p & t & -> & H')].
  - reflexivity.
  - unfold is_generic, mem in H'. cbn [dxftype existsb] in H'.
    apply negb_true_iff in H'.
    repeat (apply orb_false_iff in H'; destruct H' as [? H']).
    unfold map_entity, mem. cbn [dxftype existsb].
    repeat match goal with E : String.eqb _ _ = false |- _ => rewrite E; clear E end.
    reflexivity.
Qed.

Lemma try_transform_zero (axis : Axis) (d : Q) (e : Entity) :
  is_generic e = true -> d == 0 -> same_entity (try_transform axis d e) e.
Proof.
  intros H Hd. destruct (is_generic_cases e H) as [(c & m & r & ->)|(n & p & [] & -> & _)];
    cbn; (split; [|split]); try reflexivity; try (now apply translate_vec_zero);
    apply vec_equiv_refl.
Qed.

Lemma try_transform_same (axis : Axis) (d : Q) (e e' : Entity) :
  is_generic e = true -> same_entity e' e ->
  same_entity (try_transform axis d e') (try_transform axis d e).
Proof.
  intros H S. destruct (is_generic_cases e H) as [(c & m & r & ->)|(n & p & t & -> & _)].
  - destruct e'; cbn in S; try discriminate. destruct S as (S1 & -> & ->).
    cbn. split; [now apply translate_vec_equiv|split; reflexivity].
  - destruct e'; cbn in S; try discriminate. destruct S as (-> & S1 & ->).
    destruct t; cbn; (split; [reflexivity|split; [|reflexivity]]);
      [now apply translate_vec_equiv|assumption].
Qed.

Lemma build_segments_first (st delta cn : Q) (z : Zone) (zones : list Zone) :
  exists first rest,
    build_segments st delta cn (z :: zones) = first :: rest /\
    start_new first = cn /\ start_old first = start_old z.
Proof. simpl. eexists. eexists. repeat split. Qed.

Lemma build_mapping_on_inv (bounds : Q * Q) (zones : list Zone) (target : Q)
  (mapping : list MappingSegment) :
  build_mapping_on bounds zones target = OK mapping ->
  mapping = build_segments (stretch_total zones) (target - (snd bounds - fst bounds))
                           (fst bounds) zones.
Proof.
  unfold build_mapping_on. destruct bounds as [axis_min axis_max]. cbn [fst snd].
  destruct (_ && _); [discriminate|]. intro H. now injection H as <-.
Qed.

(** C10.  In a mapping built from a zone sequence over
    [axis_min, axis_max] the first segment starts at [axis_min] in both
    domains, so the offset used by the fallback for unrecognised entity
    kinds is zero: the mapping step leaves every such entity where it was,
    and what it becomes after the pipeline is the anchor shift applied to
    the original entity. *)
Theorem generic_fallback_is_identity (axis_min axis_max target_length : Q)
  (zones : list Zone) (mapping : list MappingSegment) (axis : Axis) :
  zone_sequence axis_min axis_max zones ->
  build_mapping_on (axis_min, axis_max) zones target_length = OK mapping ->
  exists first rest,
    mapping = first :: rest /\
    start_new first = axis_min /\
    start_old first == axis_min /\
    start_new first - start_old first == 0 /\
    forall entity,
      is_generic entity = true ->
      fst (map_entity entity mapping axis) = OK tt /\
      same_entity (snd (map_entity entity mapping axis)) entity /\
      forall shift,
        same_entity (try_transform axis shift (snd (map_entity entity mapping axis)))
                    (try_transform axis shift entity).
Proof.
  intros (Hne & Hch & _) Hb.
  destruct zones as [|z zones]; [now contradiction Hne|].
  apply build_mapping_on_inv in Hb. cbn [fst snd] in Hb. subst mapping.
  destruct (build_segments_first (stretch_total (z :: zones))
              (target_length - (axis_max - axis_min)) axis_min z zones)
    as (first & rest & -> & Hn & Ho).
  destruct Hch as (Hz & _).
  exists first, rest. split; [reflexivity|]. split; [exact Hn|].
  assert (Hold : start_old first == axis_min) by (rewrite Ho; exact Hz).
  split; [exact Hold|].
  assert (Hoff : start_new first - start_old first == 0) by (rewrite Hn; lra).
  split; [exact Hoff|].
  intros e He. rewrite (map_entity_generic _ _ _ He). cbn [_map_generic fst snd].
  split; [reflexivity|].
  assert (S : same_entity (try_transform axis (start_new first - start_old first) e) e)
    by now apply try_transform_zero.
  split; [exact S|]. intro shift. now apply try_transform_same.
Qed.

(** ** What a successful [stretch] returns *)

Section StretchResult.

Variable curve_extents : Entity -> option Extents.

Lemma get_zones_frame (msp : list Entity) (ext : Extents) (cache : ZoneCache)
  (axis : Axis) (zones : list Zone) (p1 : DxfProcessor) :
  _get_zones curve_extents axis (mkProcessor (Some msp) (Some ext) cache) = (OK zones, p1) ->
  exists cache', p1 = mkProcessor (Some msp) (Some ext) cache'.
Proof.
  unfold _get_zones, bindM, get_self. cbn [zone_cache].
  destruct (cache_get cache axis) as [[|z zs]|]; cbn; intro H; injection H as _ <-;
    eexists; reflexivity.
Qed.

Lemma stretch_result (p p' : DxfProcessor) (target : Q) (axis : Axis) (anchor : string)
  (msp' : list Entity) :
  stretch curve_extents target axis anchor p = (OK (Some msp'), p') ->
  exists msp ext zones mapping shift,
    last_doc p = Some msp /\ extents p = Some ext /\
    build_mapping_on (axis_interval axis ext) zones target = OK mapping /\
    anchor_shift (axis_interval axis ext) mapping anchor = OK shift /\
    msp' = shifted axis shift (apply_mapping_doc mapping axis msp) /\
    last_doc p' = Some msp'.
Proof.
  destruct p as [[msp|] [ext|] cache]; unfold stretch;
    unfold bindM at 1; unfold get_self at 1; cbn [last_doc extents];
    try (unfold raise; discriminate).
  destruct (Qeq_bool (axis_size axis ext) 0); [unfold raise; discriminate|].
  destruct (Qeq_bool (axis_size axis ext) target); [unfold ret; discriminate|].
  unfold bindM at 1.
  destruct (_get_zones curve_extents axis _) as [[zones|e] p1] eqn:Ez; [|discriminate].
  destruct (get_zones_frame _ _ _ _ _ _ Ez) as (cache' & ->).
  unfold bindM at 1. rewrite build_mapping_run.
  destruct (build_mapping_on (axis_interval axis ext) zones target) as [mapping|e] eqn:Eb;
    [|discriminate].
  unfold bindM at 1. rewrite apply_mapping_run.
  unfold bindM at 1. rewrite apply_anchor_shift_run.
  destruct (anchor_shift (axis_interval axis ext) mapping anchor) as [shift|e] eqn:Ea.
  - intro H. exists msp, ext, zones, mapping, shift.
    destruct shift as [d|]; cbn in H; injection H as <- <-; repeat split; auto.
  - discriminate.
Qed.

End StretchResult.

(** ** Rigid features *)

Lemma moved_along_set (axis : Axis) (v : Vec3) (c : Q) :
  moved_along axis (Some v) (Some (set_coord axis v c)).
Proof. destruct v, axis; reflexivity. Qed.

Lemma moved_along_refl (axis : Axis) (c : option Vec3) : moved_along axis c c.
Proof. destruct c as [[x y z]|]; [destruct axis; reflexivity|exact I]. Qed.

Lemma moved_along_trans (axis : Axis) (a b c : option Vec3) :
  moved_along axis a b -> moved_along axis b c -> moved_along axis a c.
Proof.
  destruct a as [[]|], b as [[]|], c as [[]|]; cbn; try contradiction; auto.
  destruct axis; cbn; intros H1 H2; injection H1 as <- <-; injection H2 as <- <-;
    reflexivity.
Qed.

Lemma rigid_preserved_trans (axis : Axis) (e1 e2 e3 : Entity) :
  rigid_preserved axis e1 e2 -> rigid_preserved axis e2 e3 -> rigid_preserved axis e1 e3.
Proof.
  destruct e1; cbn; auto.
  - intros (c2 & -> & H2). cbn. intros (c3 & -> & H3). exists c3.
    split; [reflexivity|]. now apply moved_along_trans with c2.
  - intros (c2 & -> & H2). cbn. intros (c3 & -> & H3). exists c3.
    split; [reflexivity|]. now apply moved_along_trans with c2.
Qed.

Lemma map_entity_rigid (e : Entity) (mapping : list MappingSegment) (axis : Axis) :
  rigid_preserved axis e (snd (map_entity e mapping axis)).
Proof.
  destruct e; try exact I.
  - unfold map_entity. cbn [dxftype mem existsb String.eqb Ascii.eqb Bool.eqb orb].
    cbn -[_map_value]. destruct center as [v|]; cbn -[_map_value].
    + unfold map_vec. destruct (_map_value (coord axis v) mapping); cbn.
      * eexists. split; [reflexivity|exact (moved_along_set axis _ _)].
      * eexists. split; [reflexivity|exact (moved_along_refl axis (Some _))].
    + eexists. split; [reflexivity|exact I].
  - unfold map_entity. cbn -[_map_value]. destruct center as [v|]; cbn -[_map_value].
    + unfold map_vec. destruct (_map_value (coord axis v) mapping); cbn.
      * eexists. split; [reflexivity|exact (moved_along_set axis _ _)].
      * eexists. split; [reflexivity|exact (moved_along_refl axis (Some _))].
    + eexists. split; [reflexivity|exact I].
Qed.

Lemma try_transform_rigid (axis : Axis) (d : Q) (e : Entity) :
  rigid_preserved axis e (try_transform axis d e).
Proof.
  destruct e; try exact I; unfold try_transform; cbn;
    (destruct center as [v|]; cbn;
     [eexists; split; [reflexivity|exact (moved_along_set axis _ _)]
     |eexists; split; [reflexivity|exact I]]).
Qed.

Lemma shifted_rigid (axis : Axis) (shift : option Q) (msp : list Entity) :
  Forall2 (rigid_preserved axis) msp (shifted axis shift msp).
Proof.
  destruct shift as [d|]; cbn.
  - induction msp; constructor; [apply try_transform_rigid|assumption].
  - induction msp as [|e msp IH]; constructor; [|assumption].
    destruct e; try exact I; eexists; (split; [reflexivity|apply moved_along_refl]).
Qed.

Lemma pipeline_rigid (axis : Axis) (shift : option Q) (mapping : list MappingSegment)
  (msp : list Entity) :
  Forall2 (rigid_preserved axis) msp
          (shifted axis shift (apply_mapping_doc mapping axis msp)).
Proof.
  destruct shift as [d|]; cbn; unfold apply_mapping_doc;
    induction msp as [|e msp IH]; cbn; constructor; try assumption.
  - eapply rigid_preserved_trans; [apply map_entity_rigid|apply try_transform_rigid].
  - apply map_entity_rigid.
Qed.

Lemma build_segments_fixed (st delta : Q) (zones : list Zone) :
  forall current_new seg,
    In seg (build_segments st delta current_new zones) ->
    zone_type seg = Fixed ->
    end_new seg - start_new seg == Zone_length seg.
Proof.
  intros cn seg Hin Hfix.
  pose proof (build_segments_lengths st delta zones cn) as H.
  rewrite Forall_forall in H. rewrite (H seg Hin).
  now rewrite new_length_fixed.
Qed.

Lemma rigid_preserved_refl (axis : Axis) (e : Entity) : rigid_preserved axis e e.
Proof.
  destruct e; try exact I; eexists; (split; [reflexivity|apply moved_along_refl]).
Qed.

Lemma Forall2_rigid_refl (axis : Axis) (msp : list Entity) :
  Forall2 (rigid_preserved axis) msp msp.
Proof. induction msp; constructor; [apply rigid_preserved_refl|assumption]. Qed.

Section BothAxes.

Variable curve_extents : Entity -> option Extents.

Lemma stretch_axis_result (p p' : DxfProcessor) (target : Q) (axis : Axis)
  (anchor : string) (msp : list Entity) :
  last_doc p = Some msp ->
  stretch_axis curve_extents target axis anchor p = (OK tt, p') ->
  exists mapping shift,
    last_doc p' = Some (shifted axis shift (apply_mapping_doc mapping axis msp)).
Proof.
  destruct p as [doc [ext|] cache]; cbn [last_doc]; intros ->; unfold stretch_axis.
  - unfold bindM at 1.
    destruct (_get_zones curve_extents axis _) as [[zones|e] p1] eqn:Ez; [|discriminate].
    destruct (get_zones_frame _ _ _ _ _ _ _ Ez) as (cache' & ->).
    unfold bindM at 1. rewrite build_mapping_run.
    destruct (build_mapping_on (axis_interval axis ext) zones target) as [mapping|e];
      [|discriminate].
    unfold bindM at 1. rewrite apply_mapping_run, apply_anchor_shift_run.
    destruct (anchor_shift (axis_interval axis ext) mapping anchor) as [[d|]|e];
      intro H; try discriminate; injection H as <-.
    + exists mapping, (Some d). reflexivity.
    + exists mapping, None. reflexivity.
  - unfold bindM at 1. unfold _get_zones, bindM, get_self. cbn [zone_cache].
    destruct (cache_get cache axis) as [[|z zs]|]; cbn; discriminate.
Qed.

Lemma stretch_both_axes_rigid (p p' : DxfProcessor) (tx ty : Q) (ax ay : string)
  (msp msp' : list Entity) :
  last_doc p = Some msp ->
  stretch_both_axes curve_extents tx ty ax ay p = (OK (Some msp'), p') ->
  exists mid,
    Forall2 (rigid_preserved X) msp mid /\ Forall2 (rigid_preserved Y) mid msp'.
Proof.
  intros Hdoc. unfold stretch_both_axes. unfold bindM at 1. unfold get_self at 1.
  rewrite Hdoc. destruct (extents p) as [ext|]; [|unfold raise; discriminate].
  destruct (negb _ && negb _); [unfold ret; discriminate|].
  assert (HX : forall p1 r,
             (if Qltb eps6 (Qabs (size_x ext - tx))
              then bindM (stretch_axis curve_extents tx X ax)
                     (fun _ => bindM get_self (fun self' =>
                        bindM modelspace (fun msp0 =>
                          put_self (mkProcessor (last_doc self')
                                      (extents_of curve_extents msp0)
                                      (zone_cache self')))))
              else ret tt) p = (OK r, p1) ->
             exists mid, last_doc p1 = Some mid /\ Forall2 (rigid_preserved X) msp mid).
  { intros p1 r. destruct (Qltb eps6 _).
    - unfold bindM at 1.
      destruct (stretch_axis curve_extents tx X ax p) as [[[]|e] p2] eqn:Es; [|discriminate].
      destruct (stretch_axis_result _ _ _ _ _ _ Hdoc Es) as (mapping & shift & Hd).
      unfold bindM, get_self, modelspace, lift, put_self. cbn. rewrite Hd. cbn.
      intro H. injection H as _ <-. eexists. split; [reflexivity|].
      apply pipeline_rigid.
    - unfold ret. intro H. injection H as _ <-. exists msp.
      split; [exact Hdoc|apply Forall2_rigid_refl]. }
  match goal with |- bindM ?m ?k p = _ -> _ => set (xphase := m) in * end.
  unfold bindM at 1.
  destruct (xphase p) as [[r|e] p1] eqn:E1; [|discriminate].
  destruct (HX p1 r eq_refl) as (mid & Hmid & Hrx).
  unfold bindM at 1.
  destruct (Qltb eps6 (Qabs (size_y ext - ty))).
  - destruct (stretch_axis curve_extents ty Y ay p1) as [[[]|e] p2] eqn:Es; [|discriminate].
    destruct (stretch_axis_result _ _ _ _ _ _ Hmid Es) as (mapping & shift & Hd).
    unfold bindM, modelspace, get_self, lift, ret. cbn. rewrite Hd. cbn.
    intro H. injection H as <- _. exists mid. split; [exact Hrx|apply pipeline_rigid].
  - unfold ret at 1. unfold bindM, modelspace, get_self, lift, ret. cbn. rewrite Hmid. cbn.
    intro H. injection H as <- _. exists mid. split; [exact Hrx|apply Forall2_rigid_refl].
Qed.

End BothAxes.

Section RigidFeatures.

Variable curve_extents : Entity -> option Extents.

(** C6.  The Mapping Builder gives a fixed zone the very value of its old
    length, and its new interval has that length; after any [stretch] every
    circle and arc of the drawing has the radius, start angle and end angle
    it had before, and its centre differs at most in the coordinate on the
    active axis; after [stretch_both_axes] the same holds axis by axis. *)
Theorem stretch_preserves_fixed_features :
  (forall (st delta : Q) (zone : Zone),
      zone_type zone = Fixed -> new_length st delta zone = Zone_length zone) /\
  (forall (bounds : Q * Q) (zones : list Zone) (target_length : Q)
          (mapping : list MappingSegment) (seg : MappingSegment),
      build_mapping_on bounds zones target_length = OK mapping ->
      In seg mapping -> zone_type seg = Fixed ->
      end_new seg - start_new seg == Zone_length seg) /\
  (forall (p p' : DxfProcessor) (target_length : Q) (axis : Axis) (anchor : string)
          (msp msp' : list Entity),
      last_doc p = Some msp ->
      stretch curve_extents target_length axis anchor p = (OK (Some msp'), p') ->
      Forall2 (rigid_preserved axis) msp msp') /\
  (forall (p p' : DxfProcessor) (target_length_x target_width_y : Q)
          (anchor_x anchor_y : string) (msp msp' : list Entity),
      last_doc p = Some msp ->
      stretch_both_axes curve_extents target_length_x target_width_y anchor_x anchor_y p
      = (OK (Some msp'), p') ->
      exists mid,
        Forall2 (rigid_preserved X) msp mid /\ Forall2 (rigid_preserved Y) mid msp').
Proof.
  split; [|split; [|split]].
  - intros st delta zone H. now apply new_length_fixed.
  - intros bounds zones target mapping seg Hb Hin Hfix.
    apply build_mapping_on_inv in Hb. subst mapping.
    eapply build_segments_fixed; eassumption.
  - intros p p' target axis anchor msp msp' Hdoc Hs.
    destruct (stretch_result curve_extents _ _ _ _ _ _ Hs)
      as (msp0 & ext & zones & mapping & shift & Hd & _ & _ & _ & -> & _).
    rewrite Hdoc in Hd. injection Hd as <-. apply pipeline_rigid.
  - intros p p' tx ty ax ay msp msp'. apply stretch_both_axes_rigid.
Qed.

End RigidFeatures.

(** ** Anchor Re-positioner *)

Lemma anchor_value_start (axis_min axis_max : Q) :
  anchor_value_of (axis_min, axis_max) "start" = axis_min.
Proof. reflexivity. Qed.

Lemma anchor_value_center (axis_min axis_max : Q) :
  anchor_value_of (axis_min, axis_max) "center" = (axis_min + axis_max) / 2.
Proof. reflexivity. Qed.

Lemma anchor_value_end (axis_min axis_max : Q) :
  anchor_value_of (axis_min, axis_max) "end" = axis_max.
Proof. reflexivity. Qed.


(** ** Geometry Transformer: failures *)

Lemma apply_mapping_doc_pointwise (mapping : list MappingSegment) (axis : Axis)
  (msp : list Entity) :
  Forall2 (fun e e' => e' = snd (map_entity e mapping axis)) msp
          (apply_mapping_doc mapping axis msp).
Proof.
  unfold apply_mapping_doc. induction msp; cbn; constructor; auto.
Qed.

Lemma map_vertices_failure (mapping : list MappingSegment) (axis : Axis)
  (vs : list Vertex) :
  forall err vs',
    map_vertices vs mapping axis = (Err err, vs') ->
    exists done done' failing rest,
      vs = done ++ failing :: rest /\ vs' = done' ++ failing :: rest /\
      Forall2 (remapped mapping axis) done done' /\ raises_on mapping axis failing.
Proof.
  induction vs as [|v vs IH]; intros err vs' H; cbn -[_map_value] in H; [discriminate|].
  destruct (vertex_coord axis v) as [c|] eqn:Ec; cbn -[_map_value] in H.
  - destruct (_map_value c mapping) as [c'|e] eqn:Em.
    + destruct (map_vertices vs mapping axis) as [r vs1] eqn:Er.
      injection H as -> <-.
      destruct (IH _ _ eq_refl) as (done & done' & failing & rest & -> & -> & HF & Hr).
      exists (v :: done), (set_vertex_coord axis v c' :: done'), failing, rest.
      repeat split; auto. constructor; [|assumption].
      exists c, c'. auto.
    + injection H as _ <-. exists [], [], v, vs. repeat split; [constructor|].
      unfold raises_on. rewrite Ec. eauto.
  - injection H as _ <-. exists [], [], v, vs. repeat split; [constructor|].
    unfold raises_on. now rewrite Ec.
Qed.

Lemma map_entity_failure_atomic (e : Entity) (mapping : list MappingSegment)
  (axis : Axis) (err : Error) :
  fst (map_entity e mapping axis) = Err err ->
  match e with
  | LWPOLYLINE _ | POLYLINE _ | SPLINE _ _ _ => True
  | _ => snd (map_entity e mapping axis) = e
  end.
Proof.
  destruct e; try exact (fun _ => I); unfold map_entity;
    cbn [dxftype mem existsb].
  - (* LINE *)
    cbn -[_map_value]. destruct start as [s|]; [|reflexivity].
    destruct end_ as [t|]; [|reflexivity]. cbn -[_map_value]. unfold map_vec.
    destruct (_map_value (coord axis s) mapping); [|reflexivity]. cbn -[_map_value].
    destruct (_map_value (coord axis t) mapping); [discriminate|reflexivity].
  - (* CIRCLE *)
    cbn -[_map_value]. destruct center as [c|]; [|reflexivity]. cbn -[_map_value].
    unfold map_vec. destruct (_map_value (coord axis c) mapping); [discriminate|reflexivity].
  - (* ARC *)
    cbn -[_map_value]. destruct center as [c|]; [|reflexivity]. cbn -[_map_value].
    unfold map_vec. destruct (_map_value (coord axis c) mapping); [discriminate|reflexivity].
  - (* POINT *)
    cbn -[_map_value]. destruct location as [l|]; [|reflexivity]. cbn -[_map_value].
    unfold map_vec. destruct (_map_value (coord axis l) mapping); [discriminate|reflexivity].
  - (* ELLIPSE *)
    cbn. destruct mapping; [reflexivity|discriminate].
  - (* OTHER *)
    repeat match goal with
           | |- context [String.eqb ?a ?b] => destruct (String.eqb a b)
           end; cbn; try reflexivity; try discriminate;
      destruct mapping; cbn; try reflexivity; discriminate.
Qed.

Lemma map_spline_failure (ctrl fit : option (list (list Q))) (knots : list Q)
  (mapping : list MappingSegment) (axis : Axis) (err : Error) :
  fst (_map_spline (SPLINE ctrl fit knots) mapping axis) = Err err ->
  exists ctrl', snd (_map_spline (SPLINE ctrl fit knots) mapping axis)
                = SPLINE ctrl' fit knots.
Proof.
  unfold _map_spline.
  destruct (match ctrl with Some _ => _ | None => _ end) as [ctrl'|e];
    [|intros _; eexists; reflexivity].
  destruct fit as [[|p ps]|]; try (cbn; discriminate).
  destruct (map_points (p :: ps) mapping axis); [cbn; discriminate|].
  intros _. eexists. reflexivity.
Qed.

(** C7 (amended).  [_apply_mapping] never raises: the outcome of every
    entity is dropped and the loop goes on, so every entity ends as its own
    transformation left it, whatever happened to the others.  A line,
    circle, arc, point or unrecognised entity whose transformation raises is
    left as it was; a polyline keeps the vertices remapped before the
    failing vertex, and a spline its fit points and knots. *)
Theorem apply_mapping_survives_failures (mapping : list MappingSegment) (axis : Axis) :
  (forall msp ext cache,
      _apply_mapping mapping axis (mkProcessor (Some msp) ext cache)
      = (OK tt, mkProcessor (Some (apply_mapping_doc mapping axis msp)) ext cache)) /\
  (forall msp,
      Forall2 (fun e e' => e' = snd (map_entity e mapping axis)) msp
              (apply_mapping_doc mapping axis msp)) /\
  (forall e err,
      fst (map_entity e mapping axis) = Err err ->
      match e with
      | LWPOLYLINE _ | POLYLINE _ | SPLINE _ _ _ => True
      | _ => snd (map_entity e mapping axis) = e
      end) /\
  (forall vs err vs',
      map_vertices vs mapping axis = (Err err, vs') ->
      exists done done' failing rest,
        vs = done ++ failing :: rest /\ vs' = done' ++ failing :: rest /\
        Forall2 (remapped mapping axis) done done' /\ raises_on mapping axis failing) /\
  (forall ctrl fit knots err,
      fst (_map_spline (SPLINE ctrl fit knots) mapping axis) = Err err ->
      exists ctrl', snd (_map_spline (SPLINE ctrl fit knots) mapping axis)
                    = SPLINE ctrl' fit knots).
Proof.
  split; [intros; apply apply_mapping_run|].
  split; [apply apply_mapping_doc_pointwise|].
  split; [intros e err; apply map_entity_failure_atomic|].
  split; [apply map_vertices_failure|].
  intros ctrl fit knots err. apply map_spline_failure.
Qed.

(** C7 as stated fails: stretching the plate to length 4 succeeds although
    the broken polyline raises, and the polyline is not left as it was: its
    first vertex has moved from 1 to 2. *)
Lemma polyline_failure_is_partial :
  exists mapping msp' p' x',
    build_mapping_on (0, 3) [mkZone 0 1 Stretch; mkZone 1 3 Fixed] 4 = OK mapping /\
    fst (map_entity broken_polyline mapping X) = Err AttributeError /\
    bindM (load no_curves (plate ++ [broken_polyline]))
          (fun _ => stretch no_curves 4 X "start") init = (OK (Some msp'), p') /\
    nth_error msp' 2
    = Some (LWPOLYLINE [mkVertex (Some x') (Some 0) (Some 0);
                        mkVertex None (Some 0) (Some 0)]) /\
    x' == 2 /\ ~ x' == 1.
Proof.
  do 4 eexists. split; [vm_compute; reflexivity|].
  split; [vm_compute; reflexivity|].
  split; [vm_compute; reflexivity|].
  split; [vm_compute; reflexivity|].
  split; [vm_compute; reflexivity|vm_compute; intro; discriminate].
Qed.

(** ** The Coordinate Mapper on a laid-out mapping *)

Lemma Qmult_le_mono_l (k x y : Q) : 0 <= k -> x <= y -> k * x <= k * y.
Proof.
  intros Hk Hxy. setoid_replace (k * x) with (x * k) by ring.
  setoid_replace (k * y) with (y * k) by ring. now apply Qmult_le_compat_r.
Qed.

Lemma slope_nonneg (k : Q) (seg : MappingSegment) : 0 <= k -> 0 <= slope k seg.
Proof. intro H. unfold slope. destruct (is_stretch _); qlra. Qed.

Lemma laid_out_length (k a a' : Q) (seg : MappingSegment) (rest : list MappingSegment) :
  laid_out k a a' (seg :: rest) -> 0 <= k ->
  0 <= end_new seg - start_new seg.
Proof.
  intros (_ & _ & Hlen & Hnew & _) Hk. rewrite Hnew.
  setoid_replace 0 with (slope k seg * 0) by ring.
  apply Qmult_le_mono_l; [now apply slope_nonneg|qlra].
Qed.

Lemma laid_out_ends (k : Q) (segs : list MappingSegment) :
  forall a a', laid_out k a a' segs -> 0 <= k ->
               a <= old_end a segs /\ a' <= new_end a' segs /\
               (segs <> [] -> a < old_end a segs).
Proof.
  induction segs as [|seg rest IH]; intros a a' H Hk.
  - cbn. split; [qlra|]. split; [qlra|]. intro C. now contradiction C.
  - pose proof (laid_out_length _ _ _ _ _ H Hk) as Hn.
    destruct H as (Hs & Hs' & Hlen & Hnew & Hrest).
    destruct (IH _ _ Hrest Hk) as (H1 & H2 & _). cbn [old_end new_end].
    split; [qlra|]. split; [qlra|]. intros _. qlra.
Qed.

Lemma laid_out_in (k : Q) (segs : list MappingSegment) :
  forall a a' seg,
    laid_out k a a' segs -> 0 <= k -> In seg segs ->
    a <= start_old seg /\ end_old seg <= old_end a segs /\
    a' <= start_new seg /\ end_new seg <= new_end a' segs /\
    (start_old seg == a -> start_new seg == a') /\
    (end_old seg == old_end a segs -> end_new seg == new_end a' segs).
Proof.
  induction segs as [|hd rest IH]; intros a a' seg H Hk Hin; [contradiction|].
  pose proof (laid_out_length _ _ _ _ _ H Hk) as Hn.
  destruct H as (Hs & Hs' & Hlen & Hnew & Hrest).
  destruct (laid_out_ends k rest _ _ Hrest Hk) as (E1 & E2 & E3).
  cbn [old_end new_end]. destruct Hin as [<-|Hin].
  - split; [qlra|]. split; [qlra|]. split; [qlra|]. split; [qlra|].
    split; [intros _; exact Hs'|].
    intro He. destruct rest as [|x rest]; [cbn; qlra|].
    assert (end_old hd < old_end (end_old hd) (x :: rest)) by (apply E3; discriminate).
    qlra.
  - destruct (IH _ _ _ Hrest Hk Hin) as (I1 & I2 & I3 & I4 & I5 & I6).
    split; [qlra|]. split; [qlra|]. split; [qlra|]. split; [qlra|].
    split; [intro C; qlra|exact I6].
Qed.

Lemma laid_out_covering (k : Q) (segs : list MappingSegment) :
  forall a a' v,
    laid_out k a a' segs -> segs <> [] -> a <= v -> v <= old_end a segs ->
    exists seg, In seg segs /\ start_old seg <= v /\ v <= end_old seg.
Proof.
  induction segs as [|hd rest IH]; intros a a' v H Hne Hav Hvb; [now contradiction Hne|].
  destruct H as (Hs & Hs' & Hlen & Hnew & Hrest).
  destruct (Qlt_le_dec (end_old hd) v) as [L|L].
  - destruct rest as [|x rest]; [cbn in Hvb; qlra|].
    destruct (IH (end_old hd) (end_new hd) v Hrest) as (seg & Hin & H1 & H2);
      try discriminate; try qlra; [exact Hvb|].
    exists seg. split; [now right|]. split; assumption.
  - exists hd. split; [now left|]. split; qlra.
Qed.

Lemma length_new_laid_out (k a a' : Q) (seg : MappingSegment) (rest : list MappingSegment) :
  laid_out k a a' (seg :: rest) -> 0 <= k ->
  length_new seg == slope k seg * (end_old seg - start_old seg).
Proof.
  intros H Hk. pose proof (laid_out_length _ _ _ _ _ H Hk) as Hn.
  destruct H as (_ & _ & _ & Hnew & _). unfold length_new.
  destruct (pymax_spec 0 (end_new seg - start_new seg)) as [[? ->]|[? ->]]; qlra.
Qed.

Lemma find_segment_laid_out (k : Q) (segs : list MappingSegment) :
  forall a a' v,
    laid_out k a a' segs -> 0 <= k -> segs <> [] ->
    a <= v -> v <= old_end a segs ->
    Forall (fun seg : MappingSegment => ~ near_start seg v) (tl segs) ->
    exists r,
      find_segment v segs = Some r /\
      forall seg, In seg segs -> start_old seg <= v -> v <= end_old seg ->
                  r == start_new seg + slope k seg * (v - start_old seg).
Proof.
  induction segs as [|hd rest IH]; intros a a' v H Hk Hne Hav Hvb Hclear;
    [now contradiction Hne|].
  pose proof (length_new_laid_out _ _ _ _ _ H Hk) as Hln.
  pose proof H as (Hs & Hs' & Hlen & Hnew & Hrest).
  cbn [tl] in Hclear. cbn [old_end] in Hvb. cbn [find_segment].
  assert (Qltb v (start_old hd - eps9) = false) as ->.
  { apply Qltb_ge. qlra. }
  destruct (Qle_bool v (end_old hd + eps9)) eqn:E; qprop.
  - assert (Hve : v <= end_old hd).
    { destruct (Qlt_le_dec (end_old hd) v) as [L|L]; [|exact L]. exfalso.
      destruct rest as [|x rest]; [cbn in Hvb; qlra|].
      inversion Hclear as [|? ? Hx _]; subst. apply Hx.
      destruct Hrest as (Hxs & _). unfold near_start. split; qlra. }
    assert (Hzl : Zone_length hd = end_old hd - start_old hd).
    { unfold Zone_length.
      destruct (pymax_spec 0 (end_old hd - start_old hd)) as [[? ->]|[? ?]];
        [reflexivity|qlra]. }
    rewrite Hzl.
    assert (Qltb (end_old hd - start_old hd) eps9 = false) as ->
        by (apply Qltb_ge; qlra).
    eexists. split; [reflexivity|].
    assert (Hr : start_new hd
                 + (v - start_old hd) / (end_old hd - start_old hd) * length_new hd
                 == start_new hd + slope k hd * (v - start_old hd)).
    { rewrite Hln. field. qlra. }
    intros seg [<-|Hin] H1 H2; [exact Hr|].
    destruct (laid_out_in k rest _ _ seg Hrest Hk Hin) as (I1 & _ & _ & _ & I5 & _).
    assert (Hv : v == end_old hd) by qlra.
    assert (Hss : start_old seg == end_old hd) by qlra.
    rewrite Hr, (I5 Hss).
    setoid_replace (v - start_old hd) with (end_old hd - start_old hd) by qlra.
    setoid_replace (v - start_old seg) with 0 by qlra.
    rewrite <- Hnew. ring.
  - assert (Hrne : rest <> []).
    { intros ->. cbn in Hvb. qlra. }
    destruct (IH (end_old hd) (end_new hd) v Hrest Hk Hrne) as (r & Hr & Hall).
    + qlra.
    + exact Hvb.
    + destruct rest as [|x rest]; [constructor|]. now inversion Hclear.
    + exists r. split; [exact Hr|].
      intros seg [<-|Hin] H1 H2; [qlra|]. now apply Hall.
Qed.

Lemma map_value_laid_out (k : Q) (segs : list MappingSegment) (a a' v : Q) :
  laid_out k a a' segs -> 0 <= k -> segs <> [] ->
  a <= v -> v <= old_end a segs ->
  Forall (fun seg : MappingSegment => ~ near_start seg v) (tl segs) ->
  exists r,
    _map_value v segs = OK r /\
    a' <= r /\ r <= new_end a' segs /\
    (v == a -> r == a') /\
    (v == old_end a segs -> r == new_end a' segs) /\
    (forall seg, In seg segs -> zone_type seg = Fixed ->
                 start_old seg <= v -> v <= end_old seg ->
                 r == start_new seg + (v - start_old seg)).
Proof.
  intros H Hk Hne Hav Hvb Hclear.
  destruct (find_segment_laid_out k segs a a' v H Hk Hne Hav Hvb Hclear) as (r & Hr & Hall).
  exists r. split; [unfold _map_value; now rewrite Hr|].
  destruct (laid_out_covering k segs a a' v H Hne Hav Hvb) as (seg & Hin & H1 & H2).
  destruct (laid_out_in k segs a a' seg H Hk Hin) as (I1 & I2 & I3 & I4 & I5 & I6).
  pose proof (Hall seg Hin H1 H2) as Er.
  pose proof (slope_nonneg k seg Hk) as Hsl.
  assert (Hlo : 0 <= slope k seg * (v - start_old seg)).
  { setoid_replace 0 with (slope k seg * 0) by ring.
    apply Qmult_le_mono_l; [assumption|qlra]. }
  assert (Hhi : slope k seg * (v - start_old seg)
                <= slope k seg * (end_old seg - start_old seg)).
  { apply Qmult_le_mono_l; [assumption|qlra]. }
  assert (Hseg : end_new seg - start_new seg
                 == slope k seg * (end_old seg - start_old seg)).
  { clear - H Hin. revert a a' H. induction segs as [|hd rest IH]; intros a a' H;
      [contradiction|].
    destruct H as (_ & _ & _ & Hnew & Hrest). destruct Hin as [<-|Hin];
      [exact Hnew|]. now apply (IH Hin _ _ Hrest). }
  split; [qlra|]. split; [qlra|]. split; [|split].
  - intro E. assert (Es : start_old seg == a) by qlra.
    rewrite Er, (I5 Es). setoid_replace (v - start_old seg) with 0 by qlra. ring.
  - intro E. assert (Ee : end_old seg == old_end a segs) by qlra.
    rewrite Er, <- (I6 Ee).
    setoid_replace (v - start_old seg) with (end_old seg - start_old seg) by qlra.
    rewrite <- Hseg. ring.
  - intros seg' Hin' Hfix H1' H2'. rewrite (Hall seg' Hin' H1' H2').
    unfold slope. rewrite Hfix. cbn. ring.
Qed.

(** ** The mapping built by the Mapping Builder is laid out *)

Lemma build_segments_laid_out (st delta k : Q) (zones : list Zone) :
  0 < st -> k == 1 + delta / st ->
  Forall (fun z => eps9 < Zone_length z) zones ->
  forall a b cn,
    chained a zones b ->
    laid_out k a cn (build_segments st delta cn zones).
Proof.
  intros Hst Hk Hlen. induction Hlen as [|z zones Hz Hlen IH]; intros a b cn Hch;
    [exact I|].
  destruct Hch as (Hs & Hse & Hch). cbn [build_segments laid_out].
  cbn [seg_zone start_new end_new].
  pose proof (Zone_length_eq _ Hse) as HL.
  split; [exact Hs|]. split; [reflexivity|]. split; [qlra|].
  split; [|now apply IH with b].
  rewrite (new_length_specified _ _ _ Hst). unfold specified_length, slope.
  cbn [seg_zone]. rewrite <- HL.
  destruct (zone_type z); cbn [is_stretch].
  - rewrite Hk. field. qlra.
  - ring.
Qed.

Lemma build_segments_old_end (st delta : Q) (zones : list Zone) :
  forall a b cn, chained a zones b ->
                 old_end a (build_segments st delta cn zones) == b.
Proof.
  induction zones as [|z zones IH]; intros a b cn Hch; cbn in *; [exact Hch|].
  destruct Hch as (_ & _ & Hch). now apply IH.
Qed.

Lemma build_segments_new_end (st delta : Q) (zones : list Zone) :
  forall cn, new_end cn (build_segments st delta cn zones)
             == cn + sum_new_lengths (build_segments st delta cn zones).
Proof.
  induction zones as [|z zones IH]; intro cn; cbn [build_segments new_end sum_new_lengths].
  - ring.
  - rewrite IH. cbn [start_new end_new]. ring.
Qed.

Lemma total_parts (zones : list Zone) :
  total Zone_length zones == total stretch_part zones + total fixed_part zones.
Proof.
  induction zones as [|z zones IH]; cbn [total]; [ring|].
  rewrite IH. unfold stretch_part, fixed_part. destruct (is_stretch _); ring.
Qed.

Lemma laid_out_seg_length (k : Q) (segs : list MappingSegment) :
  forall a a' seg,
    laid_out k a a' segs -> In seg segs ->
    end_new seg - start_new seg == slope k seg * (end_old seg - start_old seg).
Proof.
  induction segs as [|hd rest IH]; intros a a' seg H Hin; [contradiction|].
  destruct H as (_ & _ & _ & Hnew & Hrest). destruct Hin as [<-|Hin];
    [exact Hnew|]. now apply (IH _ _ _ Hrest).
Qed.

Lemma clear_of_segments (zones : list Zone) (segs : list MappingSegment) (v : Q) :
  map seg_zone segs = zones -> clear_of zones v ->
  Forall (fun seg : MappingSegment => ~ near_start seg v) (tl segs).
Proof.
  intros <- H. unfold clear_of in H. destruct segs as [|hd rest]; [constructor|].
  cbn [map tl] in *. rewrite Forall_forall in H. apply Forall_forall.
  intros seg Hin. apply H. now apply in_map.
Qed.

Lemma slope_factor_nonneg (st delta : Q) :
  0 < st -> 0 <= st + delta -> 0 <= 1 + delta / st.
Proof.
  intros Hst H.
  setoid_replace (1 + delta / st) with ((st + delta) * / st) by (field; lra).
  apply Qmult_le_0_compat; [exact H|]. apply Qinv_le_0_compat. lra.
Qed.

Lemma build_mapping_maps_onto (a b target : Q) (zones : list Zone)
  (mapping : list MappingSegment) :
  zone_sequence a b zones ->
  Forall (fun z => eps9 < Zone_length z) zones ->
  0 < stretch_total zones ->
  total fixed_part zones <= target ->
  build_mapping_on (a, b) zones target = OK mapping ->
  maps_onto mapping zones a b a (a + target).
Proof.
  intros (Hne & Hch & _) Hlen Hst Hfix Hb.
  apply build_mapping_on_inv in Hb. cbn [fst snd] in Hb.
  set (st := stretch_total zones) in *. set (delta := target - (b - a)) in *.
  set (k := 1 + delta / st).
  assert (Hk : 0 <= k).
  { apply slope_factor_nonneg; [exact Hst|].
    pose proof (total_length_chained _ _ _ Hch) as T1.
    pose proof (total_parts zones) as T2.
    pose proof (stretch_total_sum zones) as T3. fold st in T3.
    unfold delta. lra. }
  assert (Hlaid : laid_out k a a mapping).
  { subst mapping. apply build_segments_laid_out with b; try assumption. reflexivity. }
  assert (Hold : old_end a mapping == b).
  { subst mapping. now apply build_segments_old_end. }
  assert (Hnew : new_end a mapping == a + target).
  { subst mapping. rewrite build_segments_new_end.
    unfold st, delta. now rewrite build_segments_total. }
  assert (Hzones : map seg_zone mapping = zones).
  { subst mapping. apply build_segments_zones. }
  assert (Hmne : mapping <> []).
  { intros E. rewrite E in Hzones. cbn in Hzones. now contradiction Hne. }
  intros v Hav Hvb Hclear.
  destruct (map_value_laid_out k mapping a a v Hlaid Hk Hmne Hav)
    as (r & Hr & R1 & R2 & R3 & R4 & R5).
  { lra. }
  { now apply clear_of_segments with zones. }
  exists r. split; [exact Hr|]. split; [exact R1|]. split; [lra|].
  split; [exact R3|]. split; [intro E; rewrite <- Hnew; apply R4; lra|].
  intros z Hz Hfixed H1 H2. rewrite <- Hzones in Hz. apply in_map_iff in Hz.
  destruct Hz as (seg & <- & Hin). exists (start_new seg).
  destruct (laid_out_in k mapping a a seg Hlaid Hk Hin) as (I1 & I2 & I3 & I4 & I5 & I6).
  pose proof (laid_out_seg_length k mapping a a seg Hlaid Hin) as Hsl.
  unfold slope in Hsl. rewrite Hfixed in Hsl. cbn [is_stretch] in Hsl.
  split; [now apply R5|]. split; [exact I3|]. split; [lra|].
  split; [exact I5|]. intro E.
  assert (end_new seg == new_end a mapping) by (apply I6; lra). lra.
Qed.

(** ** Every fixed interval lies in a fixed zone *)

Lemma In_insert_by_start (iv x : Q * Q) (l : list (Q * Q)) :
  x = iv \/ In x l -> In x (insert_by_start iv l).
Proof.
  induction l as [|y l IH]; cbn; intro H.
  - destruct H as [->|[]]. now left.
  - destruct (Qle_bool (fst iv) (fst y)).
    + destruct H as [->|H]; [now left|now right].
    + destruct H as [->|[->|H]]; [right; apply IH; now left|now left|].
      right. apply IH. now right.
Qed.

Lemma In_sort_by_start (x : Q * Q) (l : list (Q * Q)) :
  In x l -> In x (sort_by_start l).
Proof.
  induction l as [|y l IH]; cbn; [auto|]. intros [->|H]; apply In_insert_by_start.
  - now left.
  - right. now apply IH.
Qed.

Lemma merge_from_covers (rest : list (Q * Q)) :
  forall cur iv,
    sorted_from (fst cur) rest ->
    inside iv cur \/ In iv rest ->
    exists m, In m (merge_from cur rest) /\ inside iv m.
Proof.
  induction rest as [|[s e] rest IH]; intros cur iv Hsorted Hiv; cbn [merge_from].
  - destruct Hiv as [Hiv|[]]. exists cur. split; [now left|exact Hiv].
  - destruct Hsorted as [Hs Hsorted]. cbn [fst] in Hs, Hsorted.
    destruct (Qltb (snd cur) s) eqn:E; qprop.
    + destruct Hiv as [Hiv|[<-|Hiv]].
      * exists cur. split; [now left|exact Hiv].
      * destruct (IH (s, e) (s, e) Hsorted) as (m & Hm & Hin).
        { left. unfold inside. cbn. split; lra. }
        exists m. split; [now right|exact Hin].
      * destruct (IH (s, e) iv Hsorted (or_intror Hiv)) as (m & Hm & Hin).
        exists m. split; [now right|exact Hin].
    + apply IH.
      * cbn [fst]. now apply sorted_from_weaken with s.
      * pose proof (pymax_l (snd cur) e). pose proof (pymax_r (snd cur) e).
        destruct Hiv as [[H1 H2]|[<-|Hiv]].
        -- left. unfold inside. cbn [fst snd]. split; lra.
        -- left. unfold inside. cbn [fst snd]. split; lra.
        -- now right.
Qed.

Lemma walk_zones_fixed (merged : list (Q * Q)) :
  forall cursor m,
    In m merged -> In (mkZone (fst m) (snd m) Fixed) (fst (walk_zones cursor merged)).
Proof.
  induction merged as [|[s e] rest IH]; intros cursor m Hin; [contradiction|].
  cbn [walk_zones]. specialize (IH (pymax cursor e) m).
  destruct (walk_zones (pymax cursor e) rest) as [zones final]. cbn [fst] in *.
  apply in_or_app. right. destruct Hin as [<-|Hin]; [now left|].
  right. now apply IH.
Qed.

Lemma zones_of_intervals_fixed (lo hi : Q) (intervals : list (Q * Q)) (iv : Q * Q) :
  Forall (within lo hi) intervals -> In iv intervals ->
  exists z, In z (zones_of_intervals lo hi intervals) /\ zone_type z = Fixed /\
            start_old z <= fst iv /\ snd iv <= end_old z.
Proof.
  intros Hall Hin.
  assert (Hs : sorted_from lo (sort_by_start intervals)).
  { apply sorted_sort_by_start. eapply Forall_impl; [|exact Hall]. intros x H. apply H. }
  pose proof (In_sort_by_start _ _ Hin) as Hin'.
  unfold zones_of_intervals.
  destruct (sort_by_start intervals) as [|first rest]; [contradiction|].
  cbn [merge_intervals]. destruct Hs as [_ Hs].
  destruct (merge_from_covers rest first iv Hs) as (m & Hm & Him).
  { destruct Hin' as [<-|H]; [left; unfold inside; split; lra|now right]. }
  pose proof (walk_zones_fixed (merge_from first rest) lo m Hm) as Hz.
  destruct (walk_zones lo (merge_from first rest)) as [zones final]. cbn [fst] in Hz.
  exists (mkZone (fst m) (snd m) Fixed).
  split; [|split; [reflexivity|exact Him]].
  destruct (Qltb final hi).
  - destruct (zones ++ _) eqn:E.
    + destruct zones; [contradiction|discriminate].
    + rewrite <- E. apply in_or_app. now left.
  - destruct zones; [contradiction|exact Hz].
Qed.

(** ** Boxes on one axis *)

Lemma coord_set_coord (axis : Axis) (v : Vec3) (c : Q) :
  coord axis (set_coord axis v c) = c.
Proof. destruct axis; reflexivity. Qed.

Lemma axis_interval_vec (axis : Axis) (v : Vec3) :
  axis_interval axis (vec_extents v) = (coord axis v, coord axis v).
Proof. destruct axis; reflexivity. Qed.

Lemma axis_interval_union (axis : Axis) (e1 e2 : Extents) :
  axis_interval axis (union_extents e1 e2)
  = hull (axis_interval axis e1) (axis_interval axis e2).
Proof. destruct axis; reflexivity. Qed.

Lemma axis_size_interval (axis : Axis) (ext : Extents) :
  axis_size axis ext = snd (axis_interval axis ext) - fst (axis_interval axis ext).
Proof. destruct axis; reflexivity. Qed.

Lemma inside_hull (iv1 iv2 outer : Q * Q) :
  inside iv1 outer -> inside iv2 outer -> inside (hull iv1 iv2) outer.
Proof.
  unfold inside, hull. cbn [fst snd]. intros [H1 H2] [H3 H4].
  destruct (pymin_spec (fst iv1) (fst iv2)) as [[? ->]|[? ->]];
    destruct (pymax_spec (snd iv1) (snd iv2)) as [[? ->]|[? ->]]; split; lra.
Qed.

Lemma carried_hull (a b a' b' : Q) (iv1 iv2 iv1' iv2' : Q * Q) :
  inside iv1 (a, b) -> inside iv2 (a, b) ->
  carried a b a' b' iv1 iv1' -> carried a b a' b' iv2 iv2' ->
  carried a b a' b' (hull iv1 iv2) (hull iv1' iv2').
Proof.
  unfold inside, carried, hull. cbn [fst snd].
  intros [I1 I2] [I3 I4] (C1 & C2 & C3 & C4) (D1 & D2 & D3 & D4).
  pose proof (pymin_l (fst iv1') (fst iv2')). pose proof (pymin_r (fst iv1') (fst iv2')).
  pose proof (pymax_l (snd iv1') (snd iv2')). pose proof (pymax_r (snd iv1') (snd iv2')).
  split; [|split; [|split]].
  - destruct (pymin_spec (fst iv1') (fst iv2')) as [[? ->]|[? ->]]; lra.
  - destruct (pymax_spec (snd iv1') (snd iv2')) as [[? ->]|[? ->]]; lra.
  - intro E. destruct (pymin_spec (fst iv1) (fst iv2)) as [[? Em]|[? Em]];
      rewrite Em in E.
    + specialize (D3 E).
      destruct (pymin_spec (fst iv1') (fst iv2')) as [[? ->]|[? ->]]; lra.
    + specialize (C3 E).
      destruct (pymin_spec (fst iv1') (fst iv2')) as [[? ->]|[? ->]]; lra.
  - intro E. destruct (pymax_spec (snd iv1) (snd iv2)) as [[? Em]|[? Em]];
      rewrite Em in E.
    + specialize (D4 E).
      destruct (pymax_spec (snd iv1') (snd iv2')) as [[? ->]|[? ->]]; lra.
    + specialize (C4 E).
      destruct (pymax_spec (snd iv1') (snd iv2')) as [[? ->]|[? ->]]; lra.
Qed.

Lemma carried_point (a b a' b' v r : Q) :
  a' <= r -> r <= b' -> (v == a -> r == a') -> (v == b -> r == b') ->
  carried a b a' b' (v, v) (r, r).
Proof. unfold carried. cbn [fst snd]. auto. Qed.

Section Boxes.

Context {A : Type}.

Lemma hull_of_none (box : A -> option Extents) (l : list A) (x : A) (bx : Extents) :
  hull_of box l = None -> In x l -> box x = Some bx -> False.
Proof.
  induction l as [|y l IH]; intros Hn Hin Hbox; [contradiction|].
  cbn [hull_of fold_right] in Hn. fold (hull_of box l) in Hn.
  destruct Hin as [<-|Hin].
  - rewrite Hbox in Hn. destruct (hull_of box l); discriminate.
  - destruct (box y); destruct (hull_of box l); try discriminate. now apply IH.
Qed.

Lemma hull_of_inside (box : A -> option Extents) (axis : Axis) (l : list A) :
  forall ext x bx,
    hull_of box l = Some ext -> In x l -> box x = Some bx ->
    inside (axis_interval axis bx) (axis_interval axis ext).
Proof.
  induction l as [|y l IH]; intros ext x bx Hext Hin Hbox; [contradiction|].
  cbn [hull_of fold_right] in Hext. fold (hull_of box l) in Hext.
  destruct (box y) as [by_|] eqn:Ey; destruct (hull_of box l) as [rest|] eqn:Er;
    cbn in Hext; try discriminate; injection Hext as <-.
  - rewrite axis_interval_union. unfold inside, hull. cbn [fst snd].
    pose proof (pymin_l (fst (axis_interval axis by_)) (fst (axis_interval axis rest))).
    pose proof (pymin_r (fst (axis_interval axis by_)) (fst (axis_interval axis rest))).
    pose proof (pymax_l (snd (axis_interval axis by_)) (snd (axis_interval axis rest))).
    pose proof (pymax_r (snd (axis_interval axis by_)) (snd (axis_interval axis rest))).
    destruct Hin as [<-|Hin].
    + rewrite Ey in Hbox. injection Hbox as <-. split; lra.
    + destruct (IH rest x bx eq_refl Hin Hbox) as [J1 J2]. split; lra.
  - destruct Hin as [<-|Hin].
    + rewrite Ey in Hbox. injection Hbox as <-. unfold inside. split; lra.
    + exfalso. now apply (hull_of_none box l x bx).
  - destruct Hin as [<-|Hin]; [congruence|]. exact (IH _ x bx eq_refl Hin Hbox).
Qed.

Lemma hull_of_carried (box : A -> option Extents) (axis : Axis) (f : A -> A)
  (a b a' b' : Q) (l : list A) :
  (forall x, In x l ->
             exists bx bx',
               box x = Some bx /\ box (f x) = Some bx' /\
               inside (axis_interval axis bx) (a, b) /\
               carried a b a' b' (axis_interval axis bx) (axis_interval axis bx')) ->
  forall ext,
    hull_of box l = Some ext ->
    exists ext',
      hull_of box (map f l) = Some ext' /\
      inside (axis_interval axis ext) (a, b) /\
      carried a b a' b' (axis_interval axis ext) (axis_interval axis ext').
Proof.
  induction l as [|x l IH]; intros Hall ext Hext; [discriminate|].
  destruct (Hall x (or_introl eq_refl)) as (bx & bx' & Ex & Ex' & Ix & Cx).
  cbn [map hull_of fold_right] in *.
  fold (hull_of box l) in *. fold (hull_of box (map f l)) in *.
  rewrite Ex in Hext. rewrite Ex'.
  destruct (hull_of box l) as [rest|] eqn:Er; cbn in Hext; injection Hext as <-.
  - destruct (IH (fun e H => Hall e (or_intror H)) rest eq_refl) as (rest' & -> & Ir & Cr).
    eexists. split; [reflexivity|]. rewrite !axis_interval_union.
    split; [now apply inside_hull|now apply carried_hull].
  - destruct l as [|y l].
    + cbn. eexists. split; [reflexivity|]. split; assumption.
    + exfalso. destruct (Hall y (or_intror (or_introl eq_refl))) as (by_ & _ & Ey & _).
      now apply (hull_of_none box (y :: l) y by_ Er (or_introl eq_refl)).
Qed.

End Boxes.

Lemma vertices_extents_hull (vs : list Vertex) :
  vertices_extents vs = hull_of vertex_point vs.
Proof.
  induction vs as [|v vs IH]; [reflexivity|].
  cbn [vertices_extents hull_of fold_right]. now rewrite IH.
Qed.

Section Extents.

Variable curve_extents : Entity -> option Extents.

Lemma extents_of_inside (axis : Axis) (msp : list Entity) :
  forall ext e box,
    extents_of curve_extents msp = Some ext -> In e msp ->
    entity_extents curve_extents e = Some box ->
    inside (axis_interval axis box) (axis_interval axis ext).
Proof. exact (hull_of_inside (entity_extents curve_extents) axis msp). Qed.

Lemma extents_carried (axis : Axis) (f : Entity -> Entity) (a b a' b' : Q)
  (msp : list Entity) :
  (forall e, In e msp ->
             exists box box',
               entity_extents curve_extents e = Some box /\
               entity_extents curve_extents (f e) = Some box' /\
               inside (axis_interval axis box) (a, b) /\
               carried a b a' b' (axis_interval axis box) (axis_interval axis box')) ->
  forall ext,
    extents_of curve_extents msp = Some ext ->
    exists ext',
      extents_of curve_extents (map f msp) = Some ext' /\
      inside (axis_interval axis ext) (a, b) /\
      carried a b a' b' (axis_interval axis ext) (axis_interval axis ext').
Proof. exact (hull_of_carried (entity_extents curve_extents) axis f a b a' b' msp). Qed.

End Extents.

Lemma chained_in (zones : list Zone) :
  forall a b z, chained a zones b -> In z zones -> a <= start_old z /\ end_old z <= b.
Proof.
  induction zones as [|hd rest IH]; intros a b z Hch Hin; [contradiction|].
  destruct Hch as (Hs & Hse & Hch). pose proof (chained_le _ _ _ Hch) as Hle.
  destruct Hin as [<-|Hin]; [split; lra|].
  destruct (IH _ _ _ Hch Hin). split; lra.
Qed.

Lemma point_inside_hull (v w a b : Q) :
  inside (hull (v, v) (w, w)) (a, b) -> (a <= v /\ v <= b) /\ (a <= w /\ w <= b).
Proof.
  unfold inside, hull. cbn [fst snd]. intros [H1 H2].
  pose proof (pymin_l v w). pose proof (pymin_r v w).
  pose proof (pymax_l v w). pose proof (pymax_r v w). repeat split; lra.
Qed.

(** ** Straight polylines *)

Lemma straight_vertex_inv (v : Vertex) :
  straight_vertex v = true ->
  exists x y, vertex_x v = Some x /\ vertex_y v = Some y /\ is_curved v = false.
Proof.
  unfold straight_vertex. destruct (vertex_x v) as [x|]; [|discriminate].
  destruct (vertex_y v) as [y|]; [|discriminate].
  intro H. apply negb_true_iff in H. exists x, y. auto.
Qed.

Lemma straight_not_curved (vs : list Vertex) :
  forallb straight_vertex vs = true -> existsb is_curved vs = false.
Proof.
  induction vs as [|v vs IH]; [reflexivity|]. cbn [forallb existsb].
  intro H. apply andb_true_iff in H. destruct H as [Hv Hvs].
  destruct (straight_vertex_inv v Hv) as (_ & _ & _ & _ & ->). now apply IH.
Qed.

Lemma axis_interval_point (axis : Axis) (x y : Q) :
  axis_interval axis (point_extents x y)
  = (match axis with X => x | Y => y end, match axis with X => x | Y => y end).
Proof. destruct axis; reflexivity. Qed.

Lemma vertex_point_axis (axis : Axis) (v : Vertex) (x y : Q) :
  vertex_x v = Some x -> vertex_y v = Some y ->
  exists c, vertex_coord axis v = Some c /\
            vertex_point v = Some (point_extents x y) /\
            axis_interval axis (point_extents x y) = (c, c).
Proof.
  intros Hx Hy. unfold vertex_point. rewrite Hx, Hy.
  destruct axis; cbn [vertex_coord]; eexists; (split; [eassumption|]); split; reflexivity.
Qed.

Lemma set_vertex_coord_point (axis : Axis) (v : Vertex) (x y r : Q) :
  vertex_x v = Some x -> vertex_y v = Some y ->
  exists bx, vertex_point (set_vertex_coord axis v r) = Some bx /\
             axis_interval axis bx = (r, r) /\
             vertex_coord axis (set_vertex_coord axis v r) = Some r /\
             is_curved (set_vertex_coord axis v r) = is_curved v.
Proof.
  intros Hx Hy. destruct axis; unfold vertex_point; cbn; rewrite ?Hx, ?Hy;
    eexists; repeat split.
Qed.

Lemma map_vertices_ok (mapping : list MappingSegment) (axis : Axis) (vs : list Vertex) :
  (forall v, In v vs -> exists c r, vertex_coord axis v = Some c /\
                                    _map_value c mapping = OK r) ->
  map_vertices vs mapping axis = (OK tt, map (mapped_vertex mapping axis) vs).
Proof.
  induction vs as [|v vs IH]; intro H; [reflexivity|].
  destruct (H v (or_introl eq_refl)) as (c & r & Hc & Hr).
  cbn [map_vertices map]. unfold mapped_vertex at 1. rewrite Hc. cbn [attr bind].
  rewrite Hr. rewrite IH; [reflexivity|]. intros w Hw. apply H. now right.
Qed.

Lemma traverse_translate_ok (axis : Axis) (d : Q) (vs : list Vertex) :
  (forall v, In v vs -> exists c, vertex_coord axis v = Some c) ->
  traverse (translate_vertex axis d) vs = OK (map (shifted_vertex axis (Some d)) vs).
Proof.
  induction vs as [|v vs IH]; intro H; [reflexivity|].
  destruct (H v (or_introl eq_refl)) as (c & Hc).
  cbn [traverse map]. unfold translate_vertex at 1, shifted_vertex at 1.
  rewrite Hc. cbn [attr bind]. rewrite IH; [reflexivity|].
  intros w Hw. apply H. now right.
Qed.

Lemma shifted_vertex_none_map (axis : Axis) (f : Vertex -> Vertex) (vs : list Vertex) :
  map (fun v => shifted_vertex axis None (f v)) vs = map f vs.
Proof. apply map_ext. reflexivity. Qed.

Lemma shifted_vertex_none (axis : Axis) (vs : list Vertex) :
  map (shifted_vertex axis None) vs = vs.
Proof. induction vs as [|v vs IH]; [reflexivity|]. cbn. now rewrite IH. Qed.

Lemma straight_vertices_box (axis : Axis) (vs : list Vertex) :
  vs <> [] -> forallb straight_vertex vs = true ->
  exists box,
    vertices_extents vs = Some box /\
    fst (axis_interval axis box) <= snd (axis_interval axis box).
Proof.
  induction vs as [|v vs IH]; intros Hne Hs; [now contradiction Hne|].
  cbn [forallb] in Hs. apply andb_true_iff in Hs. destruct Hs as [Hv Hvs].
  destruct (straight_vertex_inv v Hv) as (x & y & Hx & Hy & _).
  destruct (vertex_point_axis axis v x y Hx Hy) as (c & _ & Hp & Hi).
  cbn [vertices_extents]. rewrite Hp. destruct vs as [|w vs].
  - cbn. eexists. split; [reflexivity|]. rewrite Hi. cbn [fst snd]. lra.
  - destruct (IH ltac:(discriminate) Hvs) as (box & -> & Hle). cbn [union_opt].
    eexists. split; [reflexivity|]. rewrite axis_interval_union, Hi.
    unfold hull. cbn [fst snd].
    pose proof (pymin_l c (fst (axis_interval axis box))).
    pose proof (pymax_l c (snd (axis_interval axis box))). lra.
Qed.

Lemma final_polyline (mapping : list MappingSegment) (axis : Axis) (shift : option Q)
  (vs : list Vertex) :
  (forall v, In v vs -> exists c r, vertex_coord axis v = Some c /\
                                    _map_value c mapping = OK r) ->
  let g := fun v => shifted_vertex axis shift (mapped_vertex mapping axis v) in
  final_entity mapping axis shift (LWPOLYLINE vs) = LWPOLYLINE (map g vs) /\
  final_entity mapping axis shift (POLYLINE vs) = POLYLINE (map g vs).
Proof.
  intros Hok g.
  assert (Hc : forall v, In v (map (mapped_vertex mapping axis) vs) ->
                         exists c, vertex_coord axis v = Some c).
  { intros v Hv. apply in_map_iff in Hv. destruct Hv as (w & <- & Hw).
    destruct (Hok w Hw) as (c & r & Hc & Hr). unfold mapped_vertex. rewrite Hc, Hr.
    exists r. destruct axis; reflexivity. }
  unfold final_entity, map_entity.
  cbn [dxftype mem existsb String.eqb Ascii.eqb Bool.eqb orb _map_polyline].
  rewrite (map_vertices_ok mapping axis vs Hok). cbn [snd].
  destruct shift as [d|].
  - unfold try_transform. cbn [transform_translate].
    rewrite (traverse_translate_ok axis d _ Hc). cbn [bind].
    rewrite map_map. split; reflexivity.
  - unfold g. rewrite shifted_vertex_none_map. split; reflexivity.
Qed.

(** The vertices of a straight polyline through the mapping and the anchor
    shift: the hull of the new vertices is carried like the old one. *)
Lemma vertices_carried (mapping : list MappingSegment) (zones : list Zone)
  (axis : Axis) (shift : option Q) (a b a' b' : Q) (vs : list Vertex) (box : Extents) :
  maps_onto mapping zones a b a' b' ->
  forallb straight_vertex vs = true ->
  Forall (clear_of zones) (vertex_coordinates axis vs) ->
  hull_of vertex_point vs = Some box ->
  inside (axis_interval axis box) (a, b) ->
  let g := fun v => shifted_vertex axis shift (mapped_vertex mapping axis v) in
  (forall v, In v vs -> exists c r, vertex_coord axis v = Some c /\
                                    _map_value c mapping = OK r) /\
  existsb is_curved (map g vs) = false /\
  exists box',
    hull_of vertex_point (map g vs) = Some box' /\
    carried a b (a' + applied_shift shift) (b' + applied_shift shift)
            (axis_interval axis box) (axis_interval axis box').
Proof.
  intros Hmap Hstraight Hclear Hbox Hin g.
  rewrite forallb_forall in Hstraight. rewrite Forall_forall in Hclear.
  assert (Hv : forall v, In v vs ->
             exists x y c r bx',
               vertex_x v = Some x /\ vertex_y v = Some y /\
               vertex_coord axis v = Some c /\ _map_value c mapping = OK r /\
               vertex_point v = Some (point_extents x y) /\
               axis_interval axis (point_extents x y) = (c, c) /\
               a <= c /\ c <= b /\
               vertex_point (g v) = Some bx' /\
               is_curved (g v) = false /\
               carried a b (a' + applied_shift shift) (b' + applied_shift shift)
                       (c, c) (axis_interval axis bx')).
  { intros v Hin_v.
    destruct (straight_vertex_inv v (Hstraight v Hin_v)) as (x & y & Hx & Hy & Hcv).
    destruct (vertex_point_axis axis v x y Hx Hy) as (c & Hc & Hp & Hi).
    pose proof (hull_of_inside vertex_point axis vs box v _ Hbox Hin_v Hp) as [I1 I2].
    rewrite Hi in I1, I2. destruct Hin as [J1 J2]. cbn [fst snd] in *.
    assert (Hclear_c : clear_of zones c).
    { apply Hclear. unfold vertex_coordinates. apply in_flat_map. exists v.
      split; [exact Hin_v|]. rewrite Hc. now left. }
    destruct (Hmap c) as (r & Hr & R1 & R2 & R3 & R4 & _); [lra|lra|exact Hclear_c|].
    destruct (set_vertex_coord_point axis v x y r Hx Hy) as (bx1 & P1 & P2 & P3 & P4).
    assert (Hm : mapped_vertex mapping axis v = set_vertex_coord axis v r).
    { unfold mapped_vertex. now rewrite Hc, Hr. }
    destruct shift as [d|]; cbn [applied_shift].
    - assert (Hx1 : exists x1 y1, vertex_x (set_vertex_coord axis v r) = Some x1 /\
                                  vertex_y (set_vertex_coord axis v r) = Some y1).
      { destruct axis; cbn; rewrite ?Hx, ?Hy; eauto. }
      destruct Hx1 as (x1 & y1 & Hx1 & Hy1).
      destruct (set_vertex_coord_point axis (set_vertex_coord axis v r) x1 y1 (r + d)
                  Hx1 Hy1) as (bx2 & Q1 & Q2 & Q3 & Q4).
      assert (Hg : g v = set_vertex_coord axis (set_vertex_coord axis v r) (r + d)).
      { unfold g, shifted_vertex. now rewrite Hm, P3. }
      exists x, y, c, r, bx2. rewrite Hg, Q2, Q4, P4.
      repeat (split; [first [assumption | lra]|]). apply carried_point; lra.
    - assert (Hg : g v = set_vertex_coord axis v r).
      { unfold g, shifted_vertex. now rewrite Hm. }
      exists x, y, c, r, bx1. rewrite Hg, P2, P4.
      repeat (split; [first [assumption | lra]|]). apply carried_point; lra. }
  split; [|split].
  - intros v Hin_v. destruct (Hv v Hin_v) as (x & y & c & r & bx' & H).
    exists c, r. split; apply H.
  - clear - Hv. induction vs as [|v vs IH]; [reflexivity|]. cbn [map existsb].
    destruct (Hv v (or_introl eq_refl)) as (x & y & c & r & bx' & H).
    assert (is_curved (g v) = false) as -> by apply H.
    apply IH. intros w Hw. apply Hv. now right.
  - destruct (hull_of_carried vertex_point axis g a b
                (a' + applied_shift shift) (b' + applied_shift shift) vs)
      with (ext := box) as (box' & Hbox' & _ & Hc).
    + intros v Hin_v.
      destruct (Hv v Hin_v) as (x & y & c & r & bx' & _ & _ & _ & _ & Hp & Hi & Hac & Hcb & Hg & _ & Hcar).
      exists (point_extents x y), bx'. rewrite Hi.
      split; [exact Hp|]. split; [exact Hg|]. split; [|exact Hcar].
      unfold inside. cbn [fst snd]. split; lra.
    + exact Hbox.
    + exists box'. split; assumption.
Qed.

(** ** One entity through the mapping and the anchor shift *)

Section Reach.

Variable curve_extents : Entity -> option Extents.

Lemma map_line_ok (s t : Vec3) (mapping : list MappingSegment) (axis : Axis) (rs rt : Q) :
  _map_value (coord axis s) mapping = OK rs ->
  _map_value (coord axis t) mapping = OK rt ->
  map_entity (LINE (Some s) (Some t)) mapping axis
  = (OK tt, LINE (Some (set_coord axis s rs)) (Some (set_coord axis t rt))).
Proof.
  intros Hs Ht. unfold map_entity. cbn -[_map_value]. unfold map_vec.
  rewrite Hs. cbn -[_map_value]. rewrite Ht. reflexivity.
Qed.

Lemma map_point_ok (l : Vec3) (mapping : list MappingSegment) (axis : Axis) (r : Q) :
  _map_value (coord axis l) mapping = OK r ->
  map_entity (POINT (Some l)) mapping axis = (OK tt, POINT (Some (set_coord axis l r))).
Proof.
  intros Hl. unfold map_entity. cbn -[_map_value]. unfold map_vec.
  rewrite Hl. reflexivity.
Qed.

Lemma map_circle_ok (c : Vec3) (radius : Q) (mapping : list MappingSegment)
  (axis : Axis) (r : Q) :
  _map_value (coord axis c) mapping = OK r ->
  map_entity (CIRCLE (Some c) radius) mapping axis
  = (OK tt, CIRCLE (Some (set_coord axis c r)) radius).
Proof.
  intros Hc. unfold map_entity. cbn -[_map_value]. unfold map_vec.
  rewrite Hc. reflexivity.
Qed.

(** The coordinate on [axis] after the anchor shift. *)
Lemma shifted_coordinate (axis : Axis) (shift : option Q) (v : Vec3) (r : Q) :
  exists r',
    r' == r + applied_shift shift /\
    forall w, coord axis w = r ->
      coord axis (match shift with
                  | Some d => translate_vec axis d w
                  | None => w
                  end) = r'.
Proof.
  destruct shift as [d|]; cbn [applied_shift].
  - exists (r + d). split; [reflexivity|]. intros w <-. unfold translate_vec.
    apply coord_set_coord.
  - exists r. split; [ring|]. auto.
Qed.

Lemma final_entity_carried (mapping : list MappingSegment) (zones : list Zone)
  (axis : Axis) (shift : option Q) (a b a' b' : Q) (e : Entity) :
  maps_onto mapping zones a b a' b' ->
  simple_entity e ->
  Forall (clear_of zones) (mapped_coordinates axis e) ->
  (forall c r, e = CIRCLE (Some c) r ->
               exists z, In z zones /\ zone_type z = Fixed /\
                         a <= start_old z /\ end_old z <= b /\
                         start_old z <= coord axis c - r /\
                         coord axis c + r <= end_old z) ->
  forall box,
    entity_extents curve_extents e = Some box ->
    inside (axis_interval axis box) (a, b) ->
    exists box',
      entity_extents curve_extents (final_entity mapping axis shift e) = Some box' /\
      carried a b (a' + applied_shift shift) (b' + applied_shift shift)
              (axis_interval axis box) (axis_interval axis box').
Proof.
  intros Hmap Hsimple Hclear Hzone box Hbox Hin.
  set (D := applied_shift shift).
  destruct e as [[s|] [t|]|vs|vs| |[c|] radius| |[l|]| |]; try contradiction.
  2, 3: (* LWPOLYLINE, POLYLINE *)
    destruct Hsimple as [Hvs Hstraight];
    cbn [entity_extents] in Hbox;
    rewrite (straight_not_curved _ Hstraight), vertices_extents_hull in Hbox;
    cbn [mapped_coordinates] in Hclear;
    destruct (vertices_carried mapping zones axis shift a b a' b' vs box
                Hmap Hstraight Hclear Hbox Hin) as (Hok & Hcurved & box' & Hbox' & Hcar);
    destruct (final_polyline mapping axis shift vs Hok) as [Hlw Hpl];
    exists box'; split; [|exact Hcar];
    rewrite ?Hlw, ?Hpl; cbn [entity_extents];
    rewrite Hcurved, vertices_extents_hull; exact Hbox'.
  - (* LINE *)
    cbn in Hbox. injection Hbox as <-.
    rewrite axis_interval_union, !axis_interval_vec in Hin |- *.
    destruct (point_inside_hull _ _ _ _ Hin) as [[Hs1 Hs2] [Ht1 Ht2]].
    cbn [mapped_coordinates] in Hclear.
    inversion Hclear as [|? ? Cs Hclear']; subst.
    inversion Hclear' as [|? ? Ct _]; subst.
    destruct (Hmap _ Hs1 Hs2 Cs) as (rs & Ers & S1 & S2 & S3 & S4 & _).
    destruct (Hmap _ Ht1 Ht2 Ct) as (rt & Ert & T1 & T2 & T3 & T4 & _).
    unfold final_entity. rewrite (map_line_ok _ _ _ _ _ _ Ers Ert). cbn [snd].
    destruct (shifted_coordinate axis shift s rs) as (rs' & Es & Hs').
    destruct (shifted_coordinate axis shift t rt) as (rt' & Et & Ht').
    fold D in Es, Et.
    exists (union_extents
              (vec_extents (match shift with
                            | Some d => translate_vec axis d (set_coord axis s rs)
                            | None => set_coord axis s rs end))
              (vec_extents (match shift with
                            | Some d => translate_vec axis d (set_coord axis t rt)
                            | None => set_coord axis t rt end))).
    split; [destruct shift; reflexivity|].
    rewrite axis_interval_union, !axis_interval_vec.
    rewrite (Hs' _ (coord_set_coord _ _ _)), (Ht' _ (coord_set_coord _ _ _)).
    apply carried_hull.
    + unfold inside. cbn [fst snd]. split; lra.
    + unfold inside. cbn [fst snd]. split; lra.
    + apply carried_point; lra.
    + apply carried_point; lra.
  - (* CIRCLE *)
    cbn in Hsimple. cbn in Hbox. injection Hbox as <-.
    rewrite circle_interval in Hin |- *. destruct Hin as [Hlo Hhi]. cbn [fst snd] in Hlo, Hhi.
    destruct (Hzone c radius eq_refl) as (z & Hz & Hfix & Za & Zb & Z1 & Z2).
    cbn [mapped_coordinates] in Hclear. inversion Hclear as [|? ? Cc _]; subst.
    destruct (Hmap (coord axis c)) as (rc & Erc & _ & _ & _ & _ & Hblock);
      [lra|lra|exact Cc|].
    destruct (Hblock z Hz Hfix) as (s' & Es' & B1 & B2 & B3 & B4); [lra|lra|].
    unfold final_entity. rewrite (map_circle_ok _ _ _ _ _ Erc). cbn [snd].
    destruct (shifted_coordinate axis shift c rc) as (rc' & Ec & Hc'). fold D in Ec.
    set (c' := match shift with
               | Some d => translate_vec axis d (set_coord axis c rc)
               | None => set_coord axis c rc end).
    exists (mkExtents (vx c' - radius) (vx c' + radius) (vy c' - radius) (vy c' + radius)).
    split; [unfold c'; destruct shift; reflexivity|].
    rewrite circle_interval.
    assert (Ecc : coord axis c' = rc') by (apply Hc', coord_set_coord).
    rewrite Ecc. unfold carried. cbn [fst snd].
    split; [lra|]. split; [lra|]. split; lra.
  - (* POINT *)
    cbn in Hbox. injection Hbox as <-.
    rewrite axis_interval_vec in Hin |- *. destruct Hin as [Hl1 Hl2]. cbn [fst snd] in *.
    cbn [mapped_coordinates] in Hclear. inversion Hclear as [|? ? Cl _]; subst.
    destruct (Hmap _ Hl1 Hl2 Cl) as (r & Er & L1 & L2 & L3 & L4 & _).
    unfold final_entity. rewrite (map_point_ok _ _ _ _ Er). cbn [snd].
    destruct (shifted_coordinate axis shift l r) as (r' & Erl & Hl').
    fold D in Erl.
    exists (vec_extents (match shift with
                         | Some d => translate_vec axis d (set_coord axis l r)
                         | None => set_coord axis l r end)).
    split; [destruct shift; reflexivity|].
    rewrite axis_interval_vec, (Hl' _ (coord_set_coord _ _ _)).
    apply carried_point; lra.
Qed.

End Reach.

(** ** The stretched drawing reaches the target length *)

Lemma shifted_final (mapping : list MappingSegment) (axis : Axis) (shift : option Q)
  (msp : list Entity) :
  shifted axis shift (apply_mapping_doc mapping axis msp)
  = map (final_entity mapping axis shift) msp.
Proof.
  unfold shifted, apply_mapping_doc, final_entity. destruct shift as [d|].
  - rewrite map_map. reflexivity.
  - reflexivity.
Qed.

Lemma anchor_shift_total (bounds : Q * Q) (mapping : list MappingSegment)
  (anchor : string) :
  mapping <> [] -> exists shift, anchor_shift bounds mapping anchor = OK shift.
Proof.
  intro H. unfold anchor_shift.
  destruct (map_value_total (anchor_value_of bounds anchor) mapping H) as [v ->].
  cbn [bind]. destruct (Qltb _ eps6); eexists; reflexivity.
Qed.

Section Target.

Variable curve_extents : Entity -> option Extents.

Lemma simple_entity_box (axis : Axis) (e : Entity) :
  simple_entity e ->
  exists box,
    entity_extents curve_extents e = Some box /\
    fst (axis_interval axis box) <= snd (axis_interval axis box).
Proof.
  destruct e as [[s|] [t|]|vs|vs| |[c|] radius| |[l|]| |]; try contradiction.
  2, 3: intros [Hne Hstraight]; cbn [entity_extents];
    rewrite (straight_not_curved _ Hstraight); now apply straight_vertices_box.
  all: cbn; intro H; eexists; (split; [reflexivity|]).
  - rewrite axis_interval_union, !axis_interval_vec. unfold hull. cbn [fst snd].
    pose proof (pymin_l (coord axis s) (coord axis t)).
    pose proof (pymax_l (coord axis s) (coord axis t)). lra.
  - rewrite circle_interval. cbn [fst snd]. lra.
  - rewrite axis_interval_vec. cbn [fst snd]. lra.
Qed.

Lemma circle_in_fixed_zone (msp : list Entity) (axis : Axis) (a b : Q)
  (c : Vec3) (r : Q) :
  a <= b -> In (CIRCLE (Some c) r) msp -> 0 < r ->
  a <= coord axis c - r -> coord axis c + r <= b ->
  exists z,
    In z (zones_of_intervals a b (fixed_intervals curve_extents msp axis a b)) /\
    zone_type z = Fixed /\ a <= start_old z /\ end_old z <= b /\
    start_old z <= coord axis c - r /\ coord axis c + r <= end_old z.
Proof.
  intros Hab Hin Hr Hlo Hhi.
  set (iv := (pymax a (coord axis c - r), pymin b (coord axis c + r))).
  assert (E1 : fst iv == coord axis c - r).
  { unfold iv. cbn [fst]. destruct (pymax_spec a (coord axis c - r)) as [[? ->]|[? ->]]; lra. }
  assert (E2 : snd iv == coord axis c + r).
  { unfold iv. cbn [snd]. destruct (pymin_spec b (coord axis c + r)) as [[? ->]|[? ->]]; lra. }
  assert (Hiv : In iv (fixed_intervals curve_extents msp axis a b)).
  { unfold fixed_intervals. apply in_flat_map. exists (CIRCLE (Some c) r).
    split; [exact Hin|].
    assert (_is_fixed_entity (CIRCLE (Some c) r) = true) as -> by reflexivity.
    unfold _entity_interval. cbn [entity_extents]. rewrite circle_interval.
    unfold clip_interval. cbn [fst snd]. fold iv.
    assert (Qltb (fst iv) (snd iv) = true) as E by (apply Qltb_lt; lra).
    unfold iv in E at 1 2. cbn [fst snd] in E. rewrite E. now left. }
  destruct (zones_of_intervals_fixed a b _ iv (fixed_intervals_within _ _ _ _ _) Hiv)
    as (z & Hz & Hfix & Z1 & Z2).
  pose proof (zones_of_intervals_sequence a b _ Hab
                (fixed_intervals_within curve_extents msp axis a b)) as (_ & Hch & _).
  destruct (chained_in _ _ _ _ Hch Hz) as [Za Zb].
  exists z. repeat split; try assumption; lra.
Qed.

(** C1 (amended).  Take a freshly loaded drawing of lines, points, straight
    polylines and circles whose zone sequence has a positive stretch total
    and no zone shorter than 1e-9, no remapped coordinate lying within 1e-9
    after an interior zone boundary.  For every target length not below the
    total length of the fixed zones, [stretch] succeeds and the bounding
    extent of the resulting drawing on the chosen axis equals the target
    length. *)
Theorem stretch_reaches_target (msp : list Entity) (p0 p : DxfProcessor)
  (info : DxfInfo) (axis : Axis) (ext : Extents) (target_length : Q) (anchor : string) :
  load curve_extents msp p0 = (OK info, p) ->
  extents p = Some ext ->
  Forall simple_entity msp ->
  let zones := compute_zones curve_extents msp axis (axis_interval axis ext) in
  0 < stretch_total zones ->
  total fixed_part zones <= target_length ->
  Forall (fun z => eps9 < Zone_length z) zones ->
  Forall (fun e => Forall (clear_of zones) (mapped_coordinates axis e)) msp ->
  exists r p' msp' ext',
    stretch curve_extents target_length axis anchor p = (OK r, p') /\
    last_doc p' = Some msp' /\
    extents_of curve_extents msp' = Some ext' /\
    axis_size axis ext' == target_length /\
    Qabs (axis_size axis ext' - target_length) < eps6.
Proof.
  intros Hload Hext Hsimple zones Hst Hfix Hlen Hclear.
  destruct (load_ok _ _ _ _ _ Hload) as (ext0 & Hext0 & -> & _).
  cbn [extents] in Hext. injection Hext as ->.
  destruct (axis_interval axis ext) as [a b] eqn:Eab.
  (* the drawing is not empty and its range is well formed *)
  assert (Hab : a <= b).
  { destruct msp as [|e msp]; [discriminate|].
    inversion Hsimple as [|? ? He _]; subst.
    destruct (simple_entity_box axis e He) as (box & Hbox & Hle).
    pose proof (extents_of_inside curve_extents axis _ _ e box Hext0
                  (or_introl eq_refl) Hbox) as [I1 I2].
    rewrite Eab in I1, I2. cbn [fst snd] in I1, I2. lra. }
  assert (Ezones : zones
                   = zones_of_intervals a b (fixed_intervals curve_extents msp axis a b)).
  { unfold zones, compute_zones.
    destruct (Qltb b a) eqn:E; qprop; [lra|reflexivity]. }
  pose proof (zones_of_intervals_sequence a b _ Hab
                (fixed_intervals_within curve_extents msp axis a b)) as Hseq.
  rewrite <- Ezones in Hseq.
  pose proof Hseq as (Hne & Hch & _).
  assert (Hsize : axis_size axis ext == b - a).
  { rewrite axis_size_interval, Eab. reflexivity. }
  assert (Hpos : 0 < b - a).
  { pose proof (total_length_chained _ _ _ Hch) as T1.
    pose proof (total_parts zones) as T2.
    pose proof (stretch_total_sum zones) as T3.
    assert (0 <= total fixed_part zones).
    { clear. induction zones as [|z l IH]; cbn [total]; [lra|].
      unfold fixed_part at 1. pose proof (Zone_length_nonneg z).
      destruct (is_stretch _); lra. }
    lra. }
  rewrite stretch_run by apply cache_clear_get. rewrite Eab. fold zones.
  assert (Qeq_bool (axis_size axis ext) 0 = false) as ->.
  { apply Qeq_bool_false. rewrite Hsize. lra. }
  destruct (Qeq_bool (axis_size axis ext) target_length) eqn:Et; qprop.
  { (* nothing to do *)
    exists None. eexists. exists msp, ext. split; [reflexivity|].
    split; [reflexivity|]. split; [exact Hext0|]. split; [exact Et|].
    apply Qabs_lt_iff. qlra. }
  destruct (build_mapping_on (a, b) zones target_length) as [mapping|e] eqn:Eb.
  2: { rewrite build_mapping_on_ok in Eb by (intros [? _]; lra). discriminate. }
  assert (Hmne : mapping <> []).
  { apply build_mapping_on_inv in Eb. subst mapping.
    destruct zones; [now contradiction Hne|discriminate]. }
  destruct (anchor_shift_total (a, b) mapping anchor Hmne) as [shift Eshift].
  cbv zeta. rewrite Eshift, shifted_final.
  pose proof (build_mapping_maps_onto a b target_length zones mapping
                Hseq Hlen Hst Hfix Eb) as Hmap.
  destruct (extents_carried curve_extents axis (final_entity mapping axis shift)
              a b (a + applied_shift shift) (a + target_length + applied_shift shift) msp)
    with (ext := ext) as (ext' & Hext' & _ & Hcar).
  { intros e He. rewrite Forall_forall in Hsimple, Hclear.
    destruct (simple_entity_box axis e (Hsimple e He)) as (box & Hbox & _).
    pose proof (extents_of_inside curve_extents axis _ _ e box Hext0 He Hbox) as Hin.
    rewrite Eab in Hin.
    destruct (final_entity_carried curve_extents mapping zones axis shift a b a
                (a + target_length) e Hmap (Hsimple e He) (Hclear e He))
      with (box := box) as (box' & Hbox' & Hc); try assumption.
    - intros c r ->. rewrite Ezones. destruct Hin as [I1 I2].
      cbn in Hbox. injection Hbox as <-.
      rewrite circle_interval in I1, I2. cbn [fst snd] in I1, I2.
      apply circle_in_fixed_zone; try assumption. exact (Hsimple _ He).
    - exists box, box'. split; [exact Hbox|]. split; [exact Hbox'|].
      split; [exact Hin|exact Hc]. }
  { exact Hext0. }
  rewrite Eab in Hcar. destruct Hcar as (_ & _ & C3 & C4). cbn [fst snd] in C3, C4.
  exists (Some (map (final_entity mapping axis shift) msp)). eexists.
  exists (map (final_entity mapping axis shift) msp), ext'.
  split; [reflexivity|]. split; [reflexivity|]. split; [exact Hext'|].
  assert (Hres : axis_size axis ext' == target_length).
  { rewrite axis_size_interval.
    specialize (C3 (Qeq_refl a)). specialize (C4 (Qeq_refl b)). lra. }
  split; [exact Hres|]. apply Qabs_lt_iff. qlra.
Qed.

End Target.

(** ** Reference Matcher *)

Lemma extract_arc_info_measured (entity : Entity) (a : ArcInfo.t) :
  _extract_arc_info entity = Some a -> arc_measured a.
Proof.
  destruct entity; try discriminate. destruct center as [c|]; [|discriminate].
  cbn -[radians math_pi]. intro H. injection H as <-.
  unfold arc_measured, angular_span. cbn -[radians math_pi Qltb].
  destruct (Qltb (radians end_angle) (radians start_angle)); ring.
Qed.

Lemma collect_arcs_measured (msp : list Entity) :
  Forall arc_measured (collect_arcs msp).
Proof.
  unfold collect_arcs. induction msp as [|e msp IH]; cbn -[_extract_arc_info];
    [constructor|].
  apply Forall_app. split; [|exact IH].
  destruct (String.eqb (dxftype e) "ARC"); [|constructor].
  destruct (_extract_arc_info e) eqn:E; constructor; [|constructor].
  now apply extract_arc_info_measured with e.
Qed.

Lemma Forall_insert_by_radius (P : ArcInfo.t -> Prop) (a : ArcInfo.t) (l : list ArcInfo.t) :
  P a -> Forall P l -> Forall P (insert_by_radius a l).
Proof.
  intros Ha Hl. induction Hl as [|b l Hb Hl IH]; cbn.
  - constructor; auto.
  - destruct (Qle_bool _ _); repeat constructor; auto.
Qed.

Lemma Forall_sort_by_radius (P : ArcInfo.t -> Prop) (l : list ArcInfo.t) :
  Forall P l -> Forall P (sort_by_radius l).
Proof.
  induction 1; cbn; [constructor|]. now apply Forall_insert_by_radius.
Qed.

Lemma dict_set_Forall {V : Type} (P : string * V -> Prop) (k : string) (v : V)
  (d : list (string * V)) :
  P (k, v) -> Forall P d -> Forall P (dict_set k v d).
Proof.
  intros Hv Hd. induction Hd as [|[k1 v1] d H1 Hd IH]; cbn.
  - constructor; auto.
  - destruct (String.eqb k k1); constructor; auto.
Qed.

Lemma dict_get_In {V : Type} (k : string) (v : V) (d : list (string * V)) :
  dict_get k d = Some v -> In (k, v) d.
Proof.
  induction d as [|[k1 v1] d IH]; cbn; [discriminate|].
  destruct (String.eqb k k1) eqn:E.
  - apply String.eqb_eq in E. subst k1. intro H. injection H as <-. now left.
  - intro H. right. now apply IH.
Qed.

Lemma descending_insert (a : ArcInfo.t) (l : list ArcInfo.t) :
  descending l -> descending (insert_by_radius a l).
Proof.
  induction l as [|b l IH]; intro H; cbn -[descending].
  - split; exact I.
  - destruct (Qle_bool (ArcInfo.radius b) (ArcInfo.radius a)) eqn:E; qprop.
    + split; [exact E|exact H].
    + destruct H as [Hb Hl]. specialize (IH Hl). split; [|exact IH].
      destruct l as [|c l]; cbn.
      * lra.
      * destruct (Qle_bool (ArcInfo.radius c) (ArcInfo.radius a)) eqn:E'; qprop;
          [lra|exact Hb].
Qed.

Lemma descending_sort (l : list ArcInfo.t) : descending (sort_by_radius l).
Proof.
  induction l as [|a l IH]; [exact I|]. cbn -[descending]. now apply descending_insert.
Qed.

Section MatcherProperties.

Variable readfile : string -> option (list Entity).

Lemma analyze_base_file_record (file_name : string) (b : BaseInfo.t) :
  _analyze_base_file readfile file_name = Found b -> reference_record b.
Proof.
  unfold _analyze_base_file, and_then.
  destruct (_extract_korpus_number file_name) as [k|]; [|discriminate].
  destruct (readfile file_name) as [msp|]; [|discriminate].
  pose proof (Forall_sort_by_radius _ _ (collect_arcs_measured msp)) as HF.
  pose proof (descending_sort (collect_arcs msp)) as HD.
  destruct (sort_by_radius (collect_arcs msp)) as [|a1 [|a2 l]]; try discriminate.
  intro H. injection H as <-.
  inversion HF as [|? ? H1 HF']; subst. inversion HF' as [|? ? H2 _]; subst.
  split; [split; assumption|]. cbn. apply HD.
Qed.

Lemma analyze_folder_records (base_files : list string) (bases : Bases) :
  analyze_folder readfile base_files = Found bases ->
  Forall (fun kv => reference_record (snd kv)) bases.
Proof.
  assert (G : forall l acc,
             Forall (fun kv : string * BaseInfo.t => reference_record (snd kv)) acc ->
             Forall (fun kv : string * BaseInfo.t => reference_record (snd kv))
                    (fold_left
                       (fun (bases : Bases) base_file =>
                          match _analyze_base_file readfile base_file with
                          | Found base_info =>
                              dict_set (BaseInfo.korpus_number base_info) base_info bases
                          | Failed _ => bases
                          end) l acc)).
  { induction l as [|x l IH]; intros acc Hacc; [exact Hacc|].
    cbn [fold_left]. apply IH.
    destruct (_analyze_base_file readfile x) as [b|] eqn:E; [|exact Hacc].
    apply dict_set_Forall; [|exact Hacc]. now apply analyze_base_file_record with x. }
  unfold analyze_folder. destruct base_files as [|f fs]; [discriminate|].
  specialize (G (f :: fs) [] (Forall_nil _)). cbv beta iota zeta.
  set (res := fold_left _ (f :: fs) []).
  assert (G' : Forall (fun kv : string * BaseInfo.t => reference_record (snd kv)) res)
    by exact G.
  clearbody res. destruct res as [|kv l]; [discriminate|].
  intro H. now injection H as <-.
Qed.

(** C8.  For a work-drawing name whose assembly identifier resolves, [match]
    fails with UnknownAssembly, listing the known identifiers, when the
    registry has no record for it; otherwise it returns the side read from
    the name and, as target length, the outer arc length for the outer side
    and the inner arc length for the inner side.  In every record built by
    the folder analysis an arc length is radius times angular span, the span
    taken with a full turn added when the end angle lies before the start
    angle, and the outer arc is the one of larger radius. *)
Theorem match_radius_to_base_target (bases : Bases) (radius_file : string)
  (current_length : Q) (korpus_number : string) :
  _extract_korpus_number radius_file = Found korpus_number ->
  (dict_get korpus_number bases = None ->
   match_radius_to_base bases radius_file current_length
   = Failed (UnknownAssembly korpus_number (String.concat ", " (dict_keys bases)))) /\
  (forall base_info,
      dict_get korpus_number bases = Some base_info ->
      exists info,
        match_radius_to_base bases radius_file current_length = Found info /\
        RadiusFileInfo.is_outer info = outer_side radius_file /\
        RadiusFileInfo.korpus_number info = korpus_number /\
        RadiusFileInfo.base_info info = base_info /\
        RadiusFileInfo.target_length info
        = if outer_side radius_file
          then ArcInfo.arc_length (BaseInfo.arc1 base_info)
          else ArcInfo.arc_length (BaseInfo.arc2 base_info)) /\
  (forall base_files base_info,
      analyze_folder readfile base_files = Found bases ->
      dict_get korpus_number bases = Some base_info ->
      reference_record base_info).
Proof.
  intro Hk. unfold match_radius_to_base. rewrite Hk. cbn [and_then].
  split; [|split].
  - intros ->. reflexivity.
  - intros base_info ->. eexists. split; [reflexivity|].
    cbn. unfold outer_side. repeat split.
  - intros base_files base_info Ha Hg.
    pose proof (analyze_folder_records _ _ Ha) as HF.
    rewrite Forall_forall in HF. apply (HF (korpus_number, base_info)).
    now apply dict_get_In.
Qed.

End MatcherProperties.

(** ** Width Checker *)

Section WidthProperties.

Variable readfile : string -> option (list Entity).
Variable curve_extents : Entity -> option Extents.

Lemma check_korpus_flags (tolerance : Q) (korpus_num : string) (files : Sides)
  (result : WidthCheckResult.t) :
  check_korpus readfile curve_extents tolerance korpus_num files = Some result ->
  WidthCheckResult.has_both_files result = true ->
  exists outer_path inner_path ow iw,
    WidthCheckResult.outer_file result = Some outer_path /\
    WidthCheckResult.inner_file result = Some inner_path /\
    measure_width readfile curve_extents outer_path = Some ow /\
    measure_width readfile curve_extents inner_path = Some iw /\
    WidthCheckResult.outer_width result = Some ow /\
    WidthCheckResult.inner_width result = Some iw /\
    WidthCheckResult.width_difference result = ow - iw /\
    WidthCheckResult.needs_adjustment result
    = Qltb tolerance (Qabs (WidthCheckResult.width_difference result)).
Proof.
  unfold check_korpus. destruct files as [[fo|] [fi|]]; cbn [outer inner].
  - destruct (measure_width readfile curve_extents fo) as [ow|] eqn:Eo; [|discriminate].
    destruct (measure_width readfile curve_extents fi) as [iw|] eqn:Ei; [|discriminate].
    intros H _. injection H as <-. cbn. exists fo, fi, ow, iw. repeat split; assumption.
  - destruct (measure_width readfile curve_extents fo); [|discriminate].
    intros H. injection H as <-. cbn. discriminate.
  - destruct (measure_width readfile curve_extents fi); [|discriminate].
    intros H. injection H as <-. cbn. discriminate.
  - intros H. injection H as <-. cbn. discriminate.
Qed.

(** C9.  In every result of the width check that has both an outer-side and
    an inner-side drawing, the difference is outer width minus inner width,
    and needs_adjustment holds exactly when the absolute difference is
    strictly greater than the tolerance: a difference equal to the tolerance
    is not flagged. *)
Theorem check_widths_flags (listing : list string) (tolerance : Q)
  (result : WidthCheckResult.t) :
  In result (check_widths readfile curve_extents listing tolerance) ->
  WidthCheckResult.has_both_files result = true ->
  exists outer_path inner_path ow iw,
    WidthCheckResult.outer_file result = Some outer_path /\
    WidthCheckResult.inner_file result = Some inner_path /\
    measure_width readfile curve_extents outer_path = Some ow /\
    measure_width readfile curve_extents inner_path = Some iw /\
    WidthCheckResult.outer_width result = Some ow /\
    WidthCheckResult.inner_width result = Some iw /\
    WidthCheckResult.width_difference result = ow - iw /\
    (WidthCheckResult.needs_adjustment result = true <->
     tolerance < Qabs (WidthCheckResult.width_difference result)) /\
    (Qabs (WidthCheckResult.width_difference result) == tolerance ->
     WidthCheckResult.needs_adjustment result = false).
Proof.
  intros Hin Hboth. unfold check_widths in Hin. apply in_flat_map in Hin.
  destruct Hin as (k & _ & Hin).
  destruct (dict_get k _) as [files|]; [|contradiction].
  destruct (check_korpus readfile curve_extents tolerance k files) as [r|] eqn:E;
    [|contradiction].
  destruct Hin as [<-|[]].
  destruct (check_korpus_flags _ _ _ _ E Hboth)
    as (fo & fi & ow & iw & H1 & H2 & H3 & H4 & H5 & H6 & H7 & H8).
  exists fo, fi, ow, iw. repeat (split; [assumption|]).
  rewrite H8. split.
  - apply Qltb_lt.
  - intro Heq. apply Qltb_ge. rewrite Heq. lra.
Qed.

End WidthProperties.

(** * Further properties of [DxfProcessor] *)

(** ** The outcomes of [stretch] on any processor state *)

Lemma zones_of_intervals_nonempty (axis_min axis_max : Q) (intervals : list (Q * Q)) :
  zones_of_intervals axis_min axis_max intervals <> [].
Proof.
  unfold zones_of_intervals.
  destruct (walk_zones axis_min _) as [zones cursor].
  destruct (Qltb cursor axis_max).
  - destruct (zones ++ _) eqn:E; [discriminate|]. discriminate.
  - destruct zones; discriminate.
Qed.

Lemma build_segments_nonempty (st delta a : Q) (zones : list Zone) :
  zones <> [] -> build_segments st delta a zones <> [].
Proof. destruct zones; [congruence|discriminate]. Qed.

Section Outcomes.

Variable curve_extents : Entity -> option Extents.

Lemma compute_zones_nonempty (msp : list Entity) (axis : Axis) (bounds : Q * Q) :
  compute_zones curve_extents msp axis bounds <> [].
Proof. destruct bounds. apply zones_of_intervals_nonempty. Qed.

(** [_get_zones] on a loaded processor: the zones are not empty, and only
    the cache may have changed. *)
Lemma get_zones_loaded (msp : list Entity) (ext : Extents) (cache : ZoneCache)
  (axis : Axis) :
  exists zones cache',
    zones <> [] /\
    _get_zones curve_extents axis (mkProcessor (Some msp) (Some ext) cache)
    = (OK zones, mkProcessor (Some msp) (Some ext) cache').
Proof.
  destruct (cache_get cache axis) as [[|z zs]|] eqn:E.
  - eexists _, _. split; [|unfold _get_zones, bindM, get_self; cbn [zone_cache];
                           rewrite E; reflexivity].
    apply compute_zones_nonempty.
  - exists (z :: zs), cache. split; [discriminate|].
    now apply get_zones_cached.
  - eexists _, _. split; [|now apply get_zones_fresh].
    apply compute_zones_nonempty.
Qed.

(** The pipeline of [stretch] and of [stretch_both_axes] for one axis. *)
Lemma stretch_axis_outcome (msp : list Entity) (ext : Extents) (cache : ZoneCache)
  (target : Q) (axis : Axis) (anchor : string) :
  exists zones cache',
    zones <> [] /\
    stretch_axis curve_extents target axis anchor (mkProcessor (Some msp) (Some ext) cache)
    = match build_mapping_on (axis_interval axis ext) zones target with
      | Err e => (Err e, mkProcessor (Some msp) (Some ext) cache')
      | OK mapping =>
          match anchor_shift (axis_interval axis ext) mapping anchor with
          | Err e =>
              (Err e, mkProcessor (Some (apply_mapping_doc mapping axis msp))
                                  (Some ext) cache')
          | OK shift =>
              (OK tt, mkProcessor (Some (shifted axis shift
                                           (apply_mapping_doc mapping axis msp)))
                                  (Some ext) cache')
          end
      end.
Proof.
  destruct (get_zones_loaded msp ext cache axis) as (zones & cache' & Hne & Hz).
  exists zones, cache'. split; [assumption|].
  unfold stretch_axis. unfold bindM at 1. rewrite Hz.
  unfold bindM at 1. rewrite build_mapping_run.
  destruct (build_mapping_on (axis_interval axis ext) zones target) as [mapping|e];
    [|reflexivity].
  unfold bindM at 1. rewrite apply_mapping_run. rewrite apply_anchor_shift_run.
  destruct (anchor_shift _ mapping anchor) as [[d|]|e]; reflexivity.
Qed.

Lemma stretch_as_axis (target : Q) (axis : Axis) (anchor : string) (p : DxfProcessor) :
  stretch curve_extents target axis anchor p
  = match last_doc p, extents p with
    | Some _, Some ext =>
        if Qeq_bool (axis_size axis ext) 0 then (Err DegenerateAxis, p)
        else if Qeq_bool (axis_size axis ext) target then (OK None, p)
        else (_ <~ stretch_axis curve_extents target axis anchor ;;
              msp <~ modelspace ;; ret (Some msp)) p
    | _, _ => (Err NotLoaded, p)
    end.
Proof.
  unfold stretch. unfold bindM at 1. unfold get_self at 1.
  destruct (last_doc p); [|reflexivity]. destruct (extents p) as [ext|]; [|reflexivity].
  destruct (Qeq_bool (axis_size axis ext) 0); [reflexivity|].
  destruct (Qeq_bool (axis_size axis ext) target); [reflexivity|].
  unfold stretch_axis, bindM.
  destruct (_get_zones curve_extents axis p) as [[zones|e] p1]; [|reflexivity].
  destruct (_build_mapping zones axis target p1) as [[mapping|e] p2]; [|reflexivity].
  destruct (_apply_mapping mapping axis p2) as [[[]|e] p3]; [|reflexivity].
  destruct (_apply_anchor_shift mapping axis anchor p3) as [[[]|e] p4]; reflexivity.
Qed.



End Outcomes.

Section StretchOutcomes.

Variable curve_extents : Entity -> option Extents.


(** X2.  After a successful stretch of a freshly loaded drawing the
    processor still records the extents of the drawing as loaded, and the
    Zone Segmenter keeps answering with the zones of the drawing as loaded:
    neither is refreshed from the stretched document. *)
Theorem stretch_leaves_stale_measurements (msp msp' : list Entity)
  (p0 p p' : DxfProcessor) (info : DxfInfo) (target : Q) (axis : Axis) (anchor : string) :
  load curve_extents msp p0 = (OK info, p) ->
  stretch curve_extents target axis anchor p = (OK (Some msp'), p') ->
  exists ext,
    extents_of curve_extents msp = Some ext /\
    extents p' = Some ext /\
    last_doc p' = Some msp' /\
    _get_zones curve_extents axis p'
    = (OK (compute_zones curve_extents msp axis (axis_interval axis ext)), p').
Proof.
  intros Hl Hs. rewrite load_run in Hl.
  destruct (extents_of curve_extents msp) as [ext|]; [|discriminate].
  injection Hl as _ <-. exists ext. split; [reflexivity|].
  rewrite (stretch_run curve_extents msp ext cache_clear target axis anchor
             (cache_clear_get axis)) in Hs.
  destruct (Qeq_bool (axis_size axis ext) 0); [discriminate|].
  destruct (Qeq_bool (axis_size axis ext) target); [discriminate|].
  destruct (build_mapping_on _ _ target) as [mapping|e]; [|discriminate].
  destruct (anchor_shift _ mapping anchor) as [shift|e]; [|discriminate].
  injection Hs as <- <-. cbn [extents last_doc]. repeat split.
  pose proof (compute_zones_nonempty curve_extents msp axis (axis_interval axis ext)) as Hne.
  destruct (compute_zones curve_extents msp axis (axis_interval axis ext)) as [|z zs] eqn:Ez;
    [congruence|].
  apply get_zones_cached. cbn [zone_cache]. destruct axis; reflexivity.
Qed.

(** X3.  [stretch] never rejects a target length: on a freshly loaded
    drawing whose extent on the axis is not zero and whose stretch zones
    have a positive total length it succeeds for every target, zero and
    negative ones included. *)
Theorem stretch_accepts_any_target (msp : list Entity) (p0 p : DxfProcessor)
  (info : DxfInfo) (ext : Extents) (target : Q) (axis : Axis) (anchor : string) :
  load curve_extents msp p0 = (OK info, p) ->
  extents p = Some ext ->
  ~ axis_size axis ext == 0 ->
  0 < stretch_total (compute_zones curve_extents msp axis (axis_interval axis ext)) ->
  exists r p', stretch curve_extents target axis anchor p = (OK r, p').
Proof.
  intros Hl He Hsize Hst. rewrite load_run in Hl.
  destruct (extents_of curve_extents msp) as [ext'|]; [|discriminate].
  injection Hl as _ <-. cbn [extents] in He. injection He as ->.
  rewrite (stretch_run curve_extents msp ext cache_clear target axis anchor
             (cache_clear_get axis)).
  apply Qeq_bool_false in Hsize. rewrite Hsize.
  destruct (Qeq_bool (axis_size axis ext) target); [eexists _, _; reflexivity|].
  rewrite build_mapping_on_ok by (intros [H _]; lra).
  set (mapping := build_segments _ _ _ _).
  destruct (anchor_shift_total (axis_interval axis ext) mapping anchor) as [shift ->].
  { apply build_segments_nonempty. apply compute_zones_nonempty. }
  eexists _, _; reflexivity.
Qed.

End StretchOutcomes.

(** ** Only the coordinates on the stretched axis change *)

Lemma erase_set_coord (axis : Axis) (v : Vec3) (c : Q) :
  erase_vec axis (set_coord axis v c) = erase_vec axis v.
Proof. destruct axis; reflexivity. Qed.

Lemma erase_set_vertex_coord (axis : Axis) (v : Vertex) (c : Q) :
  erase_vertex axis (set_vertex_coord axis v c) = erase_vertex axis v.
Proof. destruct axis; reflexivity. Qed.

Lemma erase_map_vec (axis : Axis) (mapping : list MappingSegment) (v v' : Vec3) :
  map_vec v mapping axis = OK v' -> erase_vec axis v' = erase_vec axis v.
Proof.
  unfold map_vec. destruct (_map_value _ mapping); [|discriminate].
  cbn [bind]. intro H. injection H as <-. apply erase_set_coord.
Qed.

Lemma erase_map_vertices (axis : Axis) (mapping : list MappingSegment) (vs : list Vertex) :
  map (erase_vertex axis) (snd (map_vertices vs mapping axis)) = map (erase_vertex axis) vs.
Proof.
  induction vs as [|v vs IH]; [reflexivity|]. cbn [map_vertices].
  destruct (c <- attr (vertex_coord axis v) ;; _map_value c mapping) as [c'|err];
    [|reflexivity].
  destruct (map_vertices vs mapping axis) as [r vs']. cbn [snd map] in *.
  now rewrite erase_set_vertex_coord, IH.
Qed.

Lemma erase_map_point3 (axis : Axis) (mapping : list MappingSegment) (pt pt' : list Q) :
  map_point3 pt mapping axis = OK pt' -> erase_point3 axis pt' = erase_point3 axis pt.
Proof.
  destruct pt as [|x [|y [|z [|]]]]; try discriminate.
  destruct axis; cbn [map_point3]; destruct (_map_value _ mapping); try discriminate;
    cbn [bind]; intro H; injection H as <-; reflexivity.
Qed.

Lemma erase_map_points (axis : Axis) (mapping : list MappingSegment)
  (pts pts' : list (list Q)) :
  map_points pts mapping axis = OK pts' ->
  map (erase_point3 axis) pts' = map (erase_point3 axis) pts.
Proof.
  revert pts'. induction pts as [|pt pts IH]; intros pts' H.
  - injection H as <-. reflexivity.
  - cbn [map_points] in H.
    destruct (map_point3 pt mapping axis) as [q|] eqn:E; [|discriminate].
    destruct (map_points pts mapping axis) as [qs|]; [|discriminate].
    cbn [bind] in H. injection H as <-. cbn [map].
    now rewrite (erase_map_point3 _ _ _ _ E), (IH qs).
Qed.

Lemma erase_map_entity (axis : Axis) (mapping : list MappingSegment) (e : Entity) :
  erase axis (snd (map_entity e mapping axis)) = erase axis e.
Proof.
  destruct (is_generic e) eqn:G.
  - rewrite map_entity_generic by assumption.
    unfold _map_generic. destruct mapping as [|first rest]; [reflexivity|]. cbn [snd].
    unfold try_transform.
    destruct e; try (vm_compute in G; discriminate); cbn [transform_translate].
    + cbn [bind erase]. unfold translate_vec. now rewrite erase_set_coord.
    + destruct transformable; [|reflexivity].
      cbn [erase]. unfold translate_vec. now rewrite erase_set_coord.
  - destruct e.
    + (* LINE *)
      change (map_entity (LINE start end_) mapping axis)
        with (_map_line (LINE start end_) mapping axis).
      unfold _map_line. destruct start as [s|]; [|reflexivity].
      destruct end_ as [t|]; [|reflexivity]. cbn [attr bind].
      destruct (map_vec s mapping axis) as [s'|] eqn:Es; [|reflexivity].
      destruct (map_vec t mapping axis) as [t'|] eqn:Et; [|reflexivity].
      cbn [bind snd erase option_map].
      now rewrite (erase_map_vec _ _ _ _ Es), (erase_map_vec _ _ _ _ Et).
    + change (map_entity (LWPOLYLINE vertices) mapping axis)
        with (_map_polyline (LWPOLYLINE vertices) mapping axis).
      unfold _map_polyline. pose proof (erase_map_vertices axis mapping vertices) as H.
      destruct (map_vertices vertices mapping axis) as [r vs']. cbn [snd erase] in *.
      now rewrite H.
    + change (map_entity (POLYLINE vertices) mapping axis)
        with (_map_polyline (POLYLINE vertices) mapping axis).
      unfold _map_polyline. pose proof (erase_map_vertices axis mapping vertices) as H.
      destruct (map_vertices vertices mapping axis) as [r vs']. cbn [snd erase] in *.
      now rewrite H.
    + change (map_entity (SPLINE control_points fit_points knot_values) mapping axis)
        with (_map_spline (SPLINE control_points fit_points knot_values) mapping axis).
      unfold _map_spline.
      assert (C : match (match control_points with
                         | Some points =>
                             new_ctrl <- map_points points mapping axis ;; OK (Some new_ctrl)
                         | None => OK None
                         end) with
                  | OK ctrl' => option_map (map (erase_point3 axis)) ctrl'
                                = option_map (map (erase_point3 axis)) control_points
                  | Err _ => True
                  end).
      { destruct control_points as [pts|]; [|reflexivity].
        destruct (map_points pts mapping axis) as [pts'|] eqn:E; [|exact I].
        cbn [bind option_map]. now rewrite (erase_map_points _ _ _ _ E). }
      destruct (match control_points with Some _ => _ | None => _ end) as [ctrl'|];
        [|reflexivity].
      destruct fit_points as [[|pt pts]|]; cbn [snd erase]; try now rewrite C.
      destruct (map_points (pt :: pts) mapping axis) as [fit'|] eqn:E;
        cbn [snd erase option_map]; rewrite C; [|reflexivity].
      now rewrite (erase_map_points _ _ _ _ E).
    + change (map_entity (CIRCLE center radius) mapping axis)
        with (_map_circle_arc (CIRCLE center radius) mapping axis).
      unfold _map_circle_arc. destruct center as [c|]; [|reflexivity]. cbn [attr bind].
      destruct (map_vec c mapping axis) as [c'|] eqn:E; [|reflexivity].
      cbn [snd erase option_map]. now rewrite (erase_map_vec _ _ _ _ E).
    + change (map_entity (ARC center radius start_angle end_angle) mapping axis)
        with (_map_circle_arc (ARC center radius start_angle end_angle) mapping axis).
      unfold _map_circle_arc. destruct center as [c|]; [|reflexivity]. cbn [attr bind].
      destruct (map_vec c mapping axis) as [c'|] eqn:E; [|reflexivity].
      cbn [snd erase option_map]. now rewrite (erase_map_vec _ _ _ _ E).
    + change (map_entity (POINT location) mapping axis)
        with (_map_point (POINT location) mapping axis).
      unfold _map_point. destruct location as [l|]; [|reflexivity]. cbn [attr bind].
      destruct (map_vec l mapping axis) as [l'|] eqn:E; [|reflexivity].
      cbn [snd erase option_map]. now rewrite (erase_map_vec _ _ _ _ E).
    + vm_compute in G. discriminate.
    + (* OTHER under the name of a known kind *)
      unfold map_entity. cbn [dxftype].
      destruct (String.eqb dxftype_name "LINE"); [reflexivity|].
      destruct (mem dxftype_name ["LWPOLYLINE"; "POLYLINE"]%string); [reflexivity|].
      destruct (String.eqb dxftype_name "SPLINE"); [reflexivity|].
      destruct (mem dxftype_name ["CIRCLE"; "ARC"]%string); [reflexivity|].
      destruct (String.eqb dxftype_name "POINT"); [reflexivity|].
      unfold _map_generic. destruct mapping as [|first rest]; [reflexivity|].
      cbn [snd]. unfold try_transform. cbn [transform_translate].
      destruct transformable; [|reflexivity].
      cbn [erase]. unfold translate_vec. now rewrite erase_set_coord.
Qed.

Lemma erase_translate_vertices (axis : Axis) (d : Q) (vs vs' : list Vertex) :
  traverse (translate_vertex axis d) vs = OK vs' ->
  map (erase_vertex axis) vs' = map (erase_vertex axis) vs.
Proof.
  revert vs'. induction vs as [|v vs IH]; intros vs' H.
  - injection H as <-. reflexivity.
  - cbn [traverse] in H. unfold translate_vertex at 1 in H.
    destruct (vertex_coord axis v) as [c|]; [|discriminate]. cbn [attr bind] in H.
    destruct (traverse (translate_vertex axis d) vs) as [ws|]; [|discriminate].
    cbn [bind] in H. injection H as <-. cbn [map].
    now rewrite erase_set_vertex_coord, (IH ws).
Qed.

Lemma erase_translate_points (axis : Axis) (d : Q) (o o' : option (list (list Q))) :
  traverse_opt (translate_point3 axis d) o = OK o' ->
  option_map (map (erase_point3 axis)) o' = option_map (map (erase_point3 axis)) o.
Proof.
  destruct o as [pts|]; cbn [traverse_opt]; [|intro H; injection H as <-; reflexivity].
  destruct (traverse (translate_point3 axis d) pts) as [pts'|] eqn:E; [|discriminate].
  cbn [bind]. intro H. injection H as <-. cbn [option_map]. f_equal.
  revert pts' E. induction pts as [|pt pts IH]; intros pts' E.
  - injection E as <-. reflexivity.
  - cbn [traverse] in E.
    destruct (translate_point3 axis d pt) as [q|] eqn:Eq; [|discriminate].
    destruct (traverse (translate_point3 axis d) pts) as [qs|]; [|discriminate].
    cbn [bind] in E. injection E as <-. cbn [map]. rewrite (IH qs eq_refl). f_equal.
    destruct pt as [|x [|y [|z [|]]]]; try discriminate.
    destruct axis; injection Eq as <-; reflexivity.
Qed.

Lemma erase_try_transform (axis : Axis) (d : Q) (e : Entity) :
  erase axis (try_transform axis d e) = erase axis e.
Proof.
  unfold try_transform.
  destruct (transform_translate axis d e) as [e'|] eqn:E; [|reflexivity].
  destruct e; cbn [transform_translate] in E.
  - destruct start as [s|]; [|discriminate]. destruct end_ as [t|]; [|discriminate].
    injection E as <-. cbn [erase option_map]. unfold translate_vec.
    now rewrite !erase_set_coord.
  - destruct (traverse _ vertices) as [vs'|] eqn:Ev; [|discriminate].
    injection E as <-. cbn [erase]. now rewrite (erase_translate_vertices _ _ _ _ Ev).
  - destruct (traverse _ vertices) as [vs'|] eqn:Ev; [|discriminate].
    injection E as <-. cbn [erase]. now rewrite (erase_translate_vertices _ _ _ _ Ev).
  - destruct (traverse_opt _ control_points) as [c'|] eqn:Ec; [|discriminate].
    destruct (traverse_opt _ fit_points) as [f'|] eqn:Ef; [|discriminate].
    injection E as <-. cbn [erase].
    now rewrite (erase_translate_points _ _ _ _ Ec), (erase_translate_points _ _ _ _ Ef).
  - destruct center as [c|]; [|discriminate]. injection E as <-.
    cbn [erase option_map]. unfold translate_vec. now rewrite erase_set_coord.
  - destruct center as [c|]; [|discriminate]. injection E as <-.
    cbn [erase option_map]. unfold translate_vec. now rewrite erase_set_coord.
  - destruct location as [l|]; [|discriminate]. injection E as <-.
    cbn [erase option_map]. unfold translate_vec. now rewrite erase_set_coord.
  - injection E as <-. cbn [erase]. unfold translate_vec. now rewrite erase_set_coord.
  - destruct transformable; [|discriminate]. injection E as <-.
    cbn [erase]. unfold translate_vec. now rewrite erase_set_coord.
Qed.

Lemma erase_shifted (axis : Axis) (shift : option Q) (msp : list Entity) :
  map (erase axis) (shifted axis shift msp) = map (erase axis) msp.
Proof.
  destruct shift as [d|]; [|reflexivity]. unfold shifted. rewrite map_map.
  apply map_ext. intro e. apply erase_try_transform.
Qed.

Lemma erase_apply_mapping_doc (axis : Axis) (mapping : list MappingSegment)
  (msp : list Entity) :
  map (erase axis) (apply_mapping_doc mapping axis msp) = map (erase axis) msp.
Proof.
  unfold apply_mapping_doc. rewrite map_map. apply map_ext. intro e.
  apply erase_map_entity.
Qed.

Section Frame.

Variable curve_extents : Entity -> option Extents.

(** X4.  A successful stretch along one axis changes nothing but
    coordinates on that axis: the saved drawing has the same entities in
    the same order, of the same kinds, with the same off-axis coordinates,
    radii, angles, bulges and knots as the drawing before the call. *)
Theorem stretch_changes_one_axis_only (target : Q) (axis : Axis) (anchor : string)
  (p p' : DxfProcessor) (msp msp' : list Entity) :
  last_doc p = Some msp ->
  stretch curve_extents target axis anchor p = (OK (Some msp'), p') ->
  map (erase axis) msp' = map (erase axis) msp.
Proof.
  intros Hd Hs.
  destruct (stretch_result curve_extents _ _ _ _ _ _ Hs)
    as (msp0 & ext & zones & mapping & shift & Hd' & _ & _ & _ & -> & _).
  rewrite Hd in Hd'. injection Hd' as <-.
  now rewrite erase_shifted, erase_apply_mapping_doc.
Qed.

End Frame.

(** ** The Coordinate Mapper at and beyond the ends of the range *)

Lemma find_segment_outside (zones : list Zone) (a b v : Q) :
  forall segs,
    map seg_zone segs = zones -> chained a zones b ->
    v < a - eps9 \/ b + eps9 < v ->
    find_segment v segs = None.
Proof.
  revert a. induction zones as [|z zones IH]; intros a segs Hz Hch Hv.
  - destruct segs; [reflexivity|discriminate].
  - destruct segs as [|seg segs]; [discriminate|]. cbn [map] in Hz.
    injection Hz as Hz1 Hz2. destruct Hch as (Hs & Hse & Hch).
    pose proof (chained_le _ _ _ Hch) as Hle.
    assert (Hrest : find_segment v segs = None).
    { apply (IH (end_old z)); [assumption|assumption|].
      destruct Hv; [left; lra|now right]. }
    cbn [find_segment]. rewrite Hz1.
    destruct (Qltb v (start_old z - eps9)) eqn:E1; [exact Hrest|].
    destruct (Qle_bool v (end_old z + eps9)) eqn:E2; [|exact Hrest].
    exfalso. apply Qltb_ge in E1. apply Qle_bool_iff in E2. destruct Hv; lra.
Qed.

Lemma rev_last_ends (segs : list MappingSegment) :
  forall a a' last l,
    rev segs = last :: l ->
    end_old last = old_end a segs /\ end_new last = new_end a' segs.
Proof.
  induction segs as [|s rest IH]; intros a a' last l H; [discriminate|].
  cbn [rev] in H. cbn [old_end new_end]. destruct rest as [|x rest'].
  - cbn in H. injection H as <- _. split; reflexivity.
  - destruct (rev (x :: rest')) as [|l0 l1] eqn:E.
    + apply (f_equal (@List.length _)) in E. rewrite length_rev in E. discriminate.
    + cbn [app] in H. injection H as <- _. now apply (IH _ _ l0 l1).
Qed.

(** X5.  In a mapping built over a zone sequence with a positive stretch
    total, a coordinate more than 1e-9 outside [axis_min, axis_max], on
    either side, is not scaled: it is translated by
    delta = target_length - (axis_max - axis_min).  In particular a
    coordinate left of the range moves although [axis_min] itself does
    not. *)
Theorem map_value_outside_the_range (axis_min axis_max target_length v : Q)
  (zones : list Zone) (mapping : list MappingSegment) :
  zone_sequence axis_min axis_max zones ->
  0 < stretch_total zones ->
  build_mapping_on (axis_min, axis_max) zones target_length = OK mapping ->
  v < axis_min - eps9 \/ axis_max + eps9 < v ->
  exists r,
    _map_value v mapping = OK r /\
    r == v + (target_length - (axis_max - axis_min)).
Proof.
  intros (Hne & Hch & _) Hst Hb Hv.
  apply build_mapping_on_inv in Hb. cbn [fst snd] in Hb.
  assert (Hz : map seg_zone mapping = zones) by (subst mapping; apply build_segments_zones).
  unfold _map_value. rewrite (find_segment_outside zones axis_min axis_max v mapping Hz Hch Hv).
  destruct (rev mapping) as [|last l] eqn:E.
  - apply (f_equal (@rev _)) in E. rewrite rev_involutive in E. cbn in E.
    rewrite E in Hz. cbn in Hz. now contradiction Hne.
  - eexists. split; [reflexivity|].
    destruct (rev_last_ends mapping axis_min axis_min last l E) as [-> ->].
    subst mapping. rewrite (build_segments_old_end _ _ _ _ _ _ Hch).
    rewrite build_segments_new_end, (build_segments_total _ _ _ _ Hch Hst). ring.
Qed.

Lemma map_value_axis_min (axis_min axis_max target : Q) (zones : list Zone)
  (mapping : list MappingSegment) :
  zone_sequence axis_min axis_max zones ->
  build_mapping_on (axis_min, axis_max) zones target = OK mapping ->
  exists r, _map_value axis_min mapping = OK r /\ r == axis_min.
Proof.
  intros (Hne & Hch & _) Hb. apply build_mapping_on_inv in Hb. cbn [fst snd] in Hb.
  destruct zones as [|z zones]; [now contradiction Hne|].
  destruct Hch as (Hs & Hse & _). subst mapping. cbn [build_segments].
  unfold _map_value. cbn [find_segment seg_zone start_new end_new].
  assert (Qltb axis_min (start_old z - eps9) = false) as -> by (apply Qltb_ge; qlra).
  assert (Qle_bool axis_min (end_old z + eps9) = true) as ->
      by (apply Qle_bool_iff; qlra).
  destruct (Qltb (Zone_length z) eps9) eqn:E.
  - eexists. split; [reflexivity|]. lra.
  - eexists. split; [reflexivity|]. apply Qltb_ge in E.
    setoid_replace (axis_min - start_old z) with 0 by lra.
    field. qlra.
Qed.

(** X6.  With the anchor [start], and with any anchor name the code does
    not know, the Anchor Re-positioner never moves anything: a mapping
    built over a zone sequence sends [axis_min] to itself, the shift is
    zero and the method returns before touching an entity. *)
Theorem start_anchor_needs_no_shift (msp : list Entity) (ext : Extents)
  (cache : ZoneCache) (axis : Axis) (target_length : Q) (zones : list Zone)
  (mapping : list MappingSegment) (anchor : string) :
  zone_sequence (fst (axis_interval axis ext)) (snd (axis_interval axis ext)) zones ->
  build_mapping_on (axis_interval axis ext) zones target_length = OK mapping ->
  anchor <> "center"%string ->
  ~ In anchor ["end"; "top"; "right"]%string ->
  let p := mkProcessor (Some msp) (Some ext) cache in
  _apply_anchor_shift mapping axis anchor p = (OK tt, p).
Proof.
  intros Hseq Hb Hc He p. subst p. rewrite apply_anchor_shift_run.
  destruct (axis_interval axis ext) as [axis_min axis_max] eqn:Eb. cbn [fst snd] in Hseq.
  destruct (map_value_axis_min _ _ _ _ _ Hseq Hb) as (r & Hr & Er).
  unfold anchor_shift, anchor_value_of.
  assert (String.eqb anchor "center" = false) as -> by now apply String.eqb_neq.
  assert (mem anchor ["end"; "top"; "right"]%string = false) as ->.
  { unfold mem. cbn [existsb]. 
    destruct (String.eqb_spec anchor "end") as [->|_]; [exfalso; apply He; cbn; auto|].
    destruct (String.eqb_spec anchor "top") as [->|_]; [exfalso; apply He; cbn; auto|].
    destruct (String.eqb_spec anchor "right") as [->|_]; [exfalso; apply He; cbn; auto|].
    reflexivity. }
  rewrite Hr. cbn [bind].
  assert (Qltb (Qabs (axis_min - r)) eps6 = true) as ->; [|reflexivity].
  apply Qltb_lt. apply Qabs_lt_iff. qlra.
Qed.

(** ** When the new intervals are in order *)

Lemma positive_stretch_zone (zones : list Zone) :
  0 < total stretch_part zones ->
  exists z, In z zones /\ zone_type z = Stretch /\ 0 < Zone_length z.
Proof.
  induction zones as [|z zones IH]; cbn [total]; intro H; [lra|].
  destruct (Qlt_le_dec 0 (stretch_part z)) as [L|L].
  - exists z. split; [now left|]. unfold stretch_part in L.
    destruct (zone_type z); cbn [is_stretch] in L; [split; [reflexivity|exact L]|lra].
  - destruct IH as (z' & Hin & Ht & Hl); [lra|].
    exists z'. split; [now right|]. split; assumption.
Qed.

Lemma stretched_length (st delta : Q) (z : Zone) :
  0 < st -> zone_type z = Stretch ->
  new_length st delta z == Zone_length z * ((st + delta) / st).
Proof.
  intros Hst Hz. rewrite (new_length_specified _ _ _ Hst). unfold specified_length.
  rewrite Hz. field. lra.
Qed.

(** X7.  In a mapping built over a zone sequence with a positive stretch
    total, every new interval runs forwards (start_new <= end_new) exactly
    when the target length is at least the total length of the fixed
    zones; below that, some stretch zone is given a negative new length. *)
Theorem new_intervals_run_forwards_iff (axis_min axis_max target_length : Q)
  (zones : list Zone) (mapping : list MappingSegment) :
  zone_sequence axis_min axis_max zones ->
  0 < stretch_total zones ->
  build_mapping_on (axis_min, axis_max) zones target_length = OK mapping ->
  (Forall (fun seg : MappingSegment => start_new seg <= end_new seg) mapping
   <-> total fixed_part zones <= target_length).
Proof.
  intros (Hne & Hch & _) Hst Hb.
  apply build_mapping_on_inv in Hb. cbn [fst snd] in Hb.
  set (st := stretch_total zones) in *.
  set (delta := target_length - (axis_max - axis_min)) in *.
  assert (Hsum : st + delta == target_length - total fixed_part zones).
  { pose proof (total_length_chained _ _ _ Hch) as T1.
    pose proof (total_parts zones) as T2.
    pose proof (stretch_total_sum zones) as T3. fold st in T3. unfold delta. lra. }
  assert (Hz : map seg_zone mapping = zones) by (subst mapping; apply build_segments_zones).
  pose proof (build_segments_lengths st delta zones axis_min) as Hlen.
  rewrite <- Hb in Hlen. rewrite Forall_forall in Hlen.
  split.
  - intro Hall. rewrite Forall_forall in Hall.
    destruct (Qlt_le_dec target_length (total fixed_part zones)) as [L|L]; [|exact L].
    exfalso. destruct (positive_stretch_zone zones) as (z & Hin & Ht & Hl).
    { rewrite <- stretch_total_sum. exact Hst. }
    rewrite <- Hz in Hin. apply in_map_iff in Hin. destruct Hin as (seg & <- & Hin).
    pose proof (Hall seg Hin) as H1. pose proof (Hlen seg Hin) as H2. cbv beta in H2.
    rewrite (stretched_length st delta seg Hst Ht) in H2.
    assert (Hneg : (st + delta) / st < 0).
    { setoid_replace ((st + delta) / st) with (- ((- (st + delta)) * / st)) by (field; lra).
      assert (0 < (- (st + delta)) * / st); [|lra].
      apply Qmult_lt_0_compat; [lra|]. apply Qinv_lt_0_compat. exact Hst. }
    assert (Zone_length seg * ((st + delta) / st) < 0).
    { setoid_replace (Zone_length seg * ((st + delta) / st))
        with (- (Zone_length seg * (- ((st + delta) / st)))) by ring.
      assert (0 < Zone_length seg * (- ((st + delta) / st))); [|lra].
      apply Qmult_lt_0_compat; lra. }
    lra.
  - intro Hfix. apply Forall_forall. intros seg Hin.
    pose proof (Hlen seg Hin) as H2. cbv beta in H2.
    assert (0 <= new_length st delta seg); [|lra].
    destruct (zone_type seg) eqn:Ht.
    + rewrite (stretched_length st delta seg Hst Ht).
      apply Qmult_le_0_compat; [apply Zone_length_nonneg|].
      apply Qle_shift_div_l; [exact Hst|]. lra.
    + rewrite (new_length_fixed _ _ _ Ht). apply Zone_length_nonneg.
Qed.

(** ** A drawing without fixed entities *)

Section Uniform.

Variable curve_extents : Entity -> option Extents.

(** X8.  A freshly loaded drawing without any fixed entity is scaled
    uniformly about [axis_min]: the mapping built for it sends every
    coordinate v of the range (up to the tolerance 1e-9 at both ends) to
    axis_min + (v - axis_min) / (axis_max - axis_min) * max(0, target).
    A negative target therefore collapses the drawing onto [axis_min]. *)
Theorem drawing_without_fixed_entities_is_scaled (msp : list Entity)
  (p0 p : DxfProcessor) (info : DxfInfo) (axis : Axis) (ext : Extents)
  (axis_min axis_max target_length v : Q) :
  load curve_extents msp p0 = (OK info, p) ->
  extents p = Some ext ->
  axis_interval axis ext = (axis_min, axis_max) ->
  (forall e, In e msp -> _is_fixed_entity e = false) ->
  eps9 <= axis_max - axis_min ->
  axis_min - eps9 <= v -> v <= axis_max + eps9 ->
  exists zones p1 mapping p2 r,
    _get_zones curve_extents axis p = (OK zones, p1) /\
    _build_mapping zones axis target_length p1 = (OK mapping, p2) /\
    _map_value v mapping = OK r /\
    r == axis_min + (v - axis_min) / (axis_max - axis_min) * pymax 0 target_length.
Proof.
  intros Hl He Hb Hnone Hsize Hlo Hhi.
  destruct (load_ok _ _ _ _ _ Hl) as (ext' & _ & -> & _).
  cbn [extents] in He. injection He as ->.
  rewrite (get_zones_fresh curve_extents msp ext cache_clear axis (cache_clear_get axis)).
  rewrite Hb. unfold compute_zones.
  assert ((if Qltb axis_max axis_min then axis_min else axis_max) = axis_max) as ->.
  { destruct (Qltb axis_max axis_min) eqn:E; [apply Qltb_lt in E; qlra|reflexivity]. }
  rewrite (fixed_intervals_none curve_extents msp axis axis_min axis_max Hnone).
  rewrite zones_of_no_intervals.
  set (zone := mkZone axis_min axis_max Stretch).
  assert (HL : Zone_length zone == axis_max - axis_min).
  { apply Zone_length_eq. cbn. qlra. }
  assert (Hst : stretch_total [zone] == axis_max - axis_min).
  { rewrite stretch_total_sum. cbn [total]. unfold stretch_part. cbn [zone_type zone is_stretch].
    rewrite HL. ring. }
  set (p1 := mkProcessor (Some msp) (Some ext) (cache_set cache_clear axis [zone])).
  set (nl := new_length (stretch_total [zone])
                        (target_length - (axis_max - axis_min)) zone).
  assert (Hnl : nl == target_length).
  { unfold nl. rewrite new_length_specified by qlra. unfold specified_length.
    cbn [zone_type zone]. rewrite HL, Hst. field. qlra. }
  exists [zone], p1, [mkSegment zone axis_min (axis_min + nl)], p1.
  assert (Hbuild : _build_mapping [zone] axis target_length p1
                   = (OK [mkSegment zone axis_min (axis_min + nl)], p1)).
  { unfold p1. rewrite build_mapping_run, Hb.
    rewrite build_mapping_on_ok by (intros [C _]; qlra). reflexivity. }
  rewrite Hbuild.
  unfold _map_value. cbn [find_segment seg_zone start_new end_new].
  change (start_old zone) with axis_min. change (end_old zone) with axis_max.
  assert (Qltb v (axis_min - eps9) = false) as -> by (apply Qltb_ge; exact Hlo).
  assert (Qle_bool v (axis_max + eps9) = true) as -> by (apply Qle_bool_iff; exact Hhi).
  assert (Qltb (Zone_length zone) eps9 = false) as -> by (apply Qltb_ge; lra).
  eexists. repeat split.
  unfold length_new. cbn [start_new end_new]. rewrite HL.
  assert (Hmax : pymax 0 (axis_min + nl - axis_min) == pymax 0 target_length).
  { destruct (pymax_spec 0 (axis_min + nl - axis_min)) as [[? ->]|[? ->]];
      destruct (pymax_spec 0 target_length) as [[? ->]|[? ->]]; lra. }
  rewrite Hmax. reflexivity.
Qed.

End Uniform.

(** ** The Coordinate Mapper preserves the order of coordinates *)

Lemma laid_out_apart (k : Q) (segs : list MappingSegment) :
  forall a a' s1 s2,
    laid_out k a a' segs -> 0 <= k -> In s1 segs -> In s2 segs ->
    s1 = s2 \/ end_old s1 <= start_old s2 \/ end_old s2 <= start_old s1.
Proof.
  induction segs as [|hd rest IH]; intros a a' s1 s2 H Hk H1 H2; [contradiction|].
  pose proof H as (Hs & Hs' & Hlen & Hnew & Hrest).
  destruct H1 as [<-|H1], H2 as [<-|H2].
  - now left.
  - destruct (laid_out_in k rest _ _ s2 Hrest Hk H2) as (I1 & _). right. left. exact I1.
  - destruct (laid_out_in k rest _ _ s1 Hrest Hk H1) as (I1 & _). right. right. exact I1.
  - now apply (IH _ _ s1 s2 Hrest Hk).
Qed.

Lemma laid_out_positive (k : Q) (segs : list MappingSegment) :
  forall a a' seg, laid_out k a a' segs -> In seg segs -> start_old seg < end_old seg.
Proof.
  induction segs as [|hd rest IH]; intros a a' seg H Hin; [contradiction|].
  destruct H as (_ & _ & Hlen & _ & Hrest).
  destruct Hin as [<-|Hin]; [qlra|]. now apply (IH _ _ _ Hrest).
Qed.

Lemma laid_out_before (k : Q) (segs : list MappingSegment) :
  forall a a' s1 s2,
    laid_out k a a' segs -> 0 <= k -> In s1 segs -> In s2 segs ->
    end_old s1 <= start_old s2 -> end_new s1 <= start_new s2.
Proof.
  induction segs as [|hd rest IH]; intros a a' s1 s2 H Hk H1 H2 Hle; [contradiction|].
  pose proof H as (Hs & Hs' & Hlen & Hnew & Hrest).
  destruct H1 as [<-|H1], H2 as [<-|H2].
  - exfalso. qlra.
  - destruct (laid_out_in k rest _ _ s2 Hrest Hk H2) as (_ & _ & I3 & _). exact I3.
  - exfalso. destruct (laid_out_in k rest _ _ s1 Hrest Hk H1) as (I1 & _).
    pose proof (laid_out_positive k rest _ _ s1 Hrest H1). qlra.
  - now apply (IH _ _ s1 s2 Hrest Hk).
Qed.

Lemma laid_out_after_start (k : Q) (segs : list MappingSegment) :
  forall a a' seg,
    laid_out k a a' segs -> 0 < k -> In seg segs ->
    a < start_old seg -> a' < start_new seg.
Proof.
  induction segs as [|hd rest IH]; intros a a' seg H Hk Hin Hlt; [contradiction|].
  pose proof H as (Hs & Hs' & Hlen & Hnew & Hrest).
  destruct Hin as [<-|Hin]; [exfalso; lra|].
  assert (Hk0 : 0 <= k) by lra.
  destruct (laid_out_in k rest _ _ seg Hrest Hk0 Hin) as (_ & _ & I3 & _).
  assert (0 < slope k hd * (end_old hd - start_old hd)).
  { apply Qmult_lt_0_compat; [unfold slope; destruct (is_stretch _); lra|qlra]. }
  lra.
Qed.

Lemma laid_out_before_strict (k : Q) (segs : list MappingSegment) :
  forall a a' s1 s2,
    laid_out k a a' segs -> 0 < k -> In s1 segs -> In s2 segs ->
    end_old s1 < start_old s2 -> end_new s1 < start_new s2.
Proof.
  induction segs as [|hd rest IH]; intros a a' s1 s2 H Hk H1 H2 Hlt; [contradiction|].
  pose proof H as (Hs & Hs' & Hlen & Hnew & Hrest).
  assert (Hk0 : 0 <= k) by lra.
  destruct H1 as [<-|H1], H2 as [<-|H2].
  - exfalso. qlra.
  - now apply (laid_out_after_start k rest _ _ s2 Hrest Hk H2).
  - exfalso. destruct (laid_out_in k rest _ _ s1 Hrest Hk0 H1) as (I1 & _).
    pose proof (laid_out_positive k rest _ _ s1 Hrest H1). qlra.
  - now apply (IH _ _ s1 s2 Hrest Hk).
Qed.

Lemma find_segment_monotone (k : Q) (segs : list MappingSegment) (a a' v w : Q) :
  laid_out k a a' segs -> 0 <= k -> segs <> [] ->
  a <= v -> v <= w -> w <= old_end a segs ->
  Forall (fun seg : MappingSegment => ~ near_start seg v) (tl segs) ->
  Forall (fun seg : MappingSegment => ~ near_start seg w) (tl segs) ->
  exists rv rw,
    find_segment v segs = Some rv /\ find_segment w segs = Some rw /\ rv <= rw /\
    (0 < k -> v < w -> rv < rw).
Proof.
  intros H Hk Hne Hav Hvw Hwb Hcv Hcw.
  destruct (find_segment_laid_out k segs a a' v H Hk Hne Hav) as (rv & Hrv & Fv);
    [lra|exact Hcv|].
  destruct (find_segment_laid_out k segs a a' w H Hk Hne) as (rw & Hrw & Fw);
    [lra|exact Hwb|exact Hcw|].
  exists rv, rw. split; [exact Hrv|]. split; [exact Hrw|].
  destruct (laid_out_covering k segs a a' v H Hne Hav) as (sv & Hiv & V1 & V2); [lra|].
  destruct (laid_out_covering k segs a a' w H Hne) as (sw & Hiw & W1 & W2); [lra|exact Hwb|].
  pose proof (Fv sv Hiv V1 V2) as Ev. pose proof (Fw sw Hiw W1 W2) as Ew.
  pose proof (slope_nonneg k sv Hk) as Nv. pose proof (slope_nonneg k sw Hk) as Nw.
  pose proof (laid_out_seg_length k segs a a' sv H Hiv) as Lv.
  assert (Hpos : 0 < k -> 0 < slope k sv /\ 0 < slope k sw).
  { intro P. unfold slope. destruct (is_stretch (zone_type sv)), (is_stretch (zone_type sw));
      split; lra. }
  destruct (Qlt_le_dec (end_old sv) w) as [L|L].
  - (* w lies in a later segment *)
    assert (Hord : end_old sv <= start_old sw).
    { destruct (laid_out_apart k segs a a' sv sw H Hk Hiv Hiw) as [->|[O|O]];
        [lra|exact O|].
      pose proof (laid_out_positive k segs a a' sv H Hiv). lra. }
    pose proof (laid_out_before k segs a a' sv sw H Hk Hiv Hiw Hord) as B.
    assert (U : slope k sv * (v - start_old sv) <= slope k sv * (end_old sv - start_old sv))
      by (apply Qmult_le_mono_l; [assumption|lra]).
    assert (D : 0 <= slope k sw * (w - start_old sw)).
    { setoid_replace 0 with (slope k sw * 0) by ring.
      apply Qmult_le_mono_l; [assumption|lra]. }
    split; [lra|]. intros P Hlt. destruct (Hpos P) as [Pv Pw].
    destruct (Qlt_le_dec (start_old sw) w) as [M|M].
    + assert (0 < slope k sw * (w - start_old sw)) by (apply Qmult_lt_0_compat; lra). lra.
    + assert (S : end_old sv < start_old sw) by lra.
      pose proof (laid_out_before_strict k segs a a' sv sw H P Hiv Hiw S). lra.
  - (* both in the segment of v *)
    assert (V : start_old sv <= w) by lra.
    pose proof (Fw sv Hiv V L) as Ew'.
    assert (U : slope k sv * (v - start_old sv) <= slope k sv * (w - start_old sv))
      by (apply Qmult_le_mono_l; [assumption|lra]).
    split; [lra|]. intros P Hlt. destruct (Hpos P) as [Pv _].
    assert (0 < slope k sv * (w - v)) by (apply Qmult_lt_0_compat; lra).
    assert (slope k sv * (w - v)
            == slope k sv * (w - start_old sv) - slope k sv * (v - start_old sv)) by ring.
    lra.
Qed.

(** X9.  A mapping built over a zone sequence whose zones are all longer
    than 1e-9, for a target not below the total fixed length, never swaps
    two coordinates of the range: v <= w are sent to rv <= rw (for
    coordinates not within 1e-9 after an interior zone boundary), and to
    rv < rw when v < w and the target exceeds the total fixed length. *)
Theorem map_value_preserves_order (axis_min axis_max target_length v w : Q)
  (zones : list Zone) (mapping : list MappingSegment) :
  zone_sequence axis_min axis_max zones ->
  Forall (fun z => eps9 < Zone_length z) zones ->
  0 < stretch_total zones ->
  total fixed_part zones <= target_length ->
  build_mapping_on (axis_min, axis_max) zones target_length = OK mapping ->
  axis_min <= v -> v <= w -> w <= axis_max ->
  clear_of zones v -> clear_of zones w ->
  exists rv rw,
    _map_value v mapping = OK rv /\ _map_value w mapping = OK rw /\
    rv <= rw /\
    (total fixed_part zones < target_length -> v < w -> rv < rw).
Proof.
  intros (Hne & Hch & _) Hlen Hst Hfix Hb Hav Hvw Hwb Hcv Hcw.
  apply build_mapping_on_inv in Hb. cbn [fst snd] in Hb.
  set (st := stretch_total zones) in *.
  set (delta := target_length - (axis_max - axis_min)) in *.
  set (k := 1 + delta / st).
  assert (Hsum : st + delta == target_length - total fixed_part zones).
  { pose proof (total_length_chained _ _ _ Hch) as T1.
    pose proof (total_parts zones) as T2.
    pose proof (stretch_total_sum zones) as T3. fold st in T3. unfold delta. lra. }
  assert (Hk : 0 <= k) by (apply slope_factor_nonneg; lra).
  assert (Hkpos : total fixed_part zones < target_length -> 0 < k).
  { intro P. unfold k.
    setoid_replace (1 + delta / st) with ((st + delta) * / st) by (field; lra).
    apply Qmult_lt_0_compat; [lra|]. now apply Qinv_lt_0_compat. }
  assert (Hlaid : laid_out k axis_min axis_min mapping).
  { subst mapping. apply build_segments_laid_out with axis_max; try assumption.
    reflexivity. }
  assert (Hold : old_end axis_min mapping == axis_max).
  { subst mapping. now apply build_segments_old_end. }
  assert (Hzones : map seg_zone mapping = zones).
  { subst mapping. apply build_segments_zones. }
  assert (Hmne : mapping <> []).
  { intros E. rewrite E in Hzones. cbn in Hzones. now contradiction Hne. }
  destruct (find_segment_monotone k mapping axis_min axis_min v w Hlaid Hk Hmne Hav Hvw)
    as (rv & rw & Hrv & Hrw & Hle & Hlt).
  - lra.
  - now apply clear_of_segments with zones.
  - now apply clear_of_segments with zones.
  - exists rv, rw. unfold _map_value. rewrite Hrv, Hrw.
    repeat split; [exact Hle|]. intros P Q. apply Hlt; [now apply Hkpos|exact Q].
Qed.

(** ** Further properties of the Zone Segmenter *)

Lemma clip_interval_positive (lo hi : Q) (iv : Q * Q) :
  Forall (fun c => fst c < snd c) (clip_interval lo hi iv).
Proof.
  eapply Forall_impl; [|apply within_clip]. intros c H. apply H.
Qed.

Lemma merge_from_positive (rest : list (Q * Q)) :
  forall cur,
    fst cur < snd cur -> Forall (fun iv => fst iv < snd iv) rest ->
    Forall (fun iv => fst iv < snd iv) (merge_from cur rest).
Proof.
  induction rest as [|[s e] rest IH]; intros cur Hc Hall; cbn [merge_from].
  - constructor; [exact Hc|constructor].
  - inversion Hall as [|? ? H1 Hall']; subst. cbn [fst snd] in H1.
    destruct (Qltb (snd cur) s).
    + constructor; [exact Hc|]. now apply IH.
    + apply IH; [|exact Hall']. cbn [fst snd]. pose proof (pymax_l (snd cur) e). lra.
Qed.

Lemma walk_zones_positive (merged : list (Q * Q)) :
  forall cursor,
    Forall (fun iv => fst iv < snd iv) merged ->
    Forall (fun z => start_old z < end_old z) (fst (walk_zones cursor merged)).
Proof.
  induction merged as [|[s e] rest IH]; intros cursor Hall; cbn [walk_zones].
  - constructor.
  - inversion Hall as [|? ? H1 Hall']; subst. cbn [fst snd] in H1.
    specialize (IH (pymax cursor e) Hall').
    destruct (walk_zones (pymax cursor e) rest) as [zones final]. cbn [fst] in *.
    apply Forall_app. split.
    + destruct (Qltb cursor s) eqn:E; constructor; [|constructor].
      apply Qltb_lt in E. exact E.
    + constructor; [exact H1|exact IH].
Qed.

Lemma zones_of_intervals_positive (axis_min axis_max : Q) (intervals : list (Q * Q)) :
  axis_min < axis_max ->
  Forall (fun iv => fst iv < snd iv) intervals ->
  Forall (fun z => start_old z < end_old z)
         (zones_of_intervals axis_min axis_max intervals).
Proof.
  intros Hlt Hall. unfold zones_of_intervals.
  assert (Hs : Forall (fun iv => fst iv < snd iv) (sort_by_start intervals))
    by now apply Forall_sort_by_start.
  assert (Hm : Forall (fun iv => fst iv < snd iv) (merge_intervals (sort_by_start intervals))).
  { destruct (sort_by_start intervals) as [|first rest]; [constructor|].
    inversion Hs; subst. now apply merge_from_positive. }
  pose proof (walk_zones_positive _ axis_min Hm) as Hw.
  destruct (walk_zones axis_min _) as [zones cursor]. cbn [fst] in Hw.
  assert (Hall' : Forall (fun z => start_old z < end_old z)
                         (if Qltb cursor axis_max
                          then zones ++ [mkZone cursor axis_max Stretch] else zones)).
  { destruct (Qltb cursor axis_max) eqn:E; [|exact Hw].
    apply Forall_app. split; [exact Hw|]. constructor; [|constructor].
    apply Qltb_lt in E. exact E. }
  destruct (if Qltb cursor axis_max then _ else zones); [|exact Hall'].
  constructor; [exact Hlt|constructor].
Qed.

Section SegmenterFurther.

Variable curve_extents : Entity -> option Extents.

Lemma fixed_intervals_positive (msp : list Entity) (axis : Axis) (lo hi : Q) :
  Forall (fun iv => fst iv < snd iv) (fixed_intervals curve_extents msp axis lo hi).
Proof.
  eapply Forall_impl; [|apply fixed_intervals_within]. intros c H. apply H.
Qed.

(** X10.  On a freshly loaded drawing whose extent on the axis is positive
    the Zone Segmenter returns no empty zone: every zone, stretch or fixed,
    ends strictly after it starts. *)
Theorem get_zones_has_no_empty_zone (msp : list Entity) (p0 p : DxfProcessor)
  (info : DxfInfo) (axis : Axis) (ext : Extents) (axis_min axis_max : Q) :
  load curve_extents msp p0 = (OK info, p) ->
  extents p = Some ext ->
  axis_interval axis ext = (axis_min, axis_max) ->
  axis_min < axis_max ->
  exists zones p',
    _get_zones curve_extents axis p = (OK zones, p') /\
    Forall (fun z => start_old z < end_old z) zones.
Proof.
  intros Hl He Hb Hlt.
  destruct (load_ok _ _ _ _ _ Hl) as (ext' & _ & -> & _).
  cbn [extents] in He. injection He as ->.
  rewrite (get_zones_fresh curve_extents msp ext cache_clear axis (cache_clear_get axis)).
  eexists _, _. split; [reflexivity|]. rewrite Hb. unfold compute_zones.
  assert ((if Qltb axis_max axis_min then axis_min else axis_max) = axis_max) as ->.
  { destruct (Qltb axis_max axis_min) eqn:E; [apply Qltb_lt in E; lra|reflexivity]. }
  apply zones_of_intervals_positive; [exact Hlt|apply fixed_intervals_positive].
Qed.

(** X11.  On a freshly loaded drawing, the bounding interval of every
    fixed entity (circle, arc, ellipse, spline, polyline with a bulge) that
    has a positive length on the axis lies inside one single fixed zone:
    the Segmenter never cuts a rigid feature by a zone boundary. *)
Theorem fixed_entity_lies_in_one_fixed_zone (msp : list Entity) (p0 p : DxfProcessor)
  (info : DxfInfo) (axis : Axis) (ext : Extents) (entity : Entity) (iv : Q * Q) :
  load curve_extents msp p0 = (OK info, p) ->
  extents p = Some ext ->
  In entity msp ->
  _is_fixed_entity entity = true ->
  _entity_interval curve_extents entity axis = Some iv ->
  fst iv < snd iv ->
  exists zones p' z,
    _get_zones curve_extents axis p = (OK zones, p') /\
    In z zones /\ zone_type z = Fixed /\
    start_old z <= fst iv /\ snd iv <= end_old z.
Proof.
  intros Hl He Hin Hfix Hiv Hlt.
  destruct (load_ok _ _ _ _ _ Hl) as (ext' & Hext & -> & _).
  cbn [extents] in He. injection He as ->.
  rewrite (get_zones_fresh curve_extents msp ext cache_clear axis (cache_clear_get axis)).
  unfold _entity_interval in Hiv.
  destruct (entity_extents curve_extents entity) as [box|] eqn:Ebox; [|discriminate].
  injection Hiv as <-.
  pose proof (extents_of_inside curve_extents axis msp ext entity box Hext Hin Ebox)
    as [I1 I2].
  destruct (axis_interval axis ext) as [axis_min axis_max] eqn:Eb. cbn [fst snd] in I1, I2.
  set (iv := axis_interval axis box) in *.
  unfold compute_zones.
  assert ((if Qltb axis_max axis_min then axis_min else axis_max) = axis_max) as ->.
  { destruct (Qltb axis_max axis_min) eqn:E; [apply Qltb_lt in E; lra|reflexivity]. }
  set (clipped := (pymax axis_min (fst iv), pymin axis_max (snd iv))).
  assert (E1 : fst clipped == fst iv).
  { unfold clipped. cbn [fst].
    destruct (pymax_spec axis_min (fst iv)) as [[? ->]|[? ->]]; lra. }
  assert (E2 : snd clipped == snd iv).
  { unfold clipped. cbn [snd].
    destruct (pymin_spec axis_max (snd iv)) as [[? ->]|[? ->]]; lra. }
  assert (Hc : In clipped (fixed_intervals curve_extents msp axis axis_min axis_max)).
  { unfold fixed_intervals. apply in_flat_map. exists entity. split; [exact Hin|].
    rewrite Hfix. unfold _entity_interval. rewrite Ebox. fold iv.
    unfold clip_interval. fold clipped.
    assert (Qltb (fst clipped) (snd clipped) = true) as E by (apply Qltb_lt; lra).
    unfold clipped in E at 1 2. cbn [fst snd] in E. rewrite E. now left. }
  destruct (zones_of_intervals_fixed axis_min axis_max _ clipped
              (fixed_intervals_within curve_extents msp axis axis_min axis_max) Hc)
    as (z & Hz & Ht & Z1 & Z2).
  eexists _, _, z. split; [reflexivity|]. split; [exact Hz|]. split; [exact Ht|].
  split; lra.
Qed.

End SegmenterFurther.

(** ** Which entities are fixed *)

Lemma any_bulge_true (vs : list Vertex) :
  any_bulge vs = OK true <-> curved_before_stop vs.
Proof.
  induction vs as [|v vs IH]; cbn [any_bulge].
  - split; [discriminate|]. intros (pre & u & post & b & E & _).
    destruct pre; discriminate.
  - destruct (bulge v) as [b|] eqn:Eb; cbn [attr bind].
    + destruct (Qltb eps6 (Qabs b)) eqn:E.
      * split; [intros _|reflexivity]. exists [], v, vs, b.
        split; [reflexivity|]. split; [constructor|]. split; [exact Eb|].
        now apply Qltb_lt.
      * apply Qltb_ge in E. rewrite IH. split.
        -- intros (pre & u & post & c & -> & Hpre & Hu & Hc).
           exists (v :: pre), u, post, c. split; [reflexivity|].
           split; [|split; assumption]. constructor; [|exact Hpre].
           exists b. split; assumption.
        -- intros (pre & u & post & c & Evs & Hpre & Hu & Hc).
           destruct pre as [|w pre]; cbn [app] in Evs; injection Evs as <- ->.
           ++ rewrite Eb in Hu. injection Hu as <-. lra.
           ++ inversion Hpre; subst. exists pre, u, post, c. repeat split; assumption.
    + split; [discriminate|]. intros (pre & u & post & c & Evs & Hpre & Hu & Hc).
      destruct pre as [|w pre]; cbn [app] in Evs; injection Evs as <- ->.
      * congruence.
      * inversion Hpre as [|? ? (c' & Hc' & _) _]; subst. congruence.
Qed.

(** X12.  [_is_fixed_entity] answers true exactly for the kinds CIRCLE, ARC,
    ELLIPSE and SPLINE and for a polyline (LWPOLYLINE or POLYLINE) in which
    a vertex with a bulge above 1e-6 comes before any vertex that lacks the
    bulge attribute.  A polyline whose first vertices lack a bulge is
    therefore not fixed, whatever follows. *)
Theorem is_fixed_entity_iff (entity : Entity) :
  _is_fixed_entity entity = true <->
  In (dxftype entity) ["CIRCLE"; "ARC"; "ELLIPSE"; "SPLINE"]%string \/
  exists vs, (entity = LWPOLYLINE vs \/ entity = POLYLINE vs) /\ curved_before_stop vs.
Proof.
  unfold _is_fixed_entity. cbv zeta.
  destruct (mem (dxftype entity) ["CIRCLE"; "ARC"; "ELLIPSE"; "SPLINE"]%string) eqn:Ek.
  - split; [intros _|reflexivity]. left. unfold mem in Ek. apply existsb_exists in Ek.
    destruct Ek as (k & Hin & Ek). apply String.eqb_eq in Ek. now subst k.
  - assert (Hk : ~ In (dxftype entity) ["CIRCLE"; "ARC"; "ELLIPSE"; "SPLINE"]%string).
    { intro Hin. apply Bool.not_true_iff_false in Ek. apply Ek. unfold mem.
      apply existsb_exists. exists (dxftype entity). split; [exact Hin|].
      apply String.eqb_refl. }
    destruct entity; cbn [dxftype] in *;
      try (vm_compute in Ek; discriminate);
      try (split; [discriminate|];
           intros [H|(vs & [H|H] & _)]; [contradiction|discriminate|discriminate]).
    + (* LWPOLYLINE *)
      cbn [mem existsb String.eqb orb entity_vertices bind].
      change (mem "LWPOLYLINE" ["LWPOLYLINE"; "POLYLINE"]%string) with true. cbv iota.
      pose proof (any_bulge_true vertices) as A.
      destruct (any_bulge vertices) as [[|]|] eqn:Ea.
      * split; [intros _|reflexivity]. right. exists vertices. split; [now left|].
        now apply A.
      * split; [discriminate|]. intros [H|(vs & [H|H] & Hc)]; [contradiction| |discriminate].
        injection H as <-. apply A in Hc. discriminate.
      * split; [discriminate|]. intros [H|(vs & [H|H] & Hc)]; [contradiction| |discriminate].
        injection H as <-. apply A in Hc. discriminate.
    + (* POLYLINE *)
      change (mem "POLYLINE" ["LWPOLYLINE"; "POLYLINE"]%string) with true. cbv iota.
      cbn [entity_vertices bind].
      pose proof (any_bulge_true vertices) as A.
      destruct (any_bulge vertices) as [[|]|] eqn:Ea.
      * split; [intros _|reflexivity]. right. exists vertices. split; [now right|].
        now apply A.
      * split; [discriminate|]. intros [H|(vs & [H|H] & Hc)]; [contradiction|discriminate|].
        injection H as <-. apply A in Hc. discriminate.
      * split; [discriminate|]. intros [H|(vs & [H|H] & Hc)]; [contradiction|discriminate|].
        injection H as <-. apply A in Hc. discriminate.
    + (* OTHER *)
      destruct (mem dxftype_name ["LWPOLYLINE"; "POLYLINE"]%string); cbn [entity_vertices bind];
        (split; [discriminate|]);
        intros [H|(vs & [H|H] & _)]; [contradiction|discriminate|discriminate
                                      |contradiction|discriminate|discriminate].
Qed.

(** ** Loading *)

Section Loading.

Variable curve_extents : Entity -> option Extents.



End Loading.

(** ** [stretch_both_axes] *)

Section BothAxesFurther.

Variable curve_extents : Entity -> option Extents.

(** X14.  When the X extent is within 1e-6 of its target and the Y extent
    is not, and the Y extent is not zero, [stretch_both_axes] is [stretch]
    along Y with the Y anchor: same result, same final processor state. *)
Theorem stretch_both_axes_along_y_only (p : DxfProcessor) (msp : list Entity)
  (ext : Extents) (target_length_x target_width_y : Q) (anchor_x anchor_y : string) :
  last_doc p = Some msp ->
  extents p = Some ext ->
  Qabs (size_x ext - target_length_x) <= eps6 ->
  eps6 < Qabs (size_y ext - target_width_y) ->
  ~ size_y ext == 0 ->
  stretch_both_axes curve_extents target_length_x target_width_y anchor_x anchor_y p
  = stretch curve_extents target_width_y Y anchor_y p.
Proof.
  intros Hd He Hx Hy H0. rewrite stretch_as_axis. rewrite Hd, He. cbn [axis_size].
  apply Qeq_bool_false in H0. rewrite H0.
  assert (Qeq_bool (size_y ext) target_width_y = false) as ->.
  { apply Qeq_bool_false. intro E. rewrite E in Hy.
    setoid_replace (target_width_y - target_width_y) with 0 in Hy by ring.
    cbn in Hy. qlra. }
  unfold stretch_both_axes. unfold bindM at 1. unfold get_self at 1.
  rewrite Hd, He.
  assert (Qltb eps6 (Qabs (size_x ext - target_length_x)) = false) as ->
      by now apply Qltb_ge.
  assert (Qltb eps6 (Qabs (size_y ext - target_width_y)) = true) as ->
      by now apply Qltb_lt.
  cbn [negb andb]. reflexivity.
Qed.

Lemma total_fixed_part_nonneg (zones : list Zone) : 0 <= total fixed_part zones.
Proof.
  induction zones as [|z zones IH]; cbn [total]; [lra|].
  unfold fixed_part at 1. pose proof (Zone_length_nonneg z).
  destruct (is_stretch (zone_type z)); lra.
Qed.

(** X15.  On a freshly loaded drawing with zero extent along X the two
    entry points fail differently: [stretch] raises DegenerateAxis at once,
    while [stretch_both_axes], which has no such check, goes on to the
    Mapping Builder and raises NoElasticRegion. *)
Theorem degenerate_axis_errors_differ (msp : list Entity) (p0 p : DxfProcessor)
  (info : DxfInfo) (ext : Extents) (target_length_x target_width_y : Q)
  (anchor_x anchor_y : string) :
  load curve_extents msp p0 = (OK info, p) ->
  extents p = Some ext ->
  size_x ext == 0 ->
  eps6 < Qabs target_length_x ->
  stretch curve_extents target_length_x X anchor_x p = (Err DegenerateAxis, p) /\
  exists p',
    stretch_both_axes curve_extents target_length_x target_width_y anchor_x anchor_y p
    = (Err NoElasticRegion, p').
Proof.
  intros Hl He H0 Ht.
  destruct (load_ok _ _ _ _ _ Hl) as (ext' & _ & -> & _).
  cbn [extents] in He. injection He as ->.
  split.
  - rewrite stretch_as_axis. cbn [last_doc extents axis_size].
    apply Qeq_bool_iff in H0. now rewrite H0.
  - unfold stretch_both_axes. unfold bindM at 1. unfold get_self at 1.
    cbn [last_doc extents].
    assert (Qltb eps6 (Qabs (size_x ext - target_length_x)) = true) as ->.
    { apply Qltb_lt. apply Qabs_gt_iff. apply Qabs_gt_iff in Ht. lra. }
    cbn [negb andb].
    destruct (stretch_axis_outcome curve_extents msp ext cache_clear target_length_x X anchor_x)
      as (zones & cache' & _ & Hrun).
    pose proof (get_zones_fresh curve_extents msp ext cache_clear X (cache_clear_get X)) as Hz.
    clear zones cache' Hrun.
    set (zones := compute_zones curve_extents msp X (axis_interval X ext)) in *.
    assert (Hseq : zone_sequence (extmin_x ext) (extmax_x ext) zones).
    { unfold zones, compute_zones. cbn [axis_interval]. unfold size_x in H0.
      assert ((if Qltb (extmax_x ext) (extmin_x ext) then extmin_x ext else extmax_x ext)
              = extmax_x ext) as ->.
      { destruct (Qltb (extmax_x ext) (extmin_x ext)) eqn:E;
          [apply Qltb_lt in E; lra|reflexivity]. }
      apply zones_of_intervals_sequence; [lra|apply fixed_intervals_within]. }
    assert (Hst : stretch_total zones <= 0).
    { destruct Hseq as (_ & Hch & _).
      pose proof (total_length_chained _ _ _ Hch) as T1.
      pose proof (total_parts zones) as T2.
      pose proof (total_fixed_part_nonneg zones) as T3.
      rewrite stretch_total_sum. unfold size_x in H0. lra. }
    eexists. unfold bindM at 1. unfold bindM at 1. unfold stretch_axis.
    unfold bindM at 1. rewrite Hz. unfold bindM at 1. rewrite build_mapping_run.
    rewrite build_mapping_on_fails; [reflexivity|exact Hst|].
    cbn [axis_interval fst snd]. unfold size_x in H0.
    apply Qabs_gt_iff. apply Qabs_gt_iff in Ht. qlra.
Qed.

End BothAxesFurther.

(** * Further properties of [BaseAnalyzer] *)

(** ** Assembly identifiers *)









Lemma extract_korpus_number_failure (filename : string) (e : AnalyzerError) :
  _extract_korpus_number filename = Failed e -> e = UnparsableFilename filename.
Proof.
  unfold _extract_korpus_number.
  destruct (re_search korp_here filename); [discriminate|].
  destruct (re_search g_here filename); [discriminate|].
  intro H. now injection H as <-.
Qed.


(** ** Arc lengths *)

Lemma radians_monotone (x y : Q) : x <= y -> radians x <= radians y.
Proof.
  intro H. unfold radians. apply Qmult_le_compat_r; [exact H|].
  unfold math_pi. apply Qlt_le_weak. reflexivity.
Qed.

Lemma radians_full_turn : radians 360 == 2 * math_pi.
Proof. unfold radians, math_pi. reflexivity. Qed.

(** X17.  For an arc with a centre, a non-negative radius and both angles
    between 0 and 360 degrees, the measured length lies between 0 and the
    circumference 2 * pi * radius.  An arc whose start and end angle
    coincide measures 0, not a full turn. *)
Theorem arc_length_within_circumference (c : Vec3)
  (radius start_angle end_angle : Q) :
  0 <= radius ->
  0 <= start_angle -> start_angle <= 360 ->
  0 <= end_angle -> end_angle <= 360 ->
  exists a,
    _extract_arc_info (ARC (Some c) radius start_angle end_angle) = Some a /\
    0 <= ArcInfo.arc_length a /\
    ArcInfo.arc_length a <= 2 * math_pi * radius /\
    (start_angle == end_angle -> ArcInfo.arc_length a == 0).
Proof.
  intros Hr Hs0 Hs1 He0 He1. eexists. split; [reflexivity|].
  cbn [ArcInfo.arc_length].
  set (diff := _ - radians start_angle).
  assert (Hd : 0 <= diff /\ diff <= 2 * math_pi /\ (start_angle == end_angle -> diff == 0)).
  { unfold diff.
    pose proof (radians_monotone _ _ Hs0) as S0. pose proof (radians_monotone _ _ Hs1) as S1.
    pose proof (radians_monotone _ _ He0) as E0. pose proof (radians_monotone _ _ He1) as E1.
    pose proof radians_full_turn as F.
    assert (Z : radians 0 == 0) by (unfold radians; ring).
    destruct (Qltb (radians end_angle) (radians start_angle)) eqn:E.
    - apply Qltb_lt in E. split; [lra|]. split; [lra|].
      intro Q. exfalso. assert (radians start_angle == radians end_angle)
        by (unfold radians; rewrite Q; reflexivity). lra.
    - apply Qltb_ge in E. split; [lra|]. split; [lra|].
      intro Q. assert (radians start_angle == radians end_angle)
        by (unfold radians; rewrite Q; reflexivity). lra. }
  destruct Hd as (D0 & D1 & D2). split; [|split].
  - now apply Qmult_le_0_compat.
  - setoid_replace (2 * math_pi * radius) with (radius * (2 * math_pi)) by ring.
    now apply Qmult_le_mono_l.
  - intro Q. rewrite (D2 Q). ring.
Qed.

(** ** The two arcs of a reference record *)

Lemma insert_by_radius_perm (a : ArcInfo.t) (l : list ArcInfo.t) :
  Permutation (insert_by_radius a l) (a :: l).
Proof.
  induction l as [|b l IH]; cbn [insert_by_radius]; [reflexivity|].
  destruct (Qle_bool (ArcInfo.radius b) (ArcInfo.radius a)); [reflexivity|].
  rewrite IH. apply perm_swap.
Qed.

Lemma sort_by_radius_perm (l : list ArcInfo.t) : Permutation (sort_by_radius l) l.
Proof.
  induction l as [|a l IH]; [reflexivity|]. cbn [sort_by_radius fold_right].
  fold (sort_by_radius l). rewrite insert_by_radius_perm. now constructor.
Qed.

Lemma descending_head (a : ArcInfo.t) (l : list ArcInfo.t) :
  descending (a :: l) -> Forall (fun b => ArcInfo.radius b <= ArcInfo.radius a) l.
Proof.
  revert a. induction l as [|b l IH]; intros a H; [constructor|].
  destruct H as [Hab Hl]. constructor; [exact Hab|].
  eapply Forall_impl; [|apply (IH b Hl)]. intros c Hc. cbv beta in *. lra.
Qed.

Section RecordProperties.

Variable readfile : string -> option (list Entity).

(** X18.  A reference record keeps the two arcs of largest radius of the
    drawing: the arcs of the drawing are the outer arc, the inner arc and
    a rest in which no radius exceeds the inner one, and the inner radius
    does not exceed the outer one.  The record carries the file name and
    the identifier read from it. *)
Theorem analyze_base_file_keeps_largest_arcs (file_name : string) (msp : list Entity)
  (b : BaseInfo.t) :
  readfile file_name = Some msp ->
  _analyze_base_file readfile file_name = Found b ->
  BaseInfo.file_path b = file_name /\
  _extract_korpus_number file_name = Found (BaseInfo.korpus_number b) /\
  ArcInfo.radius (BaseInfo.arc2 b) <= ArcInfo.radius (BaseInfo.arc1 b) /\
  exists rest,
    Permutation (collect_arcs msp) (BaseInfo.arc1 b :: BaseInfo.arc2 b :: rest) /\
    Forall (fun a => ArcInfo.radius a <= ArcInfo.radius (BaseInfo.arc2 b)) rest.
Proof.
  intros Hr. unfold _analyze_base_file, and_then.
  destruct (_extract_korpus_number file_name) as [k|]; [|discriminate].
  rewrite Hr.
  pose proof (sort_by_radius_perm (collect_arcs msp)) as HP.
  pose proof (descending_sort (collect_arcs msp)) as HD.
  destruct (sort_by_radius (collect_arcs msp)) as [|a1 [|a2 rest]]; try discriminate.
  intro H. injection H as <-. cbn [BaseInfo.file_path BaseInfo.korpus_number
                                   BaseInfo.arc1 BaseInfo.arc2].
  split; [reflexivity|]. split; [reflexivity|]. split; [apply HD|].
  exists rest. split; [now symmetry|]. destruct HD as [_ HD]. now apply descending_head.
Qed.

(** X19.  [_analyze_base_file] fails in three ways only, tried in this
    order: the file name yields no identifier (the file is then not even
    read), the file cannot be read, or the drawing holds fewer than two
    arcs with a centre. *)
Theorem analyze_base_file_failures (file_name : string) (e : AnalyzerError) :
  _analyze_base_file readfile file_name = Failed e ->
  (e = UnparsableFilename file_name /\
   _extract_korpus_number file_name = Failed e) \/
  (e = ReadError file_name /\
   (exists k, _extract_korpus_number file_name = Found k) /\
   readfile file_name = None) \/
  (e = InsufficientArcs file_name /\
   exists msp, readfile file_name = Some msp /\
               (List.length (collect_arcs msp) < 2)%nat).
Proof.
  unfold _analyze_base_file, and_then.
  pose proof (extract_korpus_number_failure file_name) as N.
  destruct (_extract_korpus_number file_name) as [k|e'].
  - destruct (readfile file_name) as [msp|].
    + pose proof (Permutation_length (sort_by_radius_perm (collect_arcs msp))) as HL.
      destruct (sort_by_radius (collect_arcs msp)) as [|a1 [|a2 rest]]; try discriminate;
        intro H; injection H as <-; right; right; (split; [reflexivity|]);
        exists msp; (split; [reflexivity|]); rewrite <- HL; cbn; lia.
    + intro H. injection H as <-. right. left. split; [reflexivity|].
      split; [now exists k|reflexivity].
  - intro H. injection H as <-. left. rewrite (N e' eq_refl). split; reflexivity.
Qed.

End RecordProperties.

(** ** The registry *)

Lemma dict_get_set_same {V : Type} (k : string) (v : V) (d : list (string * V)) :
  dict_get k (dict_set k v d) = Some v.
Proof.
  induction d as [|[k1 v1] d IH]; cbn [dict_set dict_get].
  - now rewrite String.eqb_refl.
  - destruct (String.eqb k k1) eqn:E; cbn [dict_get].
    + now rewrite String.eqb_refl.
    + now rewrite E.
Qed.

Lemma dict_get_set_other {V : Type} (k k' : string) (v : V) (d : list (string * V)) :
  k' <> k -> dict_get k' (dict_set k v d) = dict_get k' d.
Proof.
  intro Hne. induction d as [|[k1 v1] d IH]; cbn [dict_set dict_get].
  - apply String.eqb_neq in Hne. now rewrite Hne.
  - pose proof Hne as Hne'. apply String.eqb_neq in Hne'.
    destruct (String.eqb_spec k k1) as [<-|Hk]; cbn [dict_get].
    + now rewrite Hne'.
    + now rewrite IH.
Qed.

Lemma dict_set_keys {V : Type} (k : string) (v : V) (d : list (string * V)) :
  dict_keys (dict_set k v d)
  = if mem k (dict_keys d) then dict_keys d else dict_keys d ++ [k].
Proof.
  unfold dict_keys, mem. induction d as [|[k1 v1] d IH]; cbn [dict_set map existsb fst];
    [reflexivity|].
  destruct (String.eqb_spec k k1) as [<-|Hk]; cbn [map fst orb]; [reflexivity|].
  rewrite IH. destruct (existsb (String.eqb k) (map fst d)); reflexivity.
Qed.

Lemma mem_In (s : string) (l : list string) : mem s l = true <-> In s l.
Proof.
  unfold mem. rewrite existsb_exists. split.
  - intros (x & Hin & E). apply String.eqb_eq in E. now subst x.
  - intro Hin. exists s. split; [exact Hin|apply String.eqb_refl].
Qed.

Lemma dict_set_NoDup {V : Type} (k : string) (v : V) (d : list (string * V)) :
  NoDup (dict_keys d) -> NoDup (dict_keys (dict_set k v d)).
Proof.
  intro H. rewrite dict_set_keys. destruct (mem k (dict_keys d)) eqn:E; [exact H|].
  apply NoDup_app; [exact H|constructor; [intros []|constructor]|].
  intros x Hx [<-|[]]. apply mem_In in Hx. congruence.
Qed.

Lemma dict_set_nonempty {V : Type} (k : string) (v : V) (d : list (string * V)) :
  dict_set k v d <> [].
Proof. destruct d as [|[k1 v1] d]; cbn; [discriminate|]. destruct (String.eqb k k1); discriminate. Qed.

Section RegistryProperties.

Variable readfile : string -> option (list Entity).

Lemma register_lookup (k : string) (l : list string) :
  forall acc found,
    dict_get k acc = found ->
    dict_get k (fold_left (register readfile) l acc)
    = fold_left (fun found base_file =>
                   match _analyze_base_file readfile base_file with
                   | Found base_info =>
                       if String.eqb k (BaseInfo.korpus_number base_info)
                       then Some base_info else found
                   | Failed _ => found
                   end) l found.
Proof.
  induction l as [|f l IH]; intros acc found H; [exact H|].
  cbn [fold_left]. apply IH. unfold register.
  destruct (_analyze_base_file readfile f) as [b|]; [|exact H].
  destruct (String.eqb_spec k (BaseInfo.korpus_number b)) as [->|Hk].
  - apply dict_get_set_same.
  - now rewrite dict_get_set_other.
Qed.

Lemma register_NoDup (l : list string) :
  forall acc, NoDup (dict_keys acc) -> NoDup (dict_keys (fold_left (register readfile) l acc)).
Proof.
  induction l as [|f l IH]; intros acc H; [exact H|].
  cbn [fold_left]. apply IH. unfold register.
  destruct (_analyze_base_file readfile f); [now apply dict_set_NoDup|exact H].
Qed.

Lemma register_empty (l : list string) :
  forall acc,
    fold_left (register readfile) l acc = [] ->
    acc = [] /\
    Forall (fun f => exists e, _analyze_base_file readfile f = Failed e) l.
Proof.
  induction l as [|f l IH]; intros acc H; [split; [exact H|constructor]|].
  cbn [fold_left] in H. destruct (IH _ H) as [Hacc Hl]. unfold register in Hacc.
  destruct (_analyze_base_file readfile f) as [b|e] eqn:E.
  - exfalso. now apply (dict_set_nonempty _ _ _ Hacc).
  - split; [exact Hacc|]. constructor; [now exists e|exact Hl].
Qed.

(** X20.  The registry built by [analyze_folder] has one entry per assembly
    identifier, and the entry of an identifier is the record of the last
    base file of the folder whose analysis succeeded with that identifier:
    files that fail are skipped, a later file of the same assembly replaces
    an earlier one.  The call fails with NoBaseFiles exactly for an empty
    list of base files, and with NoReferencesFound exactly when every file
    of a non-empty list fails. *)
Theorem analyze_folder_registry (base_files : list string) :
  match analyze_folder readfile base_files with
  | Found bases =>
      bases <> [] /\ NoDup (dict_keys bases) /\
      forall k,
        dict_get k bases = latest_record (_analyze_base_file readfile) k base_files
  | Failed e =>
      (e = NoBaseFiles /\ base_files = []) \/
      (e = NoReferencesFound /\ base_files <> [] /\
       Forall (fun f => exists e', _analyze_base_file readfile f = Failed e') base_files)
  end.
Proof.
  unfold analyze_folder. destruct base_files as [|f fs]; [left; split; reflexivity|].
  change (fold_left _ (f :: fs) []) with (fold_left (register readfile) (f :: fs) []).
  pose proof (register_NoDup (f :: fs) [] (NoDup_nil _)) as HN.
  pose proof (fun k => register_lookup k (f :: fs) [] None eq_refl) as HL.
  pose proof (register_empty (f :: fs) []) as HE.
  destruct (fold_left (register readfile) (f :: fs) []) as [|kv bases].
  - right. split; [reflexivity|]. split; [discriminate|]. now apply HE.
  - split; [discriminate|]. split; [exact HN|]. intro k. apply HL.
Qed.

End RegistryProperties.

(** ** Work drawings of a folder *)

Lemma In_insert_by_name (s x : string) (l : list string) :
  In x (insert_by_name s l) <-> x = s \/ In x l.
Proof.
  induction l as [|t l IH]; cbn [insert_by_name].
  - cbn. intuition.
  - destruct (String.leb s t); cbn [In]; [intuition|]. rewrite IH. intuition.
Qed.

Lemma In_sorted_names (x : string) (l : list string) : In x (sorted_names l) <-> In x l.
Proof.
  induction l as [|s l IH]; [reflexivity|]. cbn [sorted_names fold_right].
  fold (sorted_names l). rewrite In_insert_by_name, IH. cbn. intuition.
Qed.




(** ** Strings *)

Lemma string_app_assoc (a b c : string) : ((a ++ b) ++ c = a ++ (b ++ c))%string.
Proof. induction a as [|x a IH]; cbn [append]; [reflexivity|]. now rewrite IH. Qed.

Lemma string_app_nil_r (a : string) : (a ++ "" = a)%string.
Proof. induction a as [|x a IH]; cbn [append]; [reflexivity|]. now rewrite IH. Qed.

Lemma string_rev_onto_app (s acc : string) :
  string_rev_onto acc s = (string_rev s ++ acc)%string.
Proof.
  unfold string_rev. revert acc. induction s as [|c s IH]; intro acc; [reflexivity|].
  cbn [string_rev_onto]. rewrite IH, (IH (String c EmptyString)).
  rewrite string_app_assoc. reflexivity.
Qed.

Lemma string_rev_app (a b : string) :
  string_rev (a ++ b) = (string_rev b ++ string_rev a)%string.
Proof.
  induction a as [|c a IH]; cbn [append].
  - unfold string_rev at 3. cbn. now rewrite string_app_nil_r.
  - unfold string_rev at 1 3. cbn [string_rev_onto]. rewrite !string_rev_onto_app.
    rewrite IH. now rewrite string_app_assoc.
Qed.

Lemma string_rev_involutive (s : string) : string_rev (string_rev s) = s.
Proof.
  induction s as [|c s IH]; [reflexivity|].
  unfold string_rev at 2. cbn [string_rev_onto]. rewrite string_rev_onto_app.
  rewrite string_rev_app, IH. reflexivity.
Qed.

Lemma contains_app_r (needle a b : string) :
  contains needle b = true -> contains needle (a ++ b) = true.
Proof.
  intro H. induction a as [|c a IH]; [exact H|]. cbn [append contains].
  rewrite IH. apply orb_true_r.
Qed.

Lemma stem_of_output (s : string) :
  stem (s ++ "_stretch.dxf") = (s ++ "_stretch")%string.
Proof.
  unfold stem. rewrite contains_app_r by reflexivity.
  rewrite string_rev_app.
  change (string_rev "_stretch.dxf") with ("fxd." ++ string_rev "_stretch")%string.
  rewrite string_app_assoc. cbn [append drop_suffix_rev].
  change (String "h" (String "c" (String "t" (String "e" (String "r" (String "t"
            (String "s" (String "_" (string_rev s)))))))))
    with (string_rev "_stretch" ++ string_rev s)%string.
  rewrite <- string_rev_app. apply string_rev_involutive.
Qed.

Lemma ends_with_own_suffix (s suffix : string) : ends_with suffix (s ++ suffix) = true.
Proof.
  unfold ends_with. rewrite string_rev_app. unfold starts_with.
  induction (string_rev suffix) as [|c r IH]; [reflexivity|].
  cbn [append strip_prefix]. now rewrite Ascii.eqb_refl.
Qed.

(** X22.  The file that [stretch] writes by default, the stem of the loaded
    path followed by [_stretch.dxf], is never among the work drawings that
    [find_radius_files] returns, whatever the folder holds: the outputs of
    one run are not picked up as inputs of the next. *)
Theorem stretch_output_is_not_a_radius_file (listing : list string) (last_path : string) :
  ~ In (stretch_output last_path) (find_radius_files listing).
Proof.
  unfold find_radius_files. rewrite In_sorted_names, in_app_iff, !filter_In.
  unfold stretch_output. rewrite stem_of_output, ends_with_own_suffix.
  cbn [negb andb]. intros [[_ H]|[_ H]]; discriminate.
Qed.

(** ** Further properties of the Width Checker *)

Lemma dict_set_In {V : Type} (k k' : string) (v v' : V) (d : list (string * V)) :
  In (k', v') (dict_set k v d) -> (k' = k /\ v' = v) \/ In (k', v') d.
Proof.
  induction d as [|[k1 v1] d IH]; cbn [dict_set].
  - intros [H|[]]. injection H as <- <-. now left.
  - destruct (String.eqb k k1).
    + intros [H|H]; [injection H as <- <-; now left|right; now right].
    + intros [H|H]; [right; now left|].
      destruct (IH H) as [L|R]; [now left|right; now right].
Qed.

Lemma group_by_korpus_grouped (radius_files : list string) :
  NoDup (dict_keys (group_by_korpus radius_files)) /\
  Forall (fun kv => grouped radius_files (fst kv) (snd kv)) (group_by_korpus radius_files).
Proof.
  unfold group_by_korpus.
  set (step := fun (korpus_files : list (string * Sides)) (file_path : string) => _).
  assert (G : forall l acc,
             (forall f, In f l -> In f radius_files) ->
             NoDup (dict_keys acc) /\
             Forall (fun kv => grouped radius_files (fst kv) (snd kv)) acc ->
             NoDup (dict_keys (fold_left step l acc)) /\
             Forall (fun kv => grouped radius_files (fst kv) (snd kv))
                    (fold_left step l acc)).
  { induction l as [|f l IH]; intros acc Hsub Hacc; [exact Hacc|].
    cbn [fold_left]. apply IH; [intros g Hg; apply Hsub; now right|].
    destruct Hacc as [HN HF]. unfold step.
    destruct (_extract_korpus_number f) as [k|] eqn:Ek; [|split; assumption].
    split; [now apply dict_set_NoDup|].
    assert (Hf : In f radius_files) by (apply Hsub; now left).
    assert (Hold : grouped radius_files k
                     match dict_get k acc with
                     | Some files => files
                     | None => mkSides None None
                     end \/ dict_get k acc = None).
    { destruct (dict_get k acc) as [files|] eqn:Eg; [left|now right].
      rewrite Forall_forall in HF. exact (HF (k, files) (dict_get_In _ _ _ Eg)). }
    apply dict_set_Forall; [|exact HF]. cbn [fst snd].
    fold (outer_side f).
    destruct (outer_side f) eqn:Es.
    - split; [|split].
      + cbn [outer]. intros g Hg. injection Hg as <-. repeat split; assumption.
      + cbn [inner]. intros g Hg. destruct Hold as [(_ & Hi & _)|Hn].
        * now apply Hi.
        * rewrite Hn in Hg. discriminate.
      + left. discriminate.
    - split; [|split].
      + cbn [outer]. intros g Hg. destruct Hold as [(Ho & _ & _)|Hn].
        * now apply Ho.
        * rewrite Hn in Hg. discriminate.
      + cbn [inner]. intros g Hg. injection Hg as <-. repeat split; assumption.
      + right. discriminate. }
  apply G; [auto|]. split; [constructor|constructor].
Qed.

Lemma NoDup_insert_by_name (s : string) (l : list string) :
  ~ In s l -> NoDup l -> NoDup (insert_by_name s l).
Proof.
  induction l as [|t l IH]; intros Hs Hl; cbn [insert_by_name].
  - constructor; [intros []|constructor].
  - destruct (String.leb s t); [now constructor|].
    inversion Hl as [|? ? Ht Hl']; subst. constructor.
    + rewrite In_insert_by_name. intros [->|H]; [apply Hs; now left|contradiction].
    + apply IH; [intro H; apply Hs; now right|exact Hl'].
Qed.

Lemma NoDup_sorted_names (l : list string) : NoDup l -> NoDup (sorted_names l).
Proof.
  induction 1 as [|s l Hs Hl IH]; [constructor|]. cbn [sorted_names fold_right].
  apply NoDup_insert_by_name; [|exact IH]. fold (sorted_names l).
  now rewrite In_sorted_names.
Qed.

Section WidthFurther.

Variable readfile : string -> option (list Entity).
Variable curve_extents : Entity -> option Extents.

Lemma check_korpus_fields (tolerance : Q) (korpus_num : string) (files : Sides)
  (result : WidthCheckResult.t) :
  check_korpus readfile curve_extents tolerance korpus_num files = Some result ->
  WidthCheckResult.korpus_number result = korpus_num /\
  WidthCheckResult.outer_file result = outer files /\
  WidthCheckResult.inner_file result = inner files /\
  (WidthCheckResult.has_both_files result = false ->
   WidthCheckResult.width_difference result = 0 /\
   WidthCheckResult.needs_adjustment result = false).
Proof.
  unfold check_korpus. destruct files as [[fo|] [fi|]]; cbn [outer inner].
  - destruct (measure_width readfile curve_extents fo) as [ow|]; [|discriminate].
    destruct (measure_width readfile curve_extents fi) as [iw|]; [|discriminate].
    intro H. injection H as <-. cbn. repeat split; discriminate.
  - destruct (measure_width readfile curve_extents fo); [|discriminate].
    intro H. injection H as <-. cbn. repeat split.
  - destruct (measure_width readfile curve_extents fi); [|discriminate].
    intro H. injection H as <-. cbn. repeat split.
  - intro H. injection H as <-. cbn. repeat split.
Qed.

Lemma check_widths_In (listing : list string) (tolerance : Q)
  (result : WidthCheckResult.t) :
  In result (check_widths readfile curve_extents listing tolerance) ->
  exists files,
    In (WidthCheckResult.korpus_number result, files)
       (group_by_korpus (find_radius_files listing)) /\
    check_korpus readfile curve_extents tolerance
                 (WidthCheckResult.korpus_number result) files = Some result.
Proof.
  unfold check_widths. intro Hin. apply in_flat_map in Hin.
  destruct Hin as (k & _ & Hin).
  destruct (dict_get k _) as [files|] eqn:Eg; [|contradiction].
  destruct (check_korpus readfile curve_extents tolerance k files) as [r|] eqn:E;
    [|contradiction].
  destruct Hin as [<-|[]].
  destruct (check_korpus_fields _ _ _ _ E) as (-> & _).
  exists files. split; [now apply dict_get_In|exact E].
Qed.

(** X23.  A result of the width check that lacks the drawing of one side
    reports the difference 0 and is never flagged for adjustment. *)
Theorem check_widths_one_sided_result (listing : list string) (tolerance : Q)
  (result : WidthCheckResult.t) :
  In result (check_widths readfile curve_extents listing tolerance) ->
  WidthCheckResult.has_both_files result = false ->
  WidthCheckResult.width_difference result = 0 /\
  WidthCheckResult.needs_adjustment result = false.
Proof.
  intros Hin Hone. destruct (check_widths_In _ _ _ Hin) as (files & _ & E).
  destruct (check_korpus_fields _ _ _ _ E) as (_ & _ & _ & H). now apply H.
Qed.

(** X24.  Every result of the width check pairs drawings of one assembly:
    its outer file, when present, is a work drawing of the folder whose
    name yields the identifier of the result and carries the outer token;
    its inner file likewise, without the outer token; and at least one of
    the two is present. *)
Theorem check_widths_pairs_one_assembly (listing : list string) (tolerance : Q)
  (result : WidthCheckResult.t) :
  In result (check_widths readfile curve_extents listing tolerance) ->
  grouped (find_radius_files listing) (WidthCheckResult.korpus_number result)
          (mkSides (WidthCheckResult.outer_file result)
                   (WidthCheckResult.inner_file result)).
Proof.
  intro Hin. destruct (check_widths_In _ _ _ Hin) as (files & Hg & E).
  destruct (check_korpus_fields _ _ _ _ E) as (_ & -> & -> & _).
  destruct (group_by_korpus_grouped (find_radius_files listing)) as [_ HF].
  rewrite Forall_forall in HF. specialize (HF _ Hg). cbn [fst snd] in HF.
  destruct files. exact HF.
Qed.

(** X25.  The width check reports each assembly at most once: no two
    results carry the same identifier. *)
Theorem check_widths_one_result_per_assembly (listing : list string) (tolerance : Q) :
  NoDup (map WidthCheckResult.korpus_number
             (check_widths readfile curve_extents listing tolerance)).
Proof.
  unfold check_widths.
  destruct (group_by_korpus_grouped (find_radius_files listing)) as [HN _].
  apply NoDup_sorted_names in HN.
  set (groups := group_by_korpus (find_radius_files listing)) in *.
  induction (sorted_names (dict_keys groups)) as [|k ks IH]; [constructor|].
  inversion HN as [|? ? Hk HN']; subst. cbn [flat_map]. rewrite map_app.
  assert (Hrest : forall r, In r (flat_map
                     (fun korpus_num =>
                        match dict_get korpus_num groups with
                        | Some files =>
                            match check_korpus readfile curve_extents tolerance
                                               korpus_num files with
                            | Some result => [result]
                            | None => []
                            end
                        | None => []
                        end) ks) -> In (WidthCheckResult.korpus_number r) ks).
  { intros r Hr. apply in_flat_map in Hr. destruct Hr as (k' & Hk' & Hr).
    destruct (dict_get k' groups) as [files|]; [|contradiction].
    destruct (check_korpus readfile curve_extents tolerance k' files) as [r'|] eqn:E;
      [|contradiction].
    destruct Hr as [<-|[]]. destruct (check_korpus_fields _ _ _ _ E) as (-> & _).
    exact Hk'. }
  destruct (dict_get k groups) as [files|]; [|now apply IH].
  destruct (check_korpus readfile curve_extents tolerance k files) as [r|] eqn:E;
    [|now apply IH].
  destruct (check_korpus_fields _ _ _ _ E) as (Hkr & _).
  cbn [map app]. constructor; [|now apply IH].
  rewrite Hkr. intro Hin. apply in_map_iff in Hin. destruct Hin as (r' & Hr' & Hin).
  apply Hk. rewrite <- Hr'. now apply Hrest.
Qed.

End WidthFurther.

(** * The properties at concrete drawings *)

Lemma get_zones_sequence_plate :
  exists zones p',
    _get_zones no_curves X plate_loaded = (OK zones, p') /\
    zone_sequence 0 3 zones /\
    ((forall e, In e plate -> _is_fixed_entity e = false) ->
     zones = [mkZone 0 3 Stretch]).
Proof.
  apply (get_zones_sequence no_curves plate init plate_loaded
           (mkInfo 3 2 2 0 3 (-1) 1) X (mkExtents 0 3 (-1) 1) 0 3).
  - vm_compute. reflexivity.
  - reflexivity.
  - reflexivity.
  - vm_compute. discriminate.
Defined.

Lemma plate_zones_sequence : zone_sequence 0 3 plate_zones.
Proof.
  split; [discriminate|]. split.
  - cbn. repeat split; vm_compute; try reflexivity; discriminate.
  - cbn. repeat split; discriminate.
Defined.

Lemma no_elastic_region_circle :
  let run := bindM (load no_curves [CIRCLE (at_ 0 0) 1])
                   (fun _ => stretch no_curves 3 X "start") init in
  fst run = Err NoElasticRegion /\ last_doc (snd run) = Some [CIRCLE (at_ 0 0) 1].
Proof.
  apply (proj2 (proj2 (no_elastic_region no_curves)) (mkVec3 0 0 0) 1 3 X "start"%string init).
  - reflexivity.
  - reflexivity.
Defined.

Lemma build_mapping_segments_plate :
  exists mapping,
    build_mapping_on (0, 3) plate_zones 4 = OK mapping /\
    map seg_zone mapping = plate_zones /\
    Forall (fun seg =>
              end_new seg - start_new seg
              == specified_length (stretch_total plate_zones) (4 - (3 - 0)) seg) mapping /\
    contiguous_new 0 mapping /\
    sum_new_lengths mapping == 4 /\
    Qabs (sum_new_lengths mapping - 4) < eps6.
Proof.
  apply (build_mapping_segments 0 3 4 plate_zones).
  - exact plate_zones_sequence.
  - reflexivity.
Defined.

Lemma generic_fallback_plate :
  exists first rest,
    plate_mapping = first :: rest /\
    start_new first = 0 /\
    start_old first == 0 /\
    start_new first - start_old first == 0 /\
    forall entity,
      is_generic entity = true ->
      fst (map_entity entity plate_mapping X) = OK tt /\
      same_entity (snd (map_entity entity plate_mapping X)) entity /\
      forall shift,
        same_entity (try_transform X shift (snd (map_entity entity plate_mapping X)))
                    (try_transform X shift entity).
Proof.
  apply (generic_fallback_is_identity 0 3 4 plate_zones plate_mapping X).
  - exact plate_zones_sequence.
  - reflexivity.
Defined.

Lemma stretch_preserves_plate_circle :
  exists msp' p',
    stretch no_curves 4 X "end" plate_loaded = (OK (Some msp'), p') /\
    Forall2 (rigid_preserved X) plate msp'.
Proof.
  eexists. eexists. split; [vm_compute; reflexivity|].
  eapply (proj1 (proj2 (proj2 (stretch_preserves_fixed_features no_curves)))
            plate_loaded _ 4 X "end"%string plate).
  - reflexivity.
  - vm_compute. reflexivity.
Defined.


Lemma apply_mapping_line_without_ends :
  match LINE None None with
  | LWPOLYLINE _ | POLYLINE _ | SPLINE _ _ _ => True
  | e => snd (map_entity e plate_mapping X) = e
  end.
Proof.
  apply (proj1 (proj2 (proj2 (apply_mapping_survives_failures plate_mapping X)))
           (LINE None None) AttributeError).
  reflexivity.
Defined.

Lemma match_outer_radius :
  exists info,
    match_radius_to_base reference_bases outer_name 100 = Found info /\
    RadiusFileInfo.is_outer info = outer_side outer_name /\
    RadiusFileInfo.korpus_number info = "корп1"%string /\
    RadiusFileInfo.base_info info = reference_base /\
    RadiusFileInfo.target_length info
    = if outer_side outer_name
      then ArcInfo.arc_length (BaseInfo.arc1 reference_base)
      else ArcInfo.arc_length (BaseInfo.arc2 reference_base).
Proof.
  apply (proj1 (proj2 (match_radius_to_base_target reference_folder reference_bases
                         outer_name 100 "корп1"%string eq_refl))
           reference_base).
  vm_compute. reflexivity.
Defined.

(** The example of the specification: the outer target is about 157.080,
    the inner arc about 89.012. *)
Example reference_lengths :
  exists info,
    match_radius_to_base reference_bases outer_name 100 = Found info /\
    157079 # 1000 < RadiusFileInfo.target_length info /\
    RadiusFileInfo.target_length info < 157081 # 1000 /\
    89011 # 1000 < BaseInfo.inner_radius_length (RadiusFileInfo.base_info info) /\
    BaseInfo.inner_radius_length (RadiusFileInfo.base_info info) < 89013 # 1000.
Proof.
  eexists. split; [vm_compute; reflexivity|]. repeat split; vm_compute; reflexivity.
Qed.

Lemma check_widths_work_folder :
  exists result,
    check_widths work_folder no_curves [inner_name; outer_name] default_tolerance
    = [result] /\
    exists outer_path inner_path ow iw,
      WidthCheckResult.outer_file result = Some outer_path /\
      WidthCheckResult.inner_file result = Some inner_path /\
      measure_width work_folder no_curves outer_path = Some ow /\
      measure_width work_folder no_curves inner_path = Some iw /\
      WidthCheckResult.outer_width result = Some ow /\
      WidthCheckResult.inner_width result = Some iw /\
      WidthCheckResult.width_difference result = ow - iw /\
      (WidthCheckResult.needs_adjustment result = true <->
       default_tolerance < Qabs (WidthCheckResult.width_difference result)) /\
      (Qabs (WidthCheckResult.width_difference result) == default_tolerance ->
       WidthCheckResult.needs_adjustment result = false).
Proof.
  eexists. split; [vm_compute; reflexivity|].
  apply (check_widths_flags work_folder no_curves [inner_name; outer_name]
           default_tolerance).
  - vm_compute. left. reflexivity.
  - reflexivity.
Defined.

(** The boundary of the specification: 120.10 against 120.00 is not
    flagged, 120.11 against 120.00 is. *)
Example width_boundary :
  map WidthCheckResult.needs_adjustment
      (check_widths work_folder no_curves [inner_name; outer_name] default_tolerance)
  = [false] /\
  Qltb default_tolerance (Qabs ((12010 # 100) - 120)) = false /\
  Qltb default_tolerance (Qabs ((12011 # 100) - 120)) = true.
Proof. vm_compute. repeat split. Qed.

(** ** The target length at concrete drawings *)

Lemma stretch_plate_to_four :
  exists r p' msp' ext',
    stretch no_curves 4 X "center" plate_loaded = (OK r, p') /\
    last_doc p' = Some msp' /\
    extents_of no_curves msp' = Some ext' /\
    axis_size X ext' == 4 /\
    Qabs (axis_size X ext' - 4) < eps6.
Proof.
  apply (stretch_reaches_target no_curves plate init plate_loaded
           (mkInfo 3 2 2 0 3 (-1) 1) X (mkExtents 0 3 (-1) 1) 4 "center"%string).
  - vm_compute. reflexivity.
  - reflexivity.
  - repeat constructor.
  - vm_compute. reflexivity.
  - vm_compute. discriminate.
  - vm_compute. repeat constructor.
  - repeat constructor; intros [H1 H2]; vm_compute in H1, H2;
      first [discriminate H1 | now apply H2].
Defined.

(** C1 as stated fails: the plate has a stretch zone of length 1, the
    target 1 is positive, [stretch] succeeds, and the result is 2 long: the
    hole alone is 2 wide and is not compressed. *)
Lemma stretch_below_fixed_length :
  exists zones p1 msp' p' ext',
    _get_zones no_curves X plate_loaded = (OK zones, p1) /\
    0 < stretch_total zones /\
    stretch no_curves 1 X "start" plate_loaded = (OK (Some msp'), p') /\
    extents_of no_curves msp' = Some ext' /\
    axis_size X ext' == 2 /\
    ~ Qabs (axis_size X ext' - 1) < eps6.
Proof.
  do 5 eexists. split; [vm_compute; reflexivity|].
  split; [vm_compute; reflexivity|].
  split; [vm_compute; reflexivity|].
  split; [vm_compute; reflexivity|].
  split; [vm_compute; reflexivity|].
  vm_compute. discriminate.
Qed.

(** Why the drawing must consist of entities the transformer remaps: an
    ellipse counts as fixed for the Segmenter but goes through the generic
    fallback, which does not move it; the plate with an ellipse stays 3
    long when stretched to 4. *)
Example ellipse_is_left_behind :
  exists info p msp' p' ext',
    load ellipse_extents plate_with_ellipse init = (OK info, p) /\
    length_x info == 3 /\
    stretch ellipse_extents 4 X "start" p = (OK (Some msp'), p') /\
    extents_of ellipse_extents msp' = Some ext' /\
    axis_size X ext' == 3.
Proof.
  do 5 eexists. split; [vm_compute; reflexivity|].
  split; [vm_compute; reflexivity|].
  split; [vm_compute; reflexivity|].
  split; vm_compute; reflexivity.
Qed.

(** Why no zone may be shorter than 1e-9: the point 1e-10 to the right of
    the hole is found in the segment of the hole and stays where it is;
    the drawing keeps its length instead of reaching 4. *)
Example short_zone_is_not_stretched :
  exists info p zones p1 msp' p' ext',
    load no_curves hole_and_point init = (OK info, p) /\
    _get_zones no_curves X p = (OK zones, p1) /\
    0 < stretch_total zones /\
    stretch no_curves 4 X "start" p = (OK (Some msp'), p') /\
    extents_of no_curves msp' = Some ext' /\
    axis_size X ext' == length_x info /\
    axis_size X ext' < 4 - (1 # 2).
Proof.
  do 7 eexists. split; [vm_compute; reflexivity|].
  split; [vm_compute; reflexivity|].
  split; [vm_compute; reflexivity|].
  split; [vm_compute; reflexivity|].
  split; [vm_compute; reflexivity|].
  split; vm_compute; reflexivity.
Qed.

(** * The further properties at concrete drawings *)


Lemma stretched_plate_keeps_old_extents :
  let run := stretch no_curves 4 X "start" plate_loaded in
  let msp' := match fst run with OK (Some msp') => msp' | _ => [] end in
  exists ext,
    extents_of no_curves plate = Some ext /\
    extents (snd run) = Some ext /\
    last_doc (snd run) = Some msp' /\
    _get_zones no_curves X (snd run)
    = (OK (compute_zones no_curves plate X (axis_interval X ext)), snd run).
Proof.
  apply (stretch_leaves_stale_measurements no_curves plate _ init plate_loaded _
           (mkInfo 3 2 2 0 3 (-1) 1) 4 X "start"%string).
  - vm_compute. reflexivity.
  - vm_compute. reflexivity.
Defined.

Lemma stretch_plate_to_minus_five :
  exists r p', stretch no_curves (-5) X "start" plate_loaded = (OK r, p').
Proof.
  apply (stretch_accepts_any_target no_curves plate init plate_loaded
           (mkInfo 3 2 2 0 3 (-1) 1) (mkExtents 0 3 (-1) 1) (-5) X "start"%string).
  - vm_compute. reflexivity.
  - reflexivity.
  - vm_compute. discriminate.
  - vm_compute. reflexivity.
Defined.

Lemma stretched_plate_off_axis :
  let run := stretch no_curves 4 X "center" plate_loaded in
  let msp' := match fst run with OK (Some msp') => msp' | _ => [] end in
  map (erase X) msp' = map (erase X) plate.
Proof.
  apply (stretch_changes_one_axis_only no_curves 4 X "center"%string plate_loaded
           (snd (stretch no_curves 4 X "center"%string plate_loaded))).
  - reflexivity.
  - vm_compute. reflexivity.
Defined.

Lemma plate_beyond_the_right_end :
  exists r, _map_value 5 plate_mapping = OK r /\ r == 5 + (4 - (3 - 0)).
Proof.
  apply (map_value_outside_the_range 0 3 4 5 plate_zones plate_mapping).
  - exact plate_zones_sequence.
  - vm_compute. reflexivity.
  - vm_compute. reflexivity.
  - right. vm_compute. reflexivity.
Defined.

Lemma plate_start_anchor :
  let p := mkProcessor (Some plate) (Some (mkExtents 0 3 (-1) 1)) cache_clear in
  _apply_anchor_shift plate_mapping X "start" p = (OK tt, p).
Proof.
  apply (start_anchor_needs_no_shift plate (mkExtents 0 3 (-1) 1) cache_clear X 4
           plate_zones plate_mapping "start"%string).
  - exact plate_zones_sequence.
  - vm_compute. reflexivity.
  - discriminate.
  - intros [H|[H|[H|[]]]]; discriminate.
Defined.

Lemma plate_intervals_run_forwards :
  Forall (fun seg : MappingSegment => start_new seg <= end_new seg) plate_mapping
  <-> total fixed_part plate_zones <= 4.
Proof.
  apply (new_intervals_run_forwards_iff 0 3 4 plate_zones plate_mapping).
  - exact plate_zones_sequence.
  - vm_compute. reflexivity.
  - vm_compute. reflexivity.
Defined.

Lemma diagonal_is_scaled :
  let p := snd (load no_curves [LINE (at_ 0 0) (at_ 2 1)] init) in
  exists zones p1 mapping p2 r,
    _get_zones no_curves X p = (OK zones, p1) /\
    _build_mapping zones X 4 p1 = (OK mapping, p2) /\
    _map_value 1 mapping = OK r /\
    r == 0 + (1 - 0) / (2 - 0) * pymax 0 4.
Proof.
  apply (drawing_without_fixed_entities_is_scaled no_curves [LINE (at_ 0 0) (at_ 2 1)]
           init _ (mkInfo 2 1 1 0 2 0 1) X (mkExtents 0 2 0 1) 0 2 4 1).
  - vm_compute. reflexivity.
  - reflexivity.
  - reflexivity.
  - intros e [<-|[]]. reflexivity.
  - vm_compute. discriminate.
  - vm_compute. discriminate.
  - vm_compute. discriminate.
Defined.

Lemma plate_keeps_order :
  exists rv rw,
    _map_value (1 # 2) plate_mapping = OK rv /\ _map_value 2 plate_mapping = OK rw /\
    rv <= rw /\
    (total fixed_part plate_zones < 4 -> 1 # 2 < 2 -> rv < rw).
Proof.
  apply (map_value_preserves_order 0 3 4 (1 # 2) 2 plate_zones plate_mapping).
  - exact plate_zones_sequence.
  - repeat constructor.
  - vm_compute. reflexivity.
  - vm_compute. discriminate.
  - vm_compute. reflexivity.
  - vm_compute. discriminate.
  - vm_compute. discriminate.
  - vm_compute. discriminate.
  - repeat constructor; intros [H1 H2]; vm_compute in H1, H2;
      first [discriminate H1 | now apply H2].
  - repeat constructor; intros [H1 H2]; vm_compute in H1, H2;
      first [discriminate H1 | now apply H2].
Defined.

Lemma plate_has_no_empty_zone :
  exists zones p',
    _get_zones no_curves X plate_loaded = (OK zones, p') /\
    Forall (fun z => start_old z < end_old z) zones.
Proof.
  apply (get_zones_has_no_empty_zone no_curves plate init plate_loaded
           (mkInfo 3 2 2 0 3 (-1) 1) X (mkExtents 0 3 (-1) 1) 0 3).
  - vm_compute. reflexivity.
  - reflexivity.
  - reflexivity.
  - reflexivity.
Defined.

Lemma plate_hole_in_one_zone :
  exists zones p' z,
    _get_zones no_curves X plate_loaded = (OK zones, p') /\
    In z zones /\ zone_type z = Fixed /\
    start_old z <= fst (2 - 1, 2 + 1) /\ snd (2 - 1, 2 + 1) <= end_old z.
Proof.
  apply (fixed_entity_lies_in_one_fixed_zone no_curves plate init plate_loaded
           (mkInfo 3 2 2 0 3 (-1) 1) X (mkExtents 0 3 (-1) 1) (CIRCLE (at_ 2 0) 1)).
  - vm_compute. reflexivity.
  - reflexivity.
  - right. left. reflexivity.
  - reflexivity.
  - reflexivity.
  - vm_compute. reflexivity.
Defined.


Lemma diagonal_along_y_only :
  let p := snd (load no_curves [LINE (at_ 0 0) (at_ 3 2)] init) in
  stretch_both_axes no_curves 3 4 "start" "start" p = stretch no_curves 4 Y "start" p.
Proof.
  apply (stretch_both_axes_along_y_only no_curves _ [LINE (at_ 0 0) (at_ 3 2)]
           (mkExtents 0 3 0 2) 3 4 "start"%string "start"%string).
  - reflexivity.
  - reflexivity.
  - vm_compute. discriminate.
  - vm_compute. reflexivity.
  - vm_compute. discriminate.
Defined.

Lemma upright_line_errors :
  let p := snd (load no_curves [LINE (at_ 0 0) (at_ 0 1)] init) in
  stretch no_curves 5 X "start" p = (Err DegenerateAxis, p) /\
  exists p', stretch_both_axes no_curves 5 1 "start" "start" p = (Err NoElasticRegion, p').
Proof.
  apply (degenerate_axis_errors_differ no_curves [LINE (at_ 0 0) (at_ 0 1)] init _
           (mkInfo 0 1 1 0 0 0 1) (mkExtents 0 0 0 1) 5 1 "start"%string "start"%string).
  - vm_compute. reflexivity.
  - reflexivity.
  - reflexivity.
  - vm_compute. reflexivity.
Defined.

Lemma half_circle_arc :
  exists a,
    _extract_arc_info (ARC (at_ 0 0) 50 0 180) = Some a /\
    0 <= ArcInfo.arc_length a /\
    ArcInfo.arc_length a <= 2 * math_pi * 50 /\
    (0 == 180 -> ArcInfo.arc_length a == 0).
Proof.
  apply (arc_length_within_circumference (mkVec3 0 0 0) 50 0 180); lra.
Defined.

Lemma reference_record_arcs :
  BaseInfo.file_path reference_base = reference_name /\
  _extract_korpus_number reference_name = Found (BaseInfo.korpus_number reference_base) /\
  ArcInfo.radius (BaseInfo.arc2 reference_base)
  <= ArcInfo.radius (BaseInfo.arc1 reference_base) /\
  exists rest,
    Permutation (collect_arcs [ARC (at_ 0 0) 30 0 170; ARC (at_ 0 0) 50 0 180])
                (BaseInfo.arc1 reference_base :: BaseInfo.arc2 reference_base :: rest) /\
    Forall (fun a => ArcInfo.radius a <= ArcInfo.radius (BaseInfo.arc2 reference_base)) rest.
Proof.
  apply (analyze_base_file_keeps_largest_arcs reference_folder reference_name).
  - vm_compute. reflexivity.
  - vm_compute. reflexivity.
Defined.

Lemma base_file_with_one_arc :
  let readfile := fun _ : string => Some [ARC (at_ 0 0) 30 0 170] in
  let e := InsufficientArcs reference_name in
  (e = UnparsableFilename reference_name /\
   _extract_korpus_number reference_name = Failed e) \/
  (e = ReadError reference_name /\
   (exists k, _extract_korpus_number reference_name = Found k) /\
   readfile reference_name = None) \/
  (e = InsufficientArcs reference_name /\
   exists msp, readfile reference_name = Some msp /\
               (List.length (collect_arcs msp) < 2)%nat).
Proof.
  apply (analyze_base_file_failures (fun _ : string => Some [ARC (at_ 0 0) 30 0 170])
           reference_name).
  vm_compute. reflexivity.
Defined.

Lemma outer_drawing_alone :
  exists result,
    check_widths work_folder no_curves [outer_name] default_tolerance = [result] /\
    WidthCheckResult.width_difference result = 0 /\
    WidthCheckResult.needs_adjustment result = false.
Proof.
  eexists. split; [vm_compute; reflexivity|].
  apply (check_widths_one_sided_result work_folder no_curves [outer_name]
           default_tolerance).
  - vm_compute. left. reflexivity.
  - reflexivity.
Defined.

Lemma work_folder_pair :
  exists result,
    check_widths work_folder no_curves [inner_name; outer_name] default_tolerance
    = [result] /\
    grouped (find_radius_files [inner_name; outer_name])
            (WidthCheckResult.korpus_number result)
            (mkSides (WidthCheckResult.outer_file result)
                     (WidthCheckResult.inner_file result)).
Proof.
  eexists. split; [vm_compute; reflexivity|].
  apply (check_widths_pairs_one_assembly work_folder no_curves [inner_name; outer_name]
           default_tolerance).
  vm_compute. left. reflexivity.
Defined.
